(** * The term graph engine of knowledge.py

    A shallow embedding of [knowledge.py]: the [Term] class, the
    module-level functions (add_kind_of, is_kind_of, what_is, make_alias,
    get_terms, save_aliases, load_aliases), the three regular expressions
    and the body of the command loop, followed by theorems about them.
    The commands also appear as the type [op], for statements about
    sequences of operations.

    Python objects have identity: a [Term] is shared by every list that
    holds it, and the methods mutate it in place.  The embedding keeps an
    arena of terms (the list [heap]); a term is referred to by its index
    in the arena, and two terms are the same object exactly when their
    indices are equal.  The module globals [obj] and [aliases] and the
    mutable default argument of [list_reduce] live in the same record,
    together with the lines printed so far; the default argument of
    [save_tree] and the database file are added to it for the command
    loop (the record [World]). *)

From stdpp Require Import base option list strings gmap.

Local Open Scope string_scope.
Local Open Scope list_scope.

(** ** Results of running Python code *)

(** Exceptions the modelled functions can raise. *)
Inductive exn :=
  | AttributeError   (* a method looked up on None *).

(** A run either returns, raises, or exhausts the recursion budget
    (Python's own recursion limit raises RuntimeError at that point). *)
Inductive result (A : Type) :=
  | Ok (a : A)
  | Raise (e : exn)
  | OutOfFuel.
Arguments Ok {A} a.
Arguments Raise {A} e.
Arguments OutOfFuel {A}.

Global Instance result_ret : MRet result := fun A a => Ok a.
Global Instance result_bind : MBind result := fun A B f m =>
  match m with
  | Ok a => f a
  | Raise e => Raise e
  | OutOfFuel => OutOfFuel
  end.

(** ** Data model *)

Definition addr := nat.

(** class Term: [self.name], [self.children], [self.parents]. *)
Record Term := mkTerm {
  name : string;
  children : list addr;
  parents : list addr
}.

Global Instance Term_eq_dec : EqDecision Term.
Proof. solve_decision. Defined.

Record KB := mkKB {
  heap : list Term;                 (* every Term object created so far *)
  aliases : gmap string string;     (* the global dict [aliases] *)
  list_reduce_default : list addr;  (* the default [list=[]] of list_reduce *)
  stdout : list string              (* lines printed, oldest first *)
}.

(** [obj = Term("object")] is the first object created. *)
Definition obj : addr := 0.

(** [Term(name)]: empty children and parents. *)
Definition new_Term (nm : string) : Term := mkTerm nm [] [].

Definition init : KB := mkKB [new_Term "object"] ∅ [] [].

(** Reading a term through its reference.  References are only ever
    obtained from the arena, so the default is never observed on the
    states the program builds. *)
Definition tm (w : KB) (a : addr) : Term := default (new_Term "") (heap w !! a).

Definition set_heap (h : list Term) (w : KB) : KB :=
  mkKB h (aliases w) (list_reduce_default w) (stdout w).

Definition upd (a : addr) (t : Term) (w : KB) : KB :=
  set_heap (<[a := t]> (heap w)) w.

Definition set_name (a : addr) (nm : string) (w : KB) : KB :=
  upd a (mkTerm nm (children (tm w a)) (parents (tm w a))) w.

Definition set_children (a : addr) (cs : list addr) (w : KB) : KB :=
  upd a (mkTerm (name (tm w a)) cs (parents (tm w a))) w.

Definition set_parents (a : addr) (ps : list addr) (w : KB) : KB :=
  upd a (mkTerm (name (tm w a)) (children (tm w a)) ps) w.

(** Allocation of a fresh object: its reference is the next free index. *)
Definition alloc (nm : string) (w : KB) : addr * KB :=
  (length (heap w), set_heap (heap w ++ [new_Term nm]) w).

(** The print statement: one line appended to the console. *)
Definition print (line : string) (w : KB) : KB :=
  mkKB (heap w) (aliases w) (list_reduce_default w) (stdout w ++ [line]).

(** [if name in aliases.keys (): name = aliases[name]] *)
Definition resolve (al : gmap string string) (nm : string) : string :=
  default nm (al !! nm).

(** [l.remove (x)]: drops the first occurrence (used only after an
    [x in l] test, so the ValueError case does not arise). *)
Fixpoint list_remove_first (x : addr) (l : list addr) : list addr :=
  match l with
  | [] => []
  | y :: l' => if decide (y = x) then l' else y :: list_remove_first x l'
  end.

(** [x in l] on a list of Term objects compares identities. *)
Definition memb (x : addr) (l : list addr) : bool := bool_decide (x ∈ l).

(** [for ex in l: if ex.name == nm: return False] *)
Definition has_name (w : KB) (nm : string) (l : list addr) : bool :=
  existsb (fun ex => bool_decide (name (tm w ex) = nm)) l.

(** ** Loops over a list that the body does not modify *)

(** [for x in l: s = body (x, s)], threading a value through the loop. *)
Fixpoint for_each {A S : Type} (body : A -> S -> result S) (l : list A) (s : S)
  : result S :=
  match l with
  | [] => Ok s
  | x :: l' => s' ← body x s; for_each body l' s'
  end.

(** [for x in l: val = search (x); if val is not None: return val],
    falling through to [return None]. *)
Fixpoint first_found {A B : Type} (search : A -> result (option B)) (l : list A)
  : result (option B) :=
  match l with
  | [] => Ok None
  | x :: l' =>
    match search x with
    | Ok None => first_found search l'
    | r => r
    end
  end.

(** ** Term.traverse *)

(** The alias table is consulted at every call, hence once more at each
    level of the descent.  The loop over [self.children] stops at the
    first child whose search succeeds. *)
Fixpoint traverse (fuel : nat) (w : KB) (self : addr) (nm : string)
  : result (option addr) :=
  match fuel with
  | 0 => OutOfFuel
  | S f =>
    let nm' := resolve (aliases w) nm in
    if decide (name (tm w self) = nm') then Ok (Some self)
    else first_found (fun child => traverse f w child nm') (children (tm w self))
  end.

(** ** Term.get_ancestry *)

(** The value built by get_ancestry: the Python list
    [[name, sub_1, ..., sub_k]] whose head is a string and whose other
    elements are lists of the same shape. *)
#[local] Unset Elimination Schemes.
Inductive anode := ANode (nm : string) (subs : list anode).
#[local] Set Elimination Schemes.

Definition anode_name (a : anode) : string := let 'ANode nm _ := a in nm.
Definition anode_subs (a : anode) : list anode := let 'ANode _ subs := a in subs.

(** [==] on these nested lists is structural. *)
Fixpoint anode_eqb (a b : anode) {struct a} : bool :=
  match a, b with
  | ANode n1 s1, ANode n2 s2 =>
    bool_decide (n1 = n2) &&
    (fix go (l1 l2 : list anode) {struct l1} : bool :=
       match l1, l2 with
       | [], [] => true
       | x :: l1', y :: l2' => anode_eqb x y && go l1' l2'
       | _, _ => false
       end) s1 s2
  end.

(** [for parent in self.parents: anode = [parent.get_name ()];
     anode.extend (parent.get_ancestry ()); alist.append (anode)] *)
Fixpoint get_ancestry (fuel : nat) (w : KB) (self : addr) : result (list anode) :=
  match fuel with
  | 0 => OutOfFuel
  | S f =>
    for_each (fun parent alist =>
                subs ← get_ancestry f w parent;
                Ok (alist ++ [ANode (name (tm w parent)) subs]))
             (parents (tm w self)) []
  end.

(** ** Term.remove_child and Term.remove_parent *)

(** [if child in self.children: self.children.remove (child)] *)
Definition unlink_child (self child : addr) (w : KB) : KB :=
  if memb child (children (tm w self))
  then set_children self (list_remove_first child (children (tm w self))) w
  else w.

(** The argument is either a name ([type (child) == str]) or a Term. *)
Definition remove_child (fuel : nat) (self : addr) (child : string + addr) (w : KB)
  : result KB :=
  match child with
  | inl s =>
    r ← traverse fuel w obj s;
    match r with
    | None => Ok (print "FATAL: Item does not exist." w)
    | Some c => Ok (unlink_child self c w)
    end
  | inr c => Ok (unlink_child self c w)
  end.

(** [if parent in self.parents: parent.remove_child (self);
     self.parents.remove (parent)] *)
Definition unlink_parent (self parent : addr) (w : KB) : KB :=
  if memb parent (parents (tm w self))
  then
    let w1 := unlink_child parent self w in
    set_parents self (list_remove_first parent (parents (tm w1 self))) w1
  else w.

Definition remove_parent (fuel : nat) (self : addr) (parent : string + addr) (w : KB)
  : result KB :=
  match parent with
  | inl s =>
    r ← traverse fuel w obj s;
    match r with
    | None => Ok (print "FATAL: Item does not exist." w)
    | Some p => Ok (unlink_parent self p w)
    end
  | inr p => Ok (unlink_parent self p w)
  end.

(** ** Term.prune_tree *)

(** [parent1 in parent2]: the head of parent2 is a string and never equals
    the list parent1, so only the nested lists are candidates. *)
Definition anode_in (parent1 parent2 : anode) : bool :=
  existsb (anode_eqb parent1) (anode_subs parent2).

(** [while len (parent2) > 1: if parent1 in parent2:
       self.remove_parent (parent1[0]); parent2 = parent2[1]] *)
Fixpoint prune_while (fuel : nat) (self : addr) (parent1 parent2 : anode) (w : KB)
  {struct parent2} : result KB :=
  match parent2 with
  | ANode _ [] => Ok w
  | ANode _ (next :: _) =>
    w1 ← (if anode_in parent1 parent2
          then remove_parent fuel self (inl (anode_name parent1)) w
          else Ok w);
    prune_while fuel self parent1 next w1
  end.

(** [for parent2 in self.get_ancestry (): ...] over the list computed
    when the inner loop starts. *)
Fixpoint prune_inner (fuel : nat) (self : addr) (parent1 : anode)
  (l2 : list anode) (w : KB) : result KB :=
  match l2 with
  | [] => Ok w
  | parent2 :: l2' =>
    w1 ← prune_while fuel self parent1 parent2 w;
    prune_inner fuel self parent1 l2' w1
  end.

(** [for parent1 in self.get_ancestry (): for parent2 in
    self.get_ancestry (): ...]: the outer list is computed once, the inner
    one afresh for every parent1. *)
Fixpoint prune_outer (fuel : nat) (self : addr) (l1 : list anode) (w : KB)
  : result KB :=
  match l1 with
  | [] => Ok w
  | parent1 :: l1' =>
    l2 ← get_ancestry fuel w self;
    w1 ← prune_inner fuel self parent1 l2 w;
    prune_outer fuel self l1' w1
  end.

(** The first loop of prune_tree. *)
Definition prune_own (fuel : nat) (self : addr) (w : KB) : result KB :=
  l1 ← get_ancestry fuel w self;
  prune_outer fuel self l1 w.

(** [for child in self.children: child.prune_tree ()].  The list is
    mutated while it is iterated (a child that drops [self] as a parent
    leaves [self.children]), so the loop is by position in the current
    list, as Python's list iterator is. *)
Fixpoint prune_tree (fuel : nat) (self : addr) (w : KB) {struct fuel} : result KB :=
  match fuel with
  | 0 => OutOfFuel
  | S f =>
    w1 ← prune_own f self w;
    prune_children f self 0 w1
  end
with prune_children (fuel : nat) (self : addr) (i : nat) (w : KB) {struct fuel}
  : result KB :=
  match fuel with
  | 0 => OutOfFuel
  | S f =>
    match children (tm w self) !! i with
    | None => Ok w
    | Some child =>
      w1 ← prune_tree f child w;
      prune_children f self (S i) w1
    end
  end.

(** ** Term.add_child and Term.add_parent *)

Definition add_parent (fuel : nat) (self parent : addr) (w : KB) : result (bool * KB) :=
  if has_name w (name (tm w parent)) (parents (tm w self)) then Ok (false, w)
  else
    let w1 := set_parents self (parents (tm w self) ++ [parent]) w in
    w2 ← prune_tree fuel obj w1;
    Ok (true, w2).

Definition add_child (fuel : nat) (self child : addr) (w : KB) : result (bool * KB) :=
  if has_name w (name (tm w child)) (children (tm w self)) then Ok (false, w)
  else
    let w1 := set_children self (children (tm w self) ++ [child]) w in
    add_parent fuel child self w1.

(** ** Term.update_names *)

Fixpoint update_names (fuel : nat) (self : addr) (w : KB) : result KB :=
  match fuel with
  | 0 => OutOfFuel
  | S f =>
    let w1 := match aliases w !! name (tm w self) with
              | Some true_name => set_name self true_name w
              | None => w
              end in
    for_each (update_names f) (children (tm w1 self)) w1
  end.

(** ** Term.list_reduce *)

(** The accumulator is one list object threaded through the whole walk. *)
Fixpoint list_reduce (fuel : nat) (w : KB) (self : addr) (acc : list addr)
  : result (list addr) :=
  match fuel with
  | 0 => OutOfFuel
  | S f =>
    let acc1 := if memb self acc then acc else acc ++ [self] in
    for_each (list_reduce f w) (children (tm w self)) acc1
  end.

(** [obj.list_reduce ()]: called without an argument, the walk appends to
    the default list object, which Python creates once, when the function
    is defined, and which therefore keeps its contents between calls. *)
Definition list_reduce_noarg (fuel : nat) (self : addr) (w : KB)
  : result (list addr * KB) :=
  acc ← list_reduce fuel w self (list_reduce_default w);
  Ok (acc, mkKB (heap w) (aliases w) acc (stdout w)).

(** ** Module-level functions *)

Fixpoint add_kind_of (fuel : nat) (x y : string) (w : KB) : result KB :=
  match fuel with
  | 0 => OutOfFuel
  | S f =>
    r ← traverse f w obj x;
    let '(newobj, w1) := match r with
                         | Some a => (a, w)
                         | None => alloc x w
                         end in
    r2 ← traverse f w1 obj y;
    '(superobj, w2) ←
      match r2 with
      | Some s => Ok (Some s, w1)
      | None =>
        let w1a := print ("WARNING: Parent object " +:+ y +:+ " does not exist.") w1 in
        let w1b := print "Creating new parent object and linking to object." w1a in
        w1c ← add_kind_of f y "object" w1b;
        s ← traverse f w1c obj y;
        Ok (s, w1c)
      end;
    match superobj with
    | None => Raise AttributeError
    | Some s => r3 ← add_child f s newobj w2; Ok (snd r3)
    end
  end.

(** The value is Python's None when the parent is unknown. *)
Definition is_kind_of (fuel : nat) (x y : string) (w : KB) : result (option bool * KB) :=
  r ← traverse fuel w obj y;
  match r with
  | None => Ok (None, print ("FATAL: Parent object " +:+ y +:+ " does not exist.") w)
  | Some parentobj =>
    r2 ← traverse fuel w parentobj x;
    match r2 with
    | None => Ok (Some false, w)
    | Some _ => Ok (Some true, w)
    end
  end.

Definition make_alias (fuel : nat) (alias true_name : string) (w : KB) : result KB :=
  item ← traverse fuel w obj true_name;
  let true_name' := match item with
                    | Some i => name (tm w i)
                    | None => true_name
                    end in
  match aliases w !! alias with
  | Some _ => Ok w
  | None => Ok (mkKB (heap w) (<[alias := true_name']> (aliases w))
                     (list_reduce_default w) (stdout w))
  end.

(** [aliases.keys ()]: a dict has no specified order; the model takes the
    order in which the map enumerates its keys. *)
Definition alias_keys (w : KB) : list string := (map_to_list (aliases w)).*1.

(** [terms = [t.name for t in obj.list_reduce ()]], then every alias not
    already among them. *)
Definition get_terms (fuel : nat) (w : KB) : result (list string * KB) :=
  '(ts, w1) ← list_reduce_noarg fuel obj w;
  let terms := (fun t => name (tm w1 t)) <$> ts in
  Ok (foldl (fun terms alias =>
               if bool_decide (alias ∈ terms) then terms else terms ++ [alias])
            terms (alias_keys w1), w1).

(** The interactive loop declares an alias with [make_alias] followed by
    [obj.update_names ()]. *)
Definition declare_alias (fuel : nat) (alias true_name : string) (w : KB) : result KB :=
  w1 ← make_alias fuel alias true_name w;
  update_names fuel obj w1.

(** [" " * recur_depth] *)
Fixpoint spaces (n : nat) : string :=
  match n with
  | 0 => ""
  | S n' => " " +:+ spaces n'
  end.

(** what_is on a Term: one line per parent link, then the parent's own
    links one level deeper. *)
Fixpoint what_is_term (fuel : nat) (item : addr) (recur_depth : nat) (w : KB)
  : result KB :=
  match fuel with
  | 0 => OutOfFuel
  | S f =>
    for_each (fun parent w =>
                what_is_term f parent (S recur_depth)
                  (print (spaces recur_depth +:+ name (tm w item) +:+ " is a kind of "
                          +:+ name (tm w parent) +:+ ";") w))
             (parents (tm w item)) w
  end.

(** what_is on a name. *)
Definition what_is (fuel : nat) (item : string) (w : KB) : result KB :=
  r ← traverse fuel w obj item;
  match r with
  | None => Ok (print "FATAL: Item does not exist." w)
  | Some i =>
    what_is_term fuel i 0
      (if decide (name (tm w i) = item) then w
       else print (item +:+ " is an alias for " +:+ name (tm w i)) w)
  end.

(** ** The public operations, as one command type *)

Inductive op :=
  | OpAddRelationship (x y : string)
  | OpRemoveChild (self : addr) (child : string + addr)
  | OpRemoveParent (self : addr) (parent : string + addr)
  | OpDeclareAlias (alias true_name : string)
  | OpRename
  | OpPrune
  | OpIsKindOf (x y : string)
  | OpWhatIs (item : string)
  | OpListTerms.

Definition exec (fuel : nat) (o : op) (w : KB) : result KB :=
  match o with
  | OpAddRelationship x y => add_kind_of fuel x y w
  | OpRemoveChild self child => remove_child fuel self child w
  | OpRemoveParent self parent => remove_parent fuel self parent w
  | OpDeclareAlias alias true_name => declare_alias fuel alias true_name w
  | OpRename => update_names fuel obj w
  | OpPrune => prune_tree fuel obj w
  | OpIsKindOf x y => r ← is_kind_of fuel x y w; Ok (snd r)
  | OpWhatIs item => what_is fuel item w
  | OpListTerms => r ← get_terms fuel w; Ok (snd r)
  end.

(** States reached from the initial knowledge base by operations that run
    to completion, all of them taken from [allowed]. *)
Inductive reachable (allowed : op -> Prop) : KB -> Prop :=
  | reachable_init : reachable allowed init
  | reachable_step w w' o fuel :
      reachable allowed w -> allowed o -> exec fuel o w = Ok w' ->
      reachable allowed w'.

(** * Reachability and acyclicity *)

(** [child_of w a c]: c is listed among the children of a. *)
Definition child_of (w : KB) (a c : addr) : Prop := c ∈ children (tm w a).

(** Terms reachable from [r] through child links; a traversal from the
    root sees exactly the terms [reach w obj]. *)
Definition reach (w : KB) (r : addr) : addr -> Prop := rtc (child_of w) r.

(** Child links strictly decrease a height: no cycle through children. *)
Definition acyclic_down (w : KB) (ht : addr -> nat) : Prop :=
  forall a c, c ∈ children (tm w a) -> ht c < ht a.

(** Parent links strictly decrease a depth: no cycle through parents. *)
Definition acyclic_up (w : KB) (dp : addr -> nat) : Prop :=
  forall a p, p ∈ parents (tm w a) -> dp p < dp a.

(** What a name can resolve to below [a]: the alias table is applied once
    at [a] and once more at every level further down. *)
Inductive findable (w : KB) : addr -> string -> addr -> Prop :=
  | findable_here a nm :
      name (tm w a) = resolve (aliases w) nm -> findable w a nm a
  | findable_below a nm c b :
      c ∈ children (tm w a) ->
      findable w c (resolve (aliases w) nm) b ->
      findable w a nm b.


(** * Scenarios *)

(** A session: the operations run one after the other. *)
Definition session (fuel : nat) (ops : list op) (w : KB) : result KB :=
  for_each (exec fuel) ops w.

(** Scenario 1 of the specification. *)
Definition scenario1 (fuel : nat) : result KB :=
  session fuel [OpAddRelationship "dog" "mammal";
                OpAddRelationship "mammal" "animal";
                OpAddRelationship "dog" "animal"] init.

(** One term [a] directly under the root. *)
Definition kb_one_child (fuel : nat) : result KB :=
  session fuel [OpAddRelationship "a" "object"] init.

(** An edge between a parent P and a child C, as both ends record it. *)
Definition has_edge (w : KB) (P C : addr) : Prop :=
  C ∈ children (tm w P) /\ P ∈ parents (tm w C).

(** What the argument of remove_child / remove_parent denotes: a Term
    passed as such, or the term a name is looked up to. *)
Definition denotes (fuel : nat) (w : KB) (arg : string + addr) (a : addr) : Prop :=
  match arg with
  | inl nm => traverse fuel w obj nm = Ok (Some a)
  | inr b => b = a
  end.

(** Two siblings g1 and g2 under the root, p under both, t under p. *)
Definition diamond (fuel : nat) : result KB :=
  session fuel [OpAddRelationship "g1" "object";
                OpAddRelationship "g2" "object";
                OpAddRelationship "p" "g1";
                OpAddRelationship "p" "g2";
                OpAddRelationship "t" "p"] init.

Definition kb_diamond : KB :=
  Eval vm_compute in match diamond 40 with Ok w => w | _ => init end.

(** What the specification asks of list_terms: the names of the terms
    reachable from the root, each once. *)
Definition lists_reachable_names (w : KB) (ts : list string) : Prop :=
  NoDup ts /\ forall s, s ∈ ts <-> exists b, reach w obj b /\ name (tm w b) = s.

(** * Ancestry, as the specification words it *)

(** The spine of a nested ancestry list: its head, then the spine of its
    element 1, which is how prune_tree walks it ([parent2 = parent2[1]]). *)
Fixpoint spine (a : anode) : list string :=
  match a with
  | ANode nm [] => [nm]
  | ANode nm (next :: _) => nm :: spine next
  end.

(** Every name written in a nested ancestry list, left to right. *)
Fixpoint flatten (a : anode) : list string :=
  match a with
  | ANode nm subs =>
    nm :: (fix go (l : list anode) : list string :=
             match l with
             | [] => []
             | x :: l' => flatten x ++ go l'
             end) subs
  end.

(** Specification, section 4.1: the chain that starts at a term and
    continues by always following the first recorded parent. *)
Fixpoint first_parent_chain (fuel : nat) (w : KB) (p : addr) : result (list string) :=
  match fuel with
  | 0 => OutOfFuel
  | S f =>
    match parents (tm w p) with
    | [] => Ok [name (tm w p)]
    | q :: _ => rest ← first_parent_chain f w q; Ok (name (tm w p) :: rest)
    end
  end.

(** Specification, section 4.1: ancestry (T) is one such chain per direct
    parent of T. *)
Definition spec_ancestry (fuel : nat) (w : KB) (t : addr) : result (list (list string)) :=
  for_each (fun p chains => c ← first_parent_chain fuel w p; Ok (chains ++ [c]))
           (parents (tm w t)) [].

(** The names each entry of get_ancestry lists. *)
Definition ancestry_names (fuel : nat) (w : KB) (t : addr) : result (list (list string)) :=
  l ← get_ancestry fuel w t; Ok (map flatten l).

(** * The rename pass *)

(** Same terms, same links, same alias table. *)
Definition same_links (w w' : KB) : Prop :=
  length (heap w') = length (heap w) /\ aliases w' = aliases w /\
  forall a, children (tm w' a) = children (tm w a) /\
            parents (tm w' a) = parents (tm w a).

(** [w'] is [w] with the name of every term [a] taken [k a] steps through
    the alias table. *)
Definition renamed (w w' : KB) (k : addr -> nat) : Prop :=
  same_links w w' /\
  forall a, name (tm w' a) = Nat.iter (k a) (resolve (aliases w)) (name (tm w a)).


(** * The root term *)

(** The root is named object, has no parents, and no other term the
    program created bears that name. *)
Definition root_invariant (w : KB) : Prop :=
  name (tm w obj) = "object" /\
  parents (tm w obj) = [] /\
  forall a, a < length (heap w) -> name (tm w a) = "object" -> a = obj.

(** Operations that do not name the root out of place: [object] is not
    the child of a new relationship, nor the alias or the target of an
    alias declaration. *)
Definition spares_root (o : op) : Prop :=
  match o with
  | OpAddRelationship x _ => x ≠ "object"
  | OpDeclareAlias alias true_name => alias ≠ "object" /\ true_name ≠ "object"
  | _ => True
  end.

(** Every operation is allowed. *)
Definition any_op (o : op) : Prop := True.

(** [w'] is [w] with some links removed: same terms, same names, same
    alias table. *)
Definition shrinks (w w' : KB) : Prop :=
  length (heap w') = length (heap w) /\ aliases w' = aliases w /\
  forall a, name (tm w' a) = name (tm w a) /\
            children (tm w' a) `sublist_of` children (tm w a) /\
            parents (tm w' a) `sublist_of` parents (tm w a).

(** The root invariant together with what keeps it: the arena is not
    empty and [object] is neither a key nor a value of the alias table. *)
Definition root_safe (w : KB) : Prop :=
  root_invariant w /\ 0 < length (heap w) /\
  forall key v, aliases w !! key = Some v -> key ≠ "object" /\ v ≠ "object".

(** * Failing sessions *)

(** Three chained aliases a -> b -> c -> d declared before any of the
    names is a term, then the term c created under the root, then
    "a is a kind of y". *)
Definition chained_alias_session (fuel : nat) : result KB :=
  session fuel [OpDeclareAlias "c" "d";
                OpDeclareAlias "b" "c";
                OpDeclareAlias "a" "b";
                OpAddRelationship "c" "object";
                OpAddRelationship "a" "y"] init.

(** The alias y declared for a name that is no term. *)
Definition dangling_alias_session (fuel : nat) : result KB :=
  session fuel [OpDeclareAlias "y" "t"] init.

(** Chained aliases n -> k -> x -> t, the term x created under the root
    (it keeps the alias key x as its name, t being unknown), m under x
    (x is found through n), d under m. *)
Definition alias_key_term_session (fuel : nat) : result KB :=
  session fuel [OpDeclareAlias "x" "t";
                OpDeclareAlias "k" "x";
                OpDeclareAlias "n" "k";
                OpAddRelationship "x" "object";
                OpAddRelationship "m" "n";
                OpAddRelationship "d" "m"] init.



(** Specification, section 8, pruning minimality: no first-parent chain
    of a direct parent of [t] is a strict suffix of the chain of another
    direct parent. *)
Definition strict_suffix (s l : list string) : Prop :=
  exists pre, pre ≠ [] /\ l = pre ++ s.

Definition minimal_at (fuel : nat) (w : KB) (t : addr) : Prop :=
  forall chains, spec_ancestry fuel w t = Ok chains ->
  forall c1 c2, c1 ∈ chains -> c2 ∈ chains -> ~ strict_suffix c1 c2.

(** The state in which "object is a kind of y" (y unknown) calls the
    pruning pass: the new term y under the root, and the root linked
    under y in both directions. *)
Definition kb_root_under_child : KB :=
  mkKB [mkTerm "object" [1] [1]; mkTerm "y" [0] [0]] ∅ []
       ["WARNING: Parent object y does not exist.";
        "Creating new parent object and linking to object."].

(** No term lists a child or a parent twice, and every listed term is in
    the arena. *)
Definition well_linked (w : KB) : Prop :=
  0 < length (heap w) /\
  forall a,
    NoDup (children (tm w a)) /\ NoDup (parents (tm w a)) /\
    (forall c, c ∈ children (tm w a) -> c < length (heap w)) /\
    (forall p, p ∈ parents (tm w a) -> p < length (heap w)).

(** A recursion budget that suffices for the pruning pass below a term
    of height [h], on a graph of depth at most [D] whose terms have at
    most [K] children. *)
Definition prune_budget (ht : addr -> nat) (D K h : nat) : nat :=
  D `max` ht obj + K + 2 + h * (K + 2).

(** * Printing the tree, the database file and the command loop *)

(** ** Term.print_tree *)

(** One line for the term, then the subtree of every child one level
    deeper.  The second line form is a bar, [recur_depth] spaces, a
    backslash and a dash, and the name. *)
Definition tree_line (nm : string) (recur_depth : nat) : string :=
  if decide (nm = "object") then "OBJECT"
  else "|" +:+ spaces recur_depth +:+ "\-" +:+ nm.

Fixpoint print_tree (fuel : nat) (self : addr) (recur_depth : nat) (w : KB)
  : result KB :=
  match fuel with
  | 0 => OutOfFuel
  | S f =>
    let w1 := print (tree_line (name (tm w self)) recur_depth) w in
    for_each (fun child => print_tree f child (S recur_depth))
             (children (tm w1 self)) w1
  end.

(** ** Text files *)

(** The character 10. *)
Definition newline : Stdlib.Strings.Ascii.ascii :=
  Eval cbv in Stdlib.Strings.Ascii.ascii_of_nat 10.

(** [print >> file, ...]: the text and a newline appended to the file. *)
Definition write_line (file line : string) : string :=
  file +:+ line +:+ String newline "".

(** [f.readlines ()]: the content cut after every newline; each line
    keeps its newline, and a last line without one is a line too. *)
Fixpoint readlines_from (cur s : string) : list string :=
  match s with
  | "" => if decide (cur = "") then [] else [cur]
  | String c s' =>
    if decide (c = newline) then (cur +:+ String c "") :: readlines_from "" s'
    else readlines_from (cur +:+ String c "") s'
  end.

Definition readlines (s : string) : list string := readlines_from "" s.

(** ** Term.save_tree and save_aliases *)

(** [for parent in self.parents: if (self, parent) not in in_list: ...]:
    pairs of Term objects compare by the identity of their members. *)
Definition link_line (w : KB) (self parent : addr) : string :=
  name (tm w self) +:+ " is a kind of " +:+ name (tm w parent).

Definition save_links (w : KB) (self : addr) (st : string * list (addr * addr))
  : string * list (addr * addr) :=
  foldl (fun '(file, in_list) parent =>
           if bool_decide ((self, parent) ∈ in_list) then (file, in_list)
           else (write_line file (link_line w self parent),
                 in_list ++ [(self, parent)]))
        st (parents (tm w self)).

(** The list [in_list] is one object handed down and back up through
    the whole walk. *)
Fixpoint save_tree (fuel : nat) (w : KB) (self : addr)
  (st : string * list (addr * addr)) : result (string * list (addr * addr)) :=
  match fuel with
  | 0 => OutOfFuel
  | S f => for_each (save_tree f w) (children (tm w self)) (save_links w self st)
  end.

(** [for alias in aliases.keys (): print >> f, alias, "is an alias for",
    aliases[alias]], in the order in which the map enumerates its keys
    (see [alias_keys]). *)
Definition alias_line (alias true_name : string) : string :=
  alias +:+ " is an alias for " +:+ true_name.

Definition save_aliases (w : KB) (file : string) : string :=
  foldl (fun file '(alias, true_name) => write_line file (alias_line alias true_name))
        file (map_to_list (aliases w)).

(** ** The regular expressions of the command loop *)

(** The three patterns are made of literal text and of named groups
    [(?P<name>.+)]. *)
Inductive item :=
  | Lit (text : string)
  | Group (gname : string).

(** Literal text at the start of [s]: what follows it, if it is there. *)
Fixpoint strip_prefix (text s : string) : option string :=
  match text, s with
  | "", _ => Some s
  | String a text', String b s' =>
    if decide (a = b) then strip_prefix text' s' else None
  | String _ _, "" => None
  end.

(** [.+]: one or more characters other than a newline.  The group takes
    as many as it can and gives them back one at a time for as long as
    the rest of the pattern, [k], does not match what follows.  [taken]
    is what the group holds so far. *)
Fixpoint dot_plus {R : Type} (k : string -> string -> option R) (taken s : string)
  : option R :=
  let stop := if decide (taken = "") then None else k taken s in
  match s with
  | "" => stop
  | String c s' =>
    if decide (c = newline) then stop
    else match dot_plus k (taken +:+ String c "") s' with
         | Some r => Some r
         | None => stop
         end
  end.

(** The match of a pattern at the start of [s]: the text of each group,
    last group first. *)
Fixpoint match_items (items : list item) (s : string) (groups : list (string * string))
  : option (list (string * string)) :=
  match items with
  | [] => Some groups
  | Lit text :: rest =>
    match strip_prefix text s with
    | Some s' => match_items rest s' groups
    | None => None
    end
  | Group g :: rest =>
    dot_plus (fun taken s' => match_items rest s' ((g, taken) :: groups)) "" s
  end.

(** [pattern.match (s)]: anchored at the start of [s], not at its end. *)
Definition re_match (pattern : list item) (s : string) : option (list (string * string)) :=
  match_items pattern s [].

(** [m.group (g)] *)
Fixpoint group (m : list (string * string)) (g : string) : string :=
  match m with
  | [] => ""
  | (g', v) :: m' => if decide (g' = g) then v else group m' g
  end.

(** [(?P<x>.+) is a kind of (?P<y>.+)] *)
Definition kore : list item := [Group "x"; Lit " is a kind of "; Group "y"].

(** [what is (?P<item>.+)\?] *)
Definition wire : list item := [Lit "what is "; Group "item"; Lit "?"].

(** [(?P<alias>.+) is an alias for (?P<true_name>.+)] *)
Definition aare : list item :=
  [Group "alias"; Lit " is an alias for "; Group "true_name"].

(** ** The program state around the knowledge base *)

Record World := mkWorld {
  kb : KB;
  save_tree_default : list (addr * addr);  (* the default [in_list=[]] of save_tree *)
  knowledge_db : option string             (* the file knowledge.db, if it exists *)
}.

Definition set_kb (w : KB) (W : World) : World :=
  mkWorld w (save_tree_default W) (knowledge_db W).

(** Exceptions nothing catches end the program. *)
Inductive fatal :=
  | Fatal (e : exn)
  | IOError     (* open for reading of a file that does not exist *)
  | EOFError    (* raw_input at the end of the input *).

Inductive run (A : Type) :=
  | Ran (a : A)
  | Dies (e : fatal)
  | Overflows.
Arguments Ran {A} a.
Arguments Dies {A} e.
Arguments Overflows {A}.

Global Instance run_ret : MRet run := fun A a => Ran a.
Global Instance run_bind : MBind run := fun A B f m =>
  match m with
  | Ran a => f a
  | Dies e => Dies e
  | Overflows => Overflows
  end.

Definition lift {A : Type} (r : result A) : run A :=
  match r with
  | Ok a => Ran a
  | Raise e => Dies (Fatal e)
  | OutOfFuel => Overflows
  end.

(** ** The commands save and load *)

(** [with open ("knowledge.db", "w") as f: obj.save_tree (f);
    save_aliases (f)]: the file is emptied, then written. *)
Definition save (fuel : nat) (W : World) : run World :=
  '(file, in_list) ← lift (save_tree fuel (kb W) obj ("", save_tree_default W));
  Ran (mkWorld (kb W) in_list (Some (save_aliases (kb W) file))).

(** [for line in f.readlines (): km = kore.match (line);
     if km: add_kind_of (km.group ('x'), km.group ('y'))] *)
Definition load_relationships (fuel : nat) (lines : list string) (w : KB) : result KB :=
  for_each (fun line w =>
              match re_match kore line with
              | Some km => add_kind_of fuel (group km "x") (group km "y") w
              | None => Ok w
              end) lines w.

(** [f.seek (0)], then for every line that matches, [make_alias]
    followed by [obj.update_names ()]. *)
Definition load_aliases (fuel : nat) (file : string) (w : KB) : result KB :=
  for_each (fun line w =>
              match re_match aare line with
              | Some aa => declare_alias fuel (group aa "alias") (group aa "true_name") w
              | None => Ok w
              end) (readlines file) w.

Section command_loop.

(** The text [print aliases] writes for the dict. *)
Variable dict_repr : gmap string string -> string.

Definition load (fuel : nat) (W : World) : run World :=
  match knowledge_db W with
  | None => Dies IOError
  | Some file =>
    w1 ← lift (load_relationships fuel (readlines file) (kb W));
    w2 ← lift (load_aliases fuel file w1);
    w3 ← lift (prune_tree fuel obj w2);
    w4 ← lift (print_tree fuel obj 0 w3);
    Ran (set_kb (print (dict_repr (aliases w4)) w4) W)
  end.

(** [", ".join (l)] *)
Fixpoint join (sep : string) (l : list string) : string :=
  match l with
  | [] => ""
  | [s] => s
  | s :: l' => s +:+ sep +:+ join sep l'
  end.

(** What the loop prints before it reads a command. *)
Definition banner (fuel : nat) (w : KB) : result KB :=
  let w1 := print "" w in
  let w2 := print "Type X is a kind of Y to create a relationship." w1 in
  let w3 := print "Type X is an alias for Y to create an alias." w2 in
  let w4 := print "Type what is Y? to query relationships." w3 in
  let w5 := print "Type quit to quit, save to save knowledge and load to load it." w4 in
  let w6 := print "" w5 in
  let w7 := print "I know about:" w6 in
  '(terms, w8) ← get_terms fuel w7;
  Ok (print "" (print (join ", " terms) w8)).

(** The body of the loop after [command = raw_input ("> ")]: the three
    patterns are tried one after the other, each on its own, then the
    command words.  The value is [running]. *)
Definition command_step (fuel : nat) (command : string) (W : World)
  : run (bool * World) :=
  w1 ← lift (match re_match kore command with
             | Some km =>
               w ← add_kind_of fuel (group km "x") (group km "y") (kb W);
               print_tree fuel obj 0 w
             | None => Ok (kb W)
             end);
  w2 ← lift (match re_match aare command with
             | Some aa =>
               w ← declare_alias fuel (group aa "alias") (group aa "true_name") w1;
               print_tree fuel obj 0 w
             | None => Ok w1
             end);
  w3 ← lift (match re_match wire command with
             | Some wi => what_is fuel (group wi "item") w2
             | None => Ok w2
             end);
  let W3 := set_kb w3 W in
  if decide (command = "quit") then Ran (false, W3)
  else if decide (command = "save") then W4 ← save fuel W3; Ran (true, W4)
  else if decide (command = "load") then W4 ← load fuel W3; Ran (true, W4)
  else Ran (true, W3).

(** [while running: ...], on the lines the user types.  The prompt of
    raw_input is no line of its own and is left out of the console;
    raw_input raises EOFError when the input is used up. *)
Fixpoint main_loop (fuel : nat) (input : list string) (W : World) : run World :=
  match input with
  | [] => w ← lift (banner fuel (kb W)); Dies EOFError
  | command :: input' =>
    w ← lift (banner fuel (kb W));
    '(running, W1) ← command_step fuel command (set_kb w W);
    if running : bool then main_loop fuel input' W1 else Ran W1
  end.

End command_loop.

(** The program as it starts: the initial knowledge base, and whatever
    file the directory holds. *)
Definition start (db : option string) : World := mkWorld init [] db.

(** * Notions used by the further properties *)

(** [parent_of w a p]: p is listed among the parents of a. *)
Definition parent_of (w : KB) (a p : addr) : Prop := p ∈ parents (tm w a).

(** [w'] is [w] with lines added to the console and nothing else
    changed. *)
Definition only_prints (w w' : KB) : Prop :=
  heap w' = heap w /\ aliases w' = aliases w /\
  list_reduce_default w' = list_reduce_default w /\
  stdout w `prefix_of` stdout w'.

(** No alias stands for a name that is itself an alias. *)
Definition flat_aliases (w : KB) : Prop :=
  forall key v, aliases w !! key = Some v -> aliases w !! v = None.

(** The state after "a is a kind of object", a listing of the terms,
    and [obj.remove_child ("a")]: a is no longer reachable, and the list
    that list_reduce appends to still holds it. *)
Definition kb_after_removal : KB :=
  Eval vm_compute in
    match session 10 [OpAddRelationship "a" "object"; OpListTerms;
                      OpRemoveChild obj (inl "a")] init with
    | Ok w => w
    | _ => init
    end.

(** [w'] keeps the alias table and, under its name, every term of [w];
    it may hold more terms and other links. *)
Definition keeps_names (w w' : KB) : Prop :=
  aliases w' = aliases w /\ length (heap w) <= length (heap w') /\
  forall a, a < length (heap w) -> name (tm w' a) = name (tm w a).

(** The diamond with t linked directly under g1 as well. *)
Definition kb_shortcut : KB :=
  mkKB [mkTerm "object" [1; 2] [];
        mkTerm "g1" [3; 4] [0];
        mkTerm "g2" [3] [0];
        mkTerm "p" [4] [1; 2];
        mkTerm "t" [] [3; 1]] ∅ [] [].

(** The diamond with an alias table that takes p to pp, before any
    rename pass. *)
Definition kb_diamond_alias : KB :=
  mkKB (heap kb_diamond) {["p" := "pp"]} [] [].

(** [w] with more lines on the console. *)
Definition printed (w : KB) (lines : list string) : KB :=
  mkKB (heap w) (aliases w) (list_reduce_default w) (stdout w ++ lines).

(** The file with one relationship line more for every pair of
    [links], in that order. *)
Definition write_links (w : KB) (file : string) (links : list (addr * addr)) : string :=
  foldl (fun file '(a, p) => write_line file (link_line w a p)) file links.

(** ** Text without a newline, text inside a text *)

Fixpoint no_newline (s : string) : bool :=
  match s with
  | "" => true
  | String c s' => negb (bool_decide (c = newline)) && no_newline s'
  end.

(** Where a line ends: at the end of the text, or before a newline. *)
Definition line_end (rest : string) : bool :=
  match rest with
  | "" => true
  | String c _ => bool_decide (c = newline)
  end.

Fixpoint is_prefix (p s : string) : bool :=
  match p, s with
  | "", _ => true
  | String a p', String b s' => bool_decide (a = b) && is_prefix p' s'
  | String _ _, "" => false
  end.

(** [sub] occurs somewhere in [s]. *)
Fixpoint contains (sub s : string) : bool :=
  is_prefix sub s ||
  match s with
  | "" => false
  | String _ s' => contains sub s'
  end.

(** A name a command can carry: not empty, on one line. *)
Definition plain (s : string) : Prop := s ≠ "" /\ no_newline s = true.

(** A plain name that holds neither of the two phrases the commands
    are recognised by. *)
Definition simple (s : string) : Prop :=
  plain s /\ contains "is a kind of" s = false /\ contains "is an alias for" s = false.

(** The text of a file that holds the given lines, each followed by a
    newline. *)
Fixpoint unlines (lines : list string) : string :=
  match lines with
  | [] => ""
  | l :: ls => l +:+ String newline (unlines ls)
  end.

(** Every term has at most one parent. *)
Definition forest (w : KB) : Prop := forall a, length (parents (tm w a)) <= 1.

(** The number of names in a nested ancestry list. *)
Fixpoint anode_size (a : anode) : nat :=
  match a with
  | ANode _ subs =>
    S ((fix go (l : list anode) : nat :=
          match l with
          | [] => 0
          | x :: l' => anode_size x + go l'
          end) subs)
  end.

(** [w] with a new term named [x] linked under the term [s], in both
    directions. *)
Definition with_new_leaf (x : string) (s : addr) (w : KB) : KB :=
  set_parents (length (heap w)) [s]
    (set_children s (children (tm w s) ++ [length (heap w)]) (alloc x w).2).

(** Dog under mammal under animal under the root: the state scenario 1
    ends in. *)
Definition kb_chain : KB :=
  Eval vm_compute in match scenario1 40 with Ok w => w | _ => init end.
(** * Basic facts *)

Section monad.
Context {A B : Type}.

Lemma bind_Ok (m : result A) (f : A -> result B) (b : B) :
  m ≫= f = Ok b -> exists a, m = Ok a /\ f a = Ok b.
Proof. destruct m; simpl; intros; eauto; discriminate. Qed.

End monad.

(** [inv_bind H] splits a successful sequence into its steps. *)
Ltac inv_bind H :=
  let a := fresh "r" in
  let H1 := fresh H "a" in
  let H2 := fresh H "b" in
  apply bind_Ok in H; destruct H as (a & H1 & H2).

Section heap_facts.
Implicit Types (w : KB) (a b : addr) (t : Term).

Lemma tm_upd a t w b :
  tm (upd a t w) b =
  if decide (a = b /\ a < length (heap w)) then t else tm w b.
Proof.
  unfold tm, upd; simpl.
  destruct (decide (a = b /\ a < length (heap w))) as [[-> Hlt]|Hn].
  - by rewrite list_lookup_insert_eq.
  - destruct (decide (a = b)) as [->|Hne].
    + rewrite list_insert_ge; [done|]. lia.
    + by rewrite list_lookup_insert_ne.
Qed.

Lemma tm_out_of_range w a : length (heap w) <= a -> tm w a = new_Term "".
Proof.
  intros Hge. unfold tm. destruct (heap w !! a) eqn:E; [|done].
  apply lookup_lt_Some in E. lia.
Qed.

Lemma length_upd a t w : length (heap (upd a t w)) = length (heap w).
Proof. unfold upd; simpl. apply length_insert. Qed.

Lemma length_set_children a cs w :
  length (heap (set_children a cs w)) = length (heap w).
Proof. apply length_upd. Qed.

Lemma length_set_parents a ps w :
  length (heap (set_parents a ps w)) = length (heap w).
Proof. apply length_upd. Qed.

Lemma length_set_name a nm w :
  length (heap (set_name a nm w)) = length (heap w).
Proof. apply length_upd. Qed.

(** set_children *)
Lemma name_set_children a cs w b :
  name (tm (set_children a cs w) b) = name (tm w b).
Proof. unfold set_children. rewrite tm_upd. case_decide as H; [by destruct H as [-> _]|done]. Qed.

Lemma parents_set_children a cs w b :
  parents (tm (set_children a cs w) b) = parents (tm w b).
Proof. unfold set_children. rewrite tm_upd. case_decide as H; [by destruct H as [-> _]|done]. Qed.

Lemma children_set_children a cs w b :
  children (tm (set_children a cs w) b) =
  if decide (a = b /\ a < length (heap w)) then cs else children (tm w b).
Proof. unfold set_children. rewrite tm_upd. by case_decide. Qed.

(** set_parents *)
Lemma name_set_parents a ps w b :
  name (tm (set_parents a ps w) b) = name (tm w b).
Proof. unfold set_parents. rewrite tm_upd. case_decide as H; [by destruct H as [-> _]|done]. Qed.

Lemma children_set_parents a ps w b :
  children (tm (set_parents a ps w) b) = children (tm w b).
Proof. unfold set_parents. rewrite tm_upd. case_decide as H; [by destruct H as [-> _]|done]. Qed.

Lemma parents_set_parents a ps w b :
  parents (tm (set_parents a ps w) b) =
  if decide (a = b /\ a < length (heap w)) then ps else parents (tm w b).
Proof. unfold set_parents. rewrite tm_upd. by case_decide. Qed.

(** set_name *)
Lemma children_set_name a nm w b :
  children (tm (set_name a nm w) b) = children (tm w b).
Proof. unfold set_name. rewrite tm_upd. case_decide as H; [by destruct H as [-> _]|done]. Qed.

Lemma parents_set_name a nm w b :
  parents (tm (set_name a nm w) b) = parents (tm w b).
Proof. unfold set_name. rewrite tm_upd. case_decide as H; [by destruct H as [-> _]|done]. Qed.

Lemma name_set_name a nm w b :
  name (tm (set_name a nm w) b) =
  if decide (a = b /\ a < length (heap w)) then nm else name (tm w b).
Proof. unfold set_name. rewrite tm_upd. by case_decide. Qed.

Lemma tm_alloc_old nm w a :
  a < length (heap w) -> tm (alloc nm w).2 a = tm w a.
Proof. intros Hlt. unfold tm, alloc; simpl. by rewrite lookup_app_l. Qed.

Lemma tm_alloc_new nm w : tm (alloc nm w).2 (alloc nm w).1 = new_Term nm.
Proof.
  unfold tm, alloc; simpl.
  rewrite lookup_app_r; [|lia]. by rewrite Nat.sub_diag.
Qed.

Lemma tm_alloc nm w a :
  tm (alloc nm w).2 a =
  if decide (a = length (heap w)) then new_Term nm else tm w a.
Proof.
  case_decide as H.
  - subst a. apply tm_alloc_new.
  - destruct (decide (a < length (heap w))) as [Hlt|Hge].
    + by apply tm_alloc_old.
    + rewrite !tm_out_of_range; [done|lia|].
      unfold alloc; simpl. rewrite length_app; simpl. lia.
Qed.

Lemma length_alloc nm w : length (heap (alloc nm w).2) = S (length (heap w)).
Proof. unfold alloc; simpl. rewrite length_app; simpl. lia. Qed.
End heap_facts.

Lemma memb_true (x : addr) (l : list addr) : memb x l = true <-> x ∈ l.
Proof. unfold memb. by rewrite bool_decide_eq_true. Qed.

Lemma memb_false (x : addr) (l : list addr) : memb x l = false <-> x ∉ l.
Proof. unfold memb. by rewrite bool_decide_eq_false. Qed.

Lemma list_remove_first_subseteq (x : addr) (l : list addr) :
  list_remove_first x l ⊆ l.
Proof.
  induction l as [|y l IH]; simpl; [done|].
  case_decide; [set_solver|]. set_solver.
Qed.

Lemma list_remove_first_sublist (x : addr) (l : list addr) :
  list_remove_first x l `sublist_of` l.
Proof.
  induction l as [|y l IH]; simpl; [done|].
  case_decide; [by apply sublist_cons|by apply sublist_skip].
Qed.

Lemma list_remove_first_NoDup (x : addr) (l : list addr) :
  NoDup l -> NoDup (list_remove_first x l) /\ x ∉ list_remove_first x l.
Proof.
  induction 1 as [|y l Hy Hl IH]; simpl.
  - split; [constructor|set_solver].
  - case_decide as E.
    + subst y. done.
    + destruct IH as [IH1 IH2]. split.
      * constructor; [|done]. intros Hin. apply Hy.
        by apply (list_remove_first_subseteq x l).
      * set_solver.
Qed.

Section loops.
Context {A S B : Type}.

(** A loop invariant that every iteration maintains holds at the end. *)
Lemma for_each_inv (I : S -> Prop) (body : A -> S -> result S) (l : list A) :
  (forall x s s', x ∈ l -> I s -> body x s = Ok s' -> I s') ->
  forall s s', I s -> for_each body l s = Ok s' -> I s'.
Proof.
  induction l as [|x l IH]; intros Hbody s s' Hs Hrun; simpl in Hrun.
  - by inversion Hrun; subst.
  - inv_bind Hrun. eapply IH; [| |exact Hrunb].
    + intros y t t' Hy. apply Hbody. set_solver.
    + eapply Hbody; [|exact Hs|exact Hruna]. set_solver.
Qed.

(** A loop whose iterations all return, returns. *)
Lemma for_each_total (I : S -> Prop) (body : A -> S -> result S) (l : list A) :
  (forall x s, x ∈ l -> I s -> exists s', body x s = Ok s' /\ I s') ->
  forall s, I s -> exists s', for_each body l s = Ok s' /\ I s'.
Proof.
  induction l as [|x l IH]; intros Hbody s Hs; simpl.
  - eauto.
  - destruct (Hbody x s) as (s1 & -> & Hs1); [set_solver|done|]. simpl.
    apply IH; [|done]. intros y t Hy. apply Hbody. set_solver.
Qed.

Lemma first_found_Some (search : A -> result (option B)) (l : list A) (b : B) :
  first_found search l = Ok (Some b) ->
  exists x, x ∈ l /\ search x = Ok (Some b).
Proof.
  induction l as [|x l IH]; simpl; [discriminate|].
  destruct (search x) as [[b'|]| |] eqn:E; intros H; try discriminate.
  - exists x. split; [set_solver|]. congruence.
  - destruct (IH H) as (y & Hy & Hs). exists y. split; [set_solver|done].
Qed.

Lemma first_found_None (search : A -> result (option B)) (l : list A) :
  (forall x, x ∈ l -> search x = Ok None) -> first_found search l = Ok None.
Proof.
  induction l as [|x l IH]; intros H; simpl; [done|].
  rewrite (H x); [|set_solver]. apply IH. intros y Hy. apply H. set_solver.
Qed.

Lemma first_found_None_inv (search : A -> result (option B)) (l : list A) :
  first_found search l = Ok None -> forall x, x ∈ l -> search x = Ok None.
Proof.
  induction l as [|x l IH]; simpl; intros H y Hy; [set_solver|].
  destruct (search x) as [[b'|]| |] eqn:E; try discriminate.
  apply elem_of_cons in Hy as [->|Hy]; [done|]. by apply IH.
Qed.

Lemma first_found_total (search : A -> result (option B)) (l : list A) :
  (forall x, x ∈ l -> exists r, search x = Ok r) ->
  exists r, first_found search l = Ok r.
Proof.
  induction l as [|x l IH]; intros H; simpl; [eauto|].
  destruct (H x) as ([b|] & ->); [set_solver|eauto|].
  apply IH. intros y Hy. apply H. set_solver.
Qed.

Lemma first_found_mono (search search' : A -> result (option B)) (l : list A) r :
  (forall x r, x ∈ l -> search x = Ok r -> search' x = Ok r) ->
  first_found search l = Ok r -> first_found search' l = Ok r.
Proof.
  induction l as [|x l IH]; intros H; simpl; [done|].
  destruct (search x) as [[b|]| |] eqn:E; intros Hr; try discriminate.
  - rewrite (H x (Some b)); [done|set_solver|done].
  - rewrite (H x None); [|set_solver|done]. apply IH; [|done].
    intros y ry Hy. apply H. set_solver.
Qed.
End loops.

(** * Term.traverse: lookup by name *)

Section traverse_facts.
Variable w : KB.

(** More fuel does not change an answer. *)
Lemma traverse_mono fuel fuel' a nm r :
  fuel <= fuel' -> traverse fuel w a nm = Ok r -> traverse fuel' w a nm = Ok r.
Proof.
  revert fuel' a nm r. induction fuel as [|f IH]; intros fuel' a nm r Hle; [done|].
  destruct fuel' as [|f']; [lia|]. simpl.
  case_decide; [done|].
  apply first_found_mono. intros c rc _. apply IH. lia.
Qed.

(** A term that is found is reachable, and carries the name after one
    alias step per level descended. *)
Lemma traverse_sound fuel a nm b :
  traverse fuel w a nm = Ok (Some b) ->
  reach w a b /\ findable w a nm b /\
  exists k, 1 <= k /\ name (tm w b) = Nat.iter k (resolve (aliases w)) nm.
Proof.
  revert a nm. induction fuel as [|f IH]; intros a nm; [done|]. simpl.
  case_decide as E.
  - intros [= <-]. split; [apply rtc_refl|]. split; [by constructor|].
    exists 1. by split.
  - intros H. apply first_found_Some in H as (c & Hc & H).
    apply IH in H as (Hr & Hf & k & Hk & Hn). split; [|split].
    + eapply rtc_l; [exact Hc|exact Hr].
    + eapply findable_below; eauto.
    + exists (S k). split; [lia|]. rewrite Hn. by rewrite Nat.iter_succ_r.
Qed.

Variable ht : addr -> nat.
Hypothesis Hacyc : acyclic_down w ht.

(** On a graph without cycles the search returns. *)
Lemma traverse_total fuel a nm :
  ht a < fuel -> exists r, traverse fuel w a nm = Ok r.
Proof.
  revert a nm. induction fuel as [|f IH]; intros a nm Hlt; [lia|]. simpl.
  case_decide; [eauto|].
  apply first_found_total. intros c Hc. apply IH.
  specialize (Hacyc a c Hc). lia.
Qed.

(** A name that nothing below [a] answers to is reported as None. *)
Lemma traverse_not_found fuel a nm :
  ht a < fuel -> (forall b, ~ findable w a nm b) ->
  traverse fuel w a nm = Ok None.
Proof.
  revert a nm. induction fuel as [|f IH]; intros a nm Hlt Hnf; [lia|]. simpl.
  case_decide as E.
  - exfalso. apply (Hnf a). by constructor.
  - apply first_found_None. intros c Hc. apply IH.
    + specialize (Hacyc a c Hc). lia.
    + intros b Hb. apply (Hnf b). eapply findable_below; eauto.
Qed.

(** Conversely, a name that something below [a] answers to is found. *)
Lemma traverse_found fuel a nm b :
  ht a < fuel -> findable w a nm b ->
  exists b', traverse fuel w a nm = Ok (Some b').
Proof.
  intros Hlt Hf. destruct (traverse_total fuel a nm Hlt) as ([b'|] & Hr); [eauto|].
  exfalso. revert fuel Hlt Hr.
  induction Hf as [a nm Hn|a nm c b Hc Hf IH]; intros [|f] Hlt; try lia; simpl.
  - by rewrite decide_True.
  - case_decide; [done|]. intros Hr.
    eapply (IH f).
    + specialize (Hacyc a c Hc). lia.
    + exact (first_found_None_inv _ _ Hr c Hc).
Qed.
End traverse_facts.

(** * Scenario 1: the redundant direct edge is pruned *)

(** C1: from the initial knowledge base, adding dog under mammal, mammal
    under animal and then dog under animal leaves dog (term 1) with the
    single parent mammal (term 2), and animal (term 3) with the single
    child mammal.  The third call does insert the direct dog-animal edge
    (the graph [linked]); the pruning pass it then runs from the root
    removes that edge again. *)
Theorem scenario1_prunes_direct_edge (f : nat) :
  exists w2 w,
    session (20 + f) [OpAddRelationship "dog" "mammal";
                      OpAddRelationship "mammal" "animal"] init = Ok w2 /\
    scenario1 (20 + f) = Ok w /\
    (let linked := set_parents 1 (parents (tm w2 1) ++ [3])
                     (set_children 3 (children (tm w2 3) ++ [1]) w2) in
     has_edge linked 3 1 /\ prune_tree (19 + f) obj linked = Ok w) /\
    heap w = [mkTerm "object" [3] [];
              mkTerm "dog" [] [2];
              mkTerm "mammal" [1] [3];
              mkTerm "animal" [2] [0]] /\
    parents (tm w 1) = [2] /\ name (tm w 2) = "mammal" /\
    1 ∉ children (tm w 3).
Proof.
  eexists. eexists. split; [vm_compute; reflexivity|].
  split; [vm_compute; reflexivity|].
  split; [split; [split; vm_compute; set_solver|vm_compute; reflexivity]|].
  split; [reflexivity|]. split; [reflexivity|]. split; [reflexivity|].
  simpl. set_solver.
Qed.


(** * Unlinking an edge *)

Section unlink.
Implicit Types (w : KB) (P C : addr).

Lemma children_unlink_child w P C b :
  children (tm (unlink_child P C w) b) =
  if decide (P = b /\ P < length (heap w))
  then list_remove_first C (children (tm w b))
  else children (tm w b).
Proof.
  unfold unlink_child. destruct (memb C (children (tm w P))) eqn:E.
  - rewrite children_set_children. case_decide as H; [|done]. by destruct H as [-> _].
  - case_decide as H; [|done]. destruct H as [-> _].
    apply memb_false in E. clear -E.
    induction (children (tm w b)) as [|y l IH]; simpl; [done|].
    case_decide; [set_solver|]. f_equal. apply IH. set_solver.
Qed.

Lemma parents_unlink_child w P C b :
  parents (tm (unlink_child P C w) b) = parents (tm w b).
Proof.
  unfold unlink_child. destruct (memb C _); [|done]. apply parents_set_children.
Qed.

Lemma name_unlink_child w P C b :
  name (tm (unlink_child P C w) b) = name (tm w b).
Proof.
  unfold unlink_child. destruct (memb C _); [|done]. apply name_set_children.
Qed.

Lemma length_unlink_child w P C :
  length (heap (unlink_child P C w)) = length (heap w).
Proof. unfold unlink_child. destruct (memb C _); [|done]. apply length_set_children. Qed.

Lemma children_unlink_parent w C P b :
  children (tm (unlink_parent C P w) b) =
  if decide (P ∈ parents (tm w C) /\ P = b /\ P < length (heap w))
  then list_remove_first C (children (tm w b))
  else children (tm w b).
Proof.
  unfold unlink_parent. destruct (memb P (parents (tm w C))) eqn:E.
  - apply memb_true in E. rewrite children_set_parents, children_unlink_child.
    repeat case_decide; tauto.
  - apply memb_false in E. case_decide; tauto.
Qed.

Lemma parents_unlink_parent w C P b :
  parents (tm (unlink_parent C P w) b) =
  if decide (P ∈ parents (tm w C) /\ C = b /\ C < length (heap w))
  then list_remove_first P (parents (tm w b))
  else parents (tm w b).
Proof.
  unfold unlink_parent. destruct (memb P (parents (tm w C))) eqn:E.
  - apply memb_true in E.
    rewrite parents_set_parents, length_unlink_child, !parents_unlink_child.
    repeat case_decide; try tauto. by destruct H as [-> _].
  - apply memb_false in E. case_decide; tauto.
Qed.

Lemma name_unlink_parent w C P b :
  name (tm (unlink_parent C P w) b) = name (tm w b).
Proof.
  unfold unlink_parent. destruct (memb P _); [|done].
  by rewrite name_set_parents, name_unlink_child.
Qed.

Lemma length_unlink_parent w C P :
  length (heap (unlink_parent C P w)) = length (heap w).
Proof.
  unfold unlink_parent. destruct (memb P _); [|done].
  by rewrite length_set_parents, length_unlink_child.
Qed.

Lemma remove_child_denotes fuel w P arg C :
  denotes fuel w arg C -> remove_child fuel P arg w = Ok (unlink_child P C w).
Proof. destruct arg as [nm|b]; simpl; [intros ->|intros ->]; reflexivity. Qed.

Lemma remove_parent_denotes fuel w C arg P :
  denotes fuel w arg P -> remove_parent fuel C arg w = Ok (unlink_parent C P w).
Proof. destruct arg as [nm|b]; simpl; [intros ->|intros ->]; reflexivity. Qed.

End unlink.

(** * Term.list_reduce and get_terms *)

Lemma reach_unfold (w : KB) (a b : addr) :
  reach w a b <-> b = a \/ exists c, c ∈ children (tm w a) /\ reach w c b.
Proof.
  split.
  - intros H. destruct H as [|a c b Hc Hr]; [by left|]. right. by exists c.
  - intros [->|(c & Hc & Hr)]; [apply rtc_refl|]. eapply rtc_l; [exact Hc|exact Hr].
Qed.

Section list_reduce_facts.
Variable w : KB.
Variable ht : addr -> nat.
Hypothesis Hacyc : acyclic_down w ht.

(** The walk appends, in first-visit order, the terms below [self] that
    the accumulator does not hold yet. *)
Lemma list_reduce_spec (fuel : nat) (self : addr) (acc : list addr) :
  ht self < fuel -> NoDup acc ->
  exists acc', list_reduce fuel w self acc = Ok acc' /\ NoDup acc' /\
    forall b, b ∈ acc' <-> b ∈ acc \/ reach w self b.
Proof.
  revert self acc. induction fuel as [|f IH]; intros self acc Hlt Hnd; [lia|].
  simpl.
  set (acc1 := if memb self acc then acc else acc ++ [self]).
  assert (Hnd1 : NoDup acc1).
  { unfold acc1. destruct (memb self acc) eqn:E; [done|].
    apply memb_false in E. apply NoDup_app. split; [done|].
    split; [set_solver|apply NoDup_singleton]. }
  assert (Hin1 : forall b, b ∈ acc1 <-> b ∈ acc \/ b = self).
  { intros b. unfold acc1. destruct (memb self acc) eqn:E.
    - apply memb_true in E. set_solver.
    - set_solver. }
  assert (Hloop : forall cs acc0,
    (forall c, c ∈ cs -> ht c < f) -> NoDup acc0 ->
    exists acc', for_each (list_reduce f w) cs acc0 = Ok acc' /\ NoDup acc' /\
      forall b, b ∈ acc' <-> b ∈ acc0 \/ exists c, c ∈ cs /\ reach w c b).
  { induction cs as [|c cs IHcs]; intros acc0 Hcs Hnd0; simpl.
    - exists acc0. split; [done|]. split; [done|]. set_solver.
    - destruct (IH c acc0) as (acc2 & -> & Hnd2 & Hin2); [apply Hcs; set_solver|done|].
      simpl.
      destruct (IHcs acc2) as (acc3 & -> & Hnd3 & Hin3);
        [intros; apply Hcs; set_solver|done|].
      exists acc3. split; [done|]. split; [done|].
      intros b. rewrite Hin3, Hin2. split.
      + intros [[?|?]|(c' & ? & ?)]; [by left|right; exists c; set_solver|].
        right. exists c'. set_solver.
      + intros [?|(c' & Hc' & ?)]; [by left; left|].
        apply elem_of_cons in Hc' as [->|?]; [by left; right|].
        right. by exists c'. }
  destruct (Hloop (children (tm w self)) acc1) as (acc' & -> & Hnd' & Hin'); [|done|].
  { intros c Hc. specialize (Hacyc self c Hc). lia. }
  exists acc'. split; [done|]. split; [done|].
  intros b. rewrite Hin', Hin1, (reach_unfold w self b). tauto.
Qed.
End list_reduce_facts.

Lemma filter_ext_elem_of {A : Type} (P Q : A -> Prop)
  `{!forall x, Decision (P x)} `{!forall x, Decision (Q x)} (l : list A) :
  (forall x, x ∈ l -> P x <-> Q x) -> filter P l = filter Q l.
Proof.
  induction l as [|x l IH]; intros Hext; [done|].
  rewrite !filter_cons.
  assert (HPQ : P x <-> Q x) by (apply Hext; set_solver).
  rewrite IH by (intros y Hy; apply Hext; set_solver).
  repeat case_decide; tauto.
Qed.

(** Appending the keys that are missing, one by one, appends the missing
    keys. *)
Lemma append_missing (keys terms : list string) :
  NoDup keys ->
  foldl (fun terms alias =>
           if bool_decide (alias ∈ terms) then terms else terms ++ [alias])
        terms keys
  = terms ++ filter (fun k => k ∉ terms) keys.
Proof.
  revert terms. induction keys as [|k keys IH]; intros terms Hnd; simpl.
  - by rewrite app_nil_r.
  - apply NoDup_cons in Hnd as [Hk Hnd]. rewrite IH by done.
    rewrite filter_cons. case_bool_decide as E.
    + by rewrite decide_False by tauto.
    + rewrite decide_True by done. rewrite <- app_assoc. simpl. do 2 f_equal.
      apply filter_ext_elem_of. intros x Hx.
      rewrite elem_of_app, list_elem_of_singleton. split; [tauto|].
      intros Hn [?| ->]; tauto.
Qed.

(** C7 (amended): when the shared accumulator of list_reduce is still
    empty (the first call of a session), get_terms returns the name of
    every term reachable from the root, one entry per reachable term
    whatever the number of edges into it, followed by the alias keys
    that are not among those names; terms and aliases are left as they
    were. *)
Theorem get_terms_first_call (w : KB) (ht : addr -> nat) (fuel : nat) :
  acyclic_down w ht -> ht obj < fuel -> list_reduce_default w = [] ->
  exists nodes w',
    get_terms fuel w =
      Ok (((fun t => name (tm w t)) <$> nodes) ++
          filter (fun k => k ∉ (fun t => name (tm w t)) <$> nodes) (alias_keys w),
          w') /\
    NoDup nodes /\ (forall a, a ∈ nodes <-> reach w obj a) /\
    heap w' = heap w /\ aliases w' = aliases w.
Proof.
  intros Hacyc Hfuel Hdef.
  destruct (list_reduce_spec w ht Hacyc fuel obj [] Hfuel) as (nodes & Hrun & Hnd & Hin);
    [constructor|].
  exists nodes, (mkKB (heap w) (aliases w) nodes (stdout w)).
  unfold get_terms, list_reduce_noarg. rewrite Hdef, Hrun. simpl.
  split; [|split; [done|]; split; [|done]].
  - do 2 f_equal. apply append_missing.
    unfold alias_keys. apply NoDup_fst_map_to_list.
  - intros a. rewrite Hin. set_solver.
Qed.

(** Link facts on a concrete arena, term by term. *)
Ltac solve_links :=
  let a := fresh "a" in
  let c := fresh "c" in
  let Hc := fresh "Hc" in
  intros a c Hc;
  do 8 (try (destruct a as [|a]));
  vm_compute in Hc;
  repeat (apply elem_of_cons in Hc as [->|Hc]; [vm_compute; lia|]);
  by apply elem_of_nil in Hc.

Lemma diamond_runs (f : nat) : diamond (20 + f) = Ok kb_diamond.
Proof. vm_compute. reflexivity. Qed.

Lemma kb_diamond_acyclic_down : acyclic_down kb_diamond (fun a => 4 - a).
Proof. solve_links. Qed.

Lemma kb_diamond_acyclic_up : acyclic_up kb_diamond (fun a => a).
Proof. solve_links. Qed.

Lemma get_terms_first_call_witness :
  exists nodes w',
    get_terms 5 kb_diamond =
      Ok (((fun t => name (tm kb_diamond t)) <$> nodes) ++
          filter (fun k => k ∉ (fun t => name (tm kb_diamond t)) <$> nodes)
                 (alias_keys kb_diamond),
          w') /\
    NoDup nodes /\ (forall a, a ∈ nodes <-> reach kb_diamond obj a) /\
    heap w' = heap kb_diamond /\ aliases w' = aliases kb_diamond.
Proof.
  apply (get_terms_first_call kb_diamond (fun a => 4 - a) 5).
  - exact kb_diamond_acyclic_down.
  - simpl. lia.
  - reflexivity.
Defined.

Lemma reach_no_children (w : KB) (a b : addr) :
  children (tm w a) = [] -> reach w a b -> b = a.
Proof.
  intros Hc Hr. apply reach_unfold in Hr as [->|(c & Hin & _)]; [done|].
  rewrite Hc in Hin. by apply elem_of_nil in Hin.
Qed.

(** C7, counterexample: (1) with the alias canine declared for the unknown
    name dog, the first call already lists canine, which names no term;
    (2) after a was listed once and then unlinked from the root, the next
    call still lists a, although only the root is reachable. *)
Lemma get_terms_lists_more_than_reachable_names :
  (exists w ts w',
     session 10 [OpDeclareAlias "canine" "dog"] init = Ok w /\
     get_terms 10 w = Ok (ts, w') /\ ~ lists_reachable_names w ts) /\
  (exists w ts w',
     session 10 [OpAddRelationship "a" "object"; OpListTerms;
                 OpRemoveChild obj (inl "a")] init = Ok w /\
     get_terms 10 w = Ok (ts, w') /\ ~ lists_reachable_names w ts).
Proof.
  split.
  - eexists. exists ["object"; "canine"]. eexists.
    split; [vm_compute; reflexivity|]. split; [vm_compute; reflexivity|].
    intros [_ H]. destruct (proj1 (H "canine")) as (b & Hr & Hn); [set_solver|].
    apply reach_no_children in Hr; [|reflexivity]. subst b. discriminate.
  - eexists. exists ["object"; "a"]. eexists.
    split; [vm_compute; reflexivity|]. split; [vm_compute; reflexivity|].
    intros [_ H]. destruct (proj1 (H "a")) as (b & Hr & Hn); [set_solver|].
    apply reach_no_children in Hr; [|reflexivity]. subst b. discriminate.
Qed.

(** * Term.get_ancestry *)

Lemma for_each_mono {A S : Type} (body body' : A -> S -> result S) (l : list A) :
  (forall x s s', x ∈ l -> body x s = Ok s' -> body' x s = Ok s') ->
  forall s r, for_each body l s = Ok r -> for_each body' l s = Ok r.
Proof.
  induction l as [|x l IH]; intros Hb s r Hrun; simpl in *; [done|].
  inv_bind Hrun. rewrite (Hb x s r0); [|set_solver|done]. simpl.
  apply IH; [|done]. intros y t t' Hy. apply Hb. set_solver.
Qed.

Section ancestry_facts.
Variable w : KB.

(** The loop of get_ancestry appends one nested list per parent. *)
Lemma ancestry_loop_spec (f : nat) (ps : list addr) (acc r : list anode) :
  for_each (fun parent alist =>
              subs ← get_ancestry f w parent;
              Ok (alist ++ [ANode (name (tm w parent)) subs])) ps acc = Ok r
  <-> exists l, r = acc ++ l /\
        Forall2 (fun p a => exists subs,
                   get_ancestry f w p = Ok subs /\ a = ANode (name (tm w p)) subs)
                ps l.
Proof.
  revert acc r. induction ps as [|p ps IH]; intros acc r; simpl.
  - split.
    + intros [= <-]. exists []. by rewrite app_nil_r.
    + intros (l & -> & Hl). inversion Hl; subst. by rewrite app_nil_r.
  - split.
    + intros Hrun. inv_bind Hrun. inv_bind Hruna. inversion Hrunab; subst r0.
      apply IH in Hrunb as (l & -> & Hl).
      exists (ANode (name (tm w p)) r1 :: l). split; [by rewrite <- app_assoc|].
      constructor; [by exists r1|done].
    + intros (l & -> & Hl). inversion Hl as [|p' a ps' l' (subs & Hs & ->) Hl']; subst.
      rewrite Hs. simpl. apply IH. exists l'. split; [by rewrite <- app_assoc|done].
Qed.

Lemma get_ancestry_unfold (f : nat) (a : addr) (l : list anode) :
  get_ancestry (S f) w a = Ok l <->
  Forall2 (fun p an => exists subs,
             get_ancestry f w p = Ok subs /\ an = ANode (name (tm w p)) subs)
          (parents (tm w a)) l.
Proof.
  simpl. rewrite ancestry_loop_spec. split.
  - by intros (l' & -> & Hl).
  - intros Hl. by exists l.
Qed.

(** More fuel does not change an ancestry. *)
Lemma get_ancestry_mono (fuel fuel' : nat) (a : addr) (l : list anode) :
  fuel <= fuel' -> get_ancestry fuel w a = Ok l -> get_ancestry fuel' w a = Ok l.
Proof.
  revert fuel' a l. induction fuel as [|f IH]; intros fuel' a l Hle; [done|].
  destruct fuel' as [|f']; [lia|]. simpl.
  apply for_each_mono. intros p s s' _ Hb. inv_bind Hb.
  rewrite (IH f' p r); [done|lia|done].
Qed.

(** The spine of the nested list of a term is its first-parent chain. *)
Lemma spine_first_parent_chain (fuel : nat) (p : addr) (subs : list anode) :
  get_ancestry fuel w p = Ok subs ->
  first_parent_chain fuel w p = Ok (spine (ANode (name (tm w p)) subs)).
Proof.
  revert p subs. induction fuel as [|f IH]; intros p subs; [done|].
  rewrite get_ancestry_unfold. simpl.
  destruct (parents (tm w p)) as [|q ps]; intros Hl; inversion Hl; subst; [done|].
  match goal with H : exists _, _ |- _ => destruct H as (sq & Hq & ->) end.
  by rewrite (IH q sq Hq).
Qed.

Variable dp : addr -> nat.
Hypothesis Hacyc : acyclic_up w dp.

(** Without a cycle through parent links the ancestry is computed. *)
Lemma get_ancestry_total (fuel : nat) (a : addr) :
  dp a < fuel -> exists l, get_ancestry fuel w a = Ok l.
Proof.
  revert a. induction fuel as [|f IH]; intros a Hlt; [lia|]. simpl.
  destruct (for_each_total (fun _ : list anode => True)
    (fun parent alist =>
       subs ← get_ancestry f w parent;
       Ok (alist ++ [ANode (name (tm w parent)) subs]))
    (parents (tm w a))) with (s := @nil anode) as (l & Hl & _); [|done|by exists l].
  intros p s Hp _. destruct (IH p) as (subs & ->).
  - specialize (Hacyc a p Hp). lia.
  - simpl. eauto.
Qed.

(** C2 (amended): get_ancestry returns one nested list per direct parent
    P of the term, in the order of its parents; the head of the nested
    list is P's name and its remaining elements are the whole ancestry
    of P, one nested list per parent of P, so the list branches wherever
    an ancestor has several parents.  The first-parent chain from P is
    the spine of that nested list. *)
Theorem get_ancestry_nested_per_parent (fuel : nat) (t : addr) :
  dp t < fuel ->
  exists l, get_ancestry fuel w t = Ok l /\
    Forall2 (fun p a =>
               anode_name a = name (tm w p) /\
               get_ancestry fuel w p = Ok (anode_subs a) /\
               first_parent_chain fuel w p = Ok (spine a))
            (parents (tm w t)) l.
Proof.
  intros Hlt. destruct (get_ancestry_total fuel t Hlt) as (l & Hl).
  exists l. split; [done|].
  destruct fuel as [|f]; [done|].
  apply get_ancestry_unfold in Hl.
  eapply Forall2_impl; [exact Hl|].
  intros p a (subs & Hs & ->). cbn [anode_name anode_subs].
  assert (Hs' : get_ancestry (S f) w p = Ok subs)
    by (eapply get_ancestry_mono; [|exact Hs]; lia).
  split; [done|]. split; [done|].
  by apply spine_first_parent_chain.
Qed.
End ancestry_facts.

Lemma get_ancestry_nested_per_parent_witness :
  exists l, get_ancestry 5 kb_diamond 4 = Ok l /\
    Forall2 (fun p a =>
               anode_name a = name (tm kb_diamond p) /\
               get_ancestry 5 kb_diamond p = Ok (anode_subs a) /\
               first_parent_chain 5 kb_diamond p = Ok (spine a))
            (parents (tm kb_diamond 4)) l.
Proof.
  apply (get_ancestry_nested_per_parent kb_diamond (fun a => a)).
  - exact kb_diamond_acyclic_up.
  - lia.
Defined.

(** C2, counterexample: with p under both g1 and g2, the entry of
    get_ancestry (t) for the parent p also holds g2 and its ancestry;
    the names it lists are not the first-parent chain p, g1, object. *)
Lemma get_ancestry_branches_past_first_hop :
  get_ancestry 5 kb_diamond 4 =
    Ok [ANode "p" [ANode "g1" [ANode "object" []];
                   ANode "g2" [ANode "object" []]]] /\
  spec_ancestry 5 kb_diamond 4 = Ok [["p"; "g1"; "object"]] /\
  ancestry_names 5 kb_diamond 4 = Ok [["p"; "g1"; "object"; "g2"; "object"]] /\
  ancestry_names 5 kb_diamond 4 ≠ spec_ancestry 5 kb_diamond 4.
Proof. repeat split; try (vm_compute; reflexivity). vm_compute. discriminate. Qed.

(** * Term.update_names: the rename pass *)

Lemma same_links_refl (w : KB) : same_links w w.
Proof. done. Qed.

Lemma same_links_trans (w1 w2 w3 : KB) :
  same_links w1 w2 -> same_links w2 w3 -> same_links w1 w3.
Proof.
  intros (Hl1 & Ha1 & H1) (Hl2 & Ha2 & H2). split; [congruence|]. split; [congruence|].
  intros a. destruct (H1 a), (H2 a). split; congruence.
Qed.

Lemma renamed_trans (w1 w2 w3 : KB) (k1 k2 : addr -> nat) :
  renamed w1 w2 k1 -> renamed w2 w3 k2 -> renamed w1 w3 (fun a => k2 a + k1 a).
Proof.
  intros [Hs1 Hn1] [Hs2 Hn2]. split; [by eapply same_links_trans|].
  intros a. rewrite Hn2, Hn1. destruct Hs1 as (_ & -> & _).
  by rewrite Nat.iter_add.
Qed.

(** The first statement of update_names: one alias step on [self]. *)
Lemma rename_self (w : KB) (self : addr) :
  renamed w
    match aliases w !! name (tm w self) with
    | Some true_name => set_name self true_name w
    | None => w
    end
    (fun a => if decide (a = self /\ self < length (heap w)) then 1 else 0).
Proof.
  destruct (aliases w !! name (tm w self)) as [true_name|] eqn:E.
  - split.
    + split; [apply length_set_name|]. split; [done|]. intros a.
      by rewrite children_set_name, parents_set_name.
    + intros a. rewrite name_set_name.
      destruct (decide (self = a /\ self < length (heap w))) as [[-> Hlt]|Hn].
      * rewrite decide_True by done. simpl. unfold resolve. by rewrite E.
      * rewrite decide_False by (intros [-> ?]; tauto). done.
  - split; [apply same_links_refl|]. intros a. case_decide as H; [|done].
    destruct H as [-> _]. simpl. unfold resolve. by rewrite E.
Qed.

Lemma reach_same_children (w w' : KB) (a b : addr) :
  (forall c, children (tm w' c) = children (tm w c)) -> reach w a b -> reach w' a b.
Proof.
  intros Hl Hr. induction Hr as [|a c b Hc _ IH]; [apply rtc_refl|].
  eapply rtc_l; [|exact IH]. unfold child_of in *. by rewrite Hl.
Qed.

Section update_names_facts.
Variable w0 : KB.
Variable ht : addr -> nat.
Hypothesis Hacyc : acyclic_down w0 ht.

(** The pass below [self] returns; it touches names only, by one alias
    step per visit, and it visits exactly the terms below [self]. *)
Lemma update_names_spec (fuel : nat) (self : addr) (w : KB) :
  same_links w0 w -> ht self < fuel ->
  exists w' k, update_names fuel self w = Ok w' /\ renamed w w' k /\
    (forall b, reach w0 self b -> b < length (heap w0) -> 1 <= k b) /\
    (forall b, k b ≠ 0 -> reach w0 self b).
Proof.
  revert self w. induction fuel as [|f IH]; intros self w Hsl Hlt; [lia|].
  simpl.
  pose proof (rename_self w self) as Hself.
  set (w1 := match aliases w !! name (tm w self) with
             | Some true_name => set_name self true_name w
             | None => w
             end) in *.
  set (k1 := fun a => if decide (a = self /\ self < length (heap w)) then 1 else 0) in *.
  assert (Hsl1 : same_links w0 w1) by (eapply same_links_trans; [exact Hsl|apply Hself]).
  assert (Hcs : children (tm w1 self) = children (tm w0 self)).
  { destruct Hsl1 as (_ & _ & H). apply H. }
  assert (Hloop : forall cs w2, same_links w0 w2 -> (forall c, c ∈ cs -> ht c < f) ->
    exists w' k, for_each (update_names f) cs w2 = Ok w' /\ renamed w2 w' k /\
      (forall b, (exists c, c ∈ cs /\ reach w0 c b) -> b < length (heap w0) -> 1 <= k b) /\
      (forall b, k b ≠ 0 -> exists c, c ∈ cs /\ reach w0 c b)).
  { induction cs as [|c cs IHcs]; intros w2 Hsl2 Hcs2; simpl.
    - exists w2, (fun _ => 0). split; [done|]. split; [by split|].
      split; [intros b (c & Hc & _); set_solver|done].
    - destruct (IH c w2 Hsl2) as (w3 & k3 & -> & Hr3 & Hge3 & Hle3); [apply Hcs2; set_solver|].
      simpl.
      destruct (IHcs w3) as (w4 & k4 & -> & Hr4 & Hge4 & Hle4).
      { eapply same_links_trans; [exact Hsl2|apply Hr3]. }
      { intros; apply Hcs2; set_solver. }
      exists w4, (fun a => k4 a + k3 a). split; [done|].
      split; [by eapply renamed_trans|]. split.
      + intros b (c' & Hc' & Hr) Hb. apply elem_of_cons in Hc' as [->|Hc'].
        * specialize (Hge3 b Hr Hb). lia.
        * assert (1 <= k4 b) by (apply Hge4; [by exists c'|done]). lia.
      + intros b Hb. destruct (decide (k3 b = 0)) as [E|E].
        * destruct (Hle4 b) as (c' & ? & ?); [lia|]. exists c'. set_solver.
        * exists c. split; [set_solver|by apply Hle3]. }
  destruct (Hloop (children (tm w1 self)) w1 Hsl1) as (w' & k & Hrun & Hren & Hge & Hle).
  { rewrite Hcs. intros c Hc. specialize (Hacyc self c Hc). lia. }
  exists w', (fun a => k a + k1 a). split; [done|].
  split; [by eapply renamed_trans|]. split.
  - intros b Hr Hb. apply reach_unfold in Hr as [->|(c & Hc & Hr)].
    + unfold k1. rewrite decide_True; [lia|].
      split; [done|]. destruct Hsl as (-> & _). done.
    + assert (1 <= k b); [|lia]. apply Hge; [|done]. exists c. by rewrite Hcs.
  - intros b Hb. apply reach_unfold. destruct (decide (k b = 0)) as [E|E].
    + left. unfold k1 in Hb. case_decide as H; [tauto|lia].
    + right. destruct (Hle b E) as (c & Hc & Hr). exists c. by rewrite <- Hcs.
Qed.
End update_names_facts.

(** The rename pass returns on every graph without a cycle and rewrites
    names only. *)
Lemma update_names_renames (w : KB) (ht : addr -> nat) (fuel : nat) :
  acyclic_down w ht -> ht obj < fuel ->
  exists w' k, update_names fuel obj w = Ok w' /\
    length (heap w') = length (heap w) /\ aliases w' = aliases w /\
    (forall a, children (tm w' a) = children (tm w a) /\
               parents (tm w' a) = parents (tm w a) /\
               name (tm w' a) = Nat.iter (k a) (resolve (aliases w)) (name (tm w a))) /\
    (forall a, reach w obj a -> a < length (heap w) -> 1 <= k a) /\
    (forall a, ~ reach w obj a -> k a = 0).
Proof.
  intros Hacyc Hlt.
  destruct (update_names_spec w ht Hacyc fuel obj w (same_links_refl w) Hlt)
    as (w' & k & Hrun & [(Hlen & Hal & Hl) Hn] & Hge & Hle).
  exists w', k. split; [done|]. split; [done|]. split; [done|].
  split; [|split; [done|]].
  - intros a. destruct (Hl a). by split; [|split].
  - intros a Hnr. destruct (decide (k a = 0)); [done|]. exfalso. by apply Hnr, Hle.
Qed.





(** * Pruning only removes links *)

Lemma anode_spine_ind (P : anode -> Prop) :
  (forall nm, P (ANode nm [])) ->
  (forall nm next rest, P next -> P (ANode nm (next :: rest))) ->
  forall a, P a.
Proof.
  intros H0 HS. fix IH 1. intros [nm [|next rest]].
  - apply H0.
  - apply HS. apply IH.
Qed.

Section shrinks_facts.
Implicit Types (w : KB).

Lemma shrinks_refl w : shrinks w w.
Proof. done. Qed.

Lemma shrinks_trans w1 w2 w3 : shrinks w1 w2 -> shrinks w2 w3 -> shrinks w1 w3.
Proof.
  intros (Hl1 & Ha1 & H1) (Hl2 & Ha2 & H2).
  split; [congruence|]. split; [congruence|]. intros a.
  destruct (H1 a) as (? & ? & ?), (H2 a) as (? & ? & ?).
  split; [congruence|]. split; by etrans.
Qed.

Global Instance shrinks_preorder : PreOrder shrinks.
Proof. split; [exact shrinks_refl|exact shrinks_trans]. Qed.

Lemma shrinks_print line w : shrinks w (print line w).
Proof. done. Qed.

Lemma shrinks_unlink_child w P C : shrinks w (unlink_child P C w).
Proof.
  split; [apply length_unlink_child|]. split.
  { unfold unlink_child. by destruct (memb C _). }
  intros a. rewrite name_unlink_child, parents_unlink_child, children_unlink_child.
  split; [done|]. split; [|done].
  case_decide; [apply list_remove_first_sublist|done].
Qed.

Lemma shrinks_unlink_parent w C P : shrinks w (unlink_parent C P w).
Proof.
  split; [apply length_unlink_parent|]. split.
  { unfold unlink_parent, unlink_child.
    destruct (memb P _); [|done]. simpl. by destruct (memb C _). }
  intros a. rewrite name_unlink_parent, parents_unlink_parent, children_unlink_parent.
  split; [done|].
  split; (case_decide; [apply list_remove_first_sublist|done]).
Qed.

Lemma remove_child_shrinks fuel self child w w' :
  remove_child fuel self child w = Ok w' -> shrinks w w'.
Proof.
  destruct child as [s|c]; simpl.
  - intros H. inv_bind H. destruct r; inversion Hb; subst.
    + apply shrinks_unlink_child.
    + apply shrinks_print.
  - intros [= <-]. apply shrinks_unlink_child.
Qed.

Lemma remove_parent_shrinks fuel self parent w w' :
  remove_parent fuel self parent w = Ok w' -> shrinks w w'.
Proof.
  destruct parent as [s|p]; simpl.
  - intros H. inv_bind H. destruct r; inversion Hb; subst.
    + apply shrinks_unlink_parent.
    + apply shrinks_print.
  - intros [= <-]. apply shrinks_unlink_parent.
Qed.

Lemma prune_while_step fuel self parent1 nm next rest w :
  prune_while fuel self parent1 (ANode nm (next :: rest)) w =
  w1 ← (if anode_in parent1 (ANode nm (next :: rest))
        then remove_parent fuel self (inl (anode_name parent1)) w
        else Ok w);
  prune_while fuel self parent1 next w1.
Proof. reflexivity. Qed.

Lemma prune_while_shrinks fuel self parent1 parent2 w w' :
  prune_while fuel self parent1 parent2 w = Ok w' -> shrinks w w'.
Proof.
  revert w. induction parent2 as [nm|nm next rest IH] using anode_spine_ind; intros w.
  - intros [= <-]. apply shrinks_refl.
  - rewrite prune_while_step. intros H. inv_bind H.
    eapply shrinks_trans; [|by apply IH].
    destruct (anode_in parent1 _).
    + by eapply remove_parent_shrinks.
    + inversion Ha; subst. apply shrinks_refl.
Qed.

Lemma prune_inner_shrinks fuel self parent1 l2 w w' :
  prune_inner fuel self parent1 l2 w = Ok w' -> shrinks w w'.
Proof.
  revert w. induction l2 as [|parent2 l2 IH]; intros w; simpl.
  - intros [= <-]. apply shrinks_refl.
  - intros H. inv_bind H. eapply shrinks_trans; [|by apply IH].
    by eapply prune_while_shrinks.
Qed.

Lemma prune_outer_shrinks fuel self l1 w w' :
  prune_outer fuel self l1 w = Ok w' -> shrinks w w'.
Proof.
  revert w. induction l1 as [|parent1 l1 IH]; intros w; simpl.
  - intros [= <-]. apply shrinks_refl.
  - intros H. inv_bind H. inv_bind Hb. eapply shrinks_trans; [|by apply IH].
    by eapply prune_inner_shrinks.
Qed.

Lemma prune_own_shrinks fuel self w w' :
  prune_own fuel self w = Ok w' -> shrinks w w'.
Proof. unfold prune_own. intros H. inv_bind H. by eapply prune_outer_shrinks. Qed.

Lemma prune_shrinks fuel :
  (forall self w w', prune_tree fuel self w = Ok w' -> shrinks w w') /\
  (forall self i w w', prune_children fuel self i w = Ok w' -> shrinks w w').
Proof.
  induction fuel as [|f [IHt IHc]]; [done|]. split.
  - intros self w w' H. simpl in H. inv_bind H.
    eapply shrinks_trans; [by eapply prune_own_shrinks|by eapply IHc].
  - intros self i w w' H. simpl in H.
    destruct (children (tm w self) !! i) as [child|].
    + inv_bind H. eapply shrinks_trans; [by eapply IHt|by eapply IHc].
    + inversion H; subst. apply shrinks_refl.
Qed.

Lemma prune_tree_shrinks fuel self w w' :
  prune_tree fuel self w = Ok w' -> shrinks w w'.
Proof. apply prune_shrinks. Qed.
End shrinks_facts.

(** * The pruning pass returns on a graph without cycles *)

Lemma acyclic_down_shrinks (w w' : KB) (ht : addr -> nat) :
  shrinks w w' -> acyclic_down w ht -> acyclic_down w' ht.
Proof.
  intros (_ & _ & H) Hacyc a c Hc. apply Hacyc.
  destruct (H a) as (_ & Hs & _). by eapply elem_of_sublist.
Qed.

Lemma acyclic_up_shrinks (w w' : KB) (dp : addr -> nat) :
  shrinks w w' -> acyclic_up w dp -> acyclic_up w' dp.
Proof.
  intros (_ & _ & H) Hacyc a p Hp. apply Hacyc.
  destruct (H a) as (_ & _ & Hs). by eapply elem_of_sublist.
Qed.

Section prune_total.
Variable w0 : KB.
Variables ht dp : addr -> nat.
Variables D K : nat.
Hypothesis Hdown : acyclic_down w0 ht.
Hypothesis Hup : acyclic_up w0 dp.
Hypothesis HD : forall a, dp a <= D.
Hypothesis HK : forall a, length (children (tm w0 a)) <= K.

Lemma remove_parent_total f self arg w :
  shrinks w0 w -> ht obj < f ->
  exists w', remove_parent f self arg w = Ok w' /\ shrinks w w'.
Proof.
  intros Hs Hf. destruct arg as [nm|p]; simpl.
  - destruct (traverse_total w ht (acyclic_down_shrinks _ _ _ Hs Hdown) f obj nm Hf)
      as ([p|] & ->); simpl; eexists; (split; [done|]).
    + apply shrinks_unlink_parent.
    + apply shrinks_print.
  - eexists. split; [done|]. apply shrinks_unlink_parent.
Qed.

Lemma prune_while_total f self parent1 parent2 w :
  shrinks w0 w -> ht obj < f ->
  exists w', prune_while f self parent1 parent2 w = Ok w' /\ shrinks w w'.
Proof.
  intros Hs Hf. revert w Hs.
  induction parent2 as [nm|nm next rest IH] using anode_spine_ind; intros w Hs.
  - exists w. by split.
  - rewrite prune_while_step.
    assert (exists w1, (if anode_in parent1 (ANode nm (next :: rest))
                        then remove_parent f self (inl (anode_name parent1)) w
                        else Ok w) = Ok w1 /\ shrinks w w1) as (w1 & -> & Hs1).
    { destruct (anode_in _ _); [by apply remove_parent_total|].
      exists w. by split. }
    simpl. destruct (IH w1) as (w' & -> & Hs'); [by etrans|].
    exists w'. split; [done|]. by eapply shrinks_trans.
Qed.

Lemma prune_inner_total f self parent1 l2 w :
  shrinks w0 w -> ht obj < f ->
  exists w', prune_inner f self parent1 l2 w = Ok w' /\ shrinks w w'.
Proof.
  intros Hs Hf. revert w Hs. induction l2 as [|parent2 l2 IH]; intros w Hs; simpl.
  - exists w. by split.
  - destruct (prune_while_total f self parent1 parent2 w Hs Hf) as (w1 & -> & Hs1).
    simpl. destruct (IH w1) as (w' & -> & Hs'); [by eapply shrinks_trans|].
    exists w'. split; [done|]. by eapply shrinks_trans.
Qed.

Lemma prune_outer_total f self l1 w :
  shrinks w0 w -> ht obj < f -> dp self < f ->
  exists w', prune_outer f self l1 w = Ok w' /\ shrinks w w'.
Proof.
  intros Hs Hf Hd. revert w Hs. induction l1 as [|parent1 l1 IH]; intros w Hs; simpl.
  - exists w. by split.
  - destruct (get_ancestry_total w dp (acyclic_up_shrinks _ _ _ Hs Hup) f self Hd)
      as (l2 & ->). simpl.
    destruct (prune_inner_total f self parent1 l2 w Hs Hf) as (w1 & -> & Hs1).
    simpl. destruct (IH w1) as (w' & -> & Hs'); [by eapply shrinks_trans|].
    exists w'. split; [done|]. by eapply shrinks_trans.
Qed.

Lemma prune_own_total f self w :
  shrinks w0 w -> ht obj < f -> dp self < f ->
  exists w', prune_own f self w = Ok w' /\ shrinks w w'.
Proof.
  intros Hs Hf Hd. unfold prune_own.
  destruct (get_ancestry_total w dp (acyclic_up_shrinks _ _ _ Hs Hup) f self Hd)
    as (l1 & ->). simpl.
  by apply prune_outer_total.
Qed.

Local Notation need := (prune_budget ht D K).

Lemma need_mono h h' : h <= h' -> need h <= need h'.
Proof. unfold prune_budget. nia. Qed.

Lemma prune_total_aux fuel :
  (forall self w, shrinks w0 w -> need (ht self) <= fuel ->
     exists w', prune_tree fuel self w = Ok w' /\ shrinks w w') /\
  (forall self i w, shrinks w0 w -> 1 <= fuel ->
     (0 < ht self -> K - i + 1 + need (ht self - 1) <= fuel) ->
     exists w', prune_children fuel self i w = Ok w' /\ shrinks w w').
Proof.
  induction fuel as [|f [IHt IHc]].
  { split; [|intros; lia]. intros self w _ Hn. unfold prune_budget in Hn. lia. }
  split.
  - intros self w Hs Hn. simpl.
    destruct (prune_own_total f self w Hs) as (w1 & -> & Hs1).
    { unfold prune_budget in Hn. lia. }
    { specialize (HD self). unfold prune_budget in Hn. lia. }
    simpl. destruct (IHc self 0 w1) as (w' & -> & Hs').
    { by eapply shrinks_trans. }
    { unfold prune_budget in Hn. lia. }
    { intros Hpos. unfold prune_budget in *.
      replace (ht self) with (S (ht self - 1)) in Hn by lia. nia. }
    exists w'. split; [done|]. by eapply shrinks_trans.
  - intros self i w Hs _ Hn. simpl.
    destruct (children (tm w self) !! i) as [child|] eqn:Hi; [|exists w; by split].
    assert (Hchild : child ∈ children (tm w0 self)).
    { destruct Hs as (_ & _ & H). destruct (H self) as (_ & Hsub & _).
      eapply elem_of_sublist; [|exact Hsub]. by eapply list_elem_of_lookup_2. }
    assert (Hht : ht child < ht self) by by apply Hdown.
    assert (Hik : i < K).
    { apply lookup_lt_Some in Hi. destruct Hs as (_ & _ & H).
      destruct (H self) as (_ & Hsub & _). apply sublist_length in Hsub.
      specialize (HK self). lia. }
    specialize (Hn ltac:(lia)).
    destruct (IHt child w Hs) as (w1 & -> & Hs1).
    { pose proof (need_mono (ht child) (ht self - 1) ltac:(lia)). lia. }
    simpl. destruct (IHc self (S i) w1) as (w' & -> & Hs').
    { by eapply shrinks_trans. }
    { unfold prune_budget in *. lia. }
    { intros _. lia. }
    exists w'. split; [done|]. by eapply shrinks_trans.
Qed.

(** On a graph without cycles, the pruning pass from any term returns,
    having only removed links. *)
Lemma prune_tree_total fuel self :
  need (ht self) <= fuel ->
  exists w', prune_tree fuel self w0 = Ok w' /\ shrinks w0 w'.
Proof. intros Hn. by apply prune_total_aux. Qed.
End prune_total.

(** Inserting a parent link runs the pruning pass from the root, over the
    graph that holds the new link, before add_parent returns; when that
    graph has no cycle the pass returns, having only removed links. *)
Lemma add_parent_prunes_from_root
  (w : KB) (self parent : addr) (ht dp : addr -> nat) (D K fuel : nat) :
  let w1 := set_parents self (parents (tm w self) ++ [parent]) w in
  has_name w (name (tm w parent)) (parents (tm w self)) = false ->
  acyclic_down w1 ht -> acyclic_up w1 dp ->
  (forall a, dp a <= D) -> (forall a, length (children (tm w1 a)) <= K) ->
  prune_budget ht D K (ht obj) <= fuel ->
  exists w', add_parent fuel self parent w = Ok (true, w') /\
    prune_tree fuel obj w1 = Ok w' /\ shrinks w1 w'.
Proof.
  intros w1 Hname Hdown Hup HD HK Hfuel. unfold add_parent. rewrite Hname.
  destruct (prune_tree_total w1 ht dp D K Hdown Hup HD HK fuel obj Hfuel)
    as (w' & Hrun & Hs).
  exists w'. fold w1. rewrite Hrun. by split.
Qed.

(** add_kind_of, one call unfolded. *)
Lemma add_kind_of_step (f : nat) (x y : string) (w : KB) :
  add_kind_of (S f) x y w =
  r ← traverse f w obj x;
  let '(newobj, w1) := match r with
                       | Some a => (a, w)
                       | None => alloc x w
                       end in
  r2 ← traverse f w1 obj y;
  '(superobj, w2) ←
    match r2 with
    | Some s => Ok (Some s, w1)
    | None =>
      let w1a := print ("WARNING: Parent object " +:+ y +:+ " does not exist.") w1 in
      let w1b := print "Creating new parent object and linking to object." w1a in
      w1c ← add_kind_of f y "object" w1b;
      s ← traverse f w1c obj y;
      Ok (s, w1c)
    end;
  match superobj with
  | None => Raise AttributeError
  | Some s => r3 ← add_child f s newobj w2; Ok (snd r3)
  end.
Proof. reflexivity. Qed.

(** * The root term is left alone *)

Section root_facts.
Implicit Types (w : KB).

Lemma root_safe_init : root_safe init.
Proof.
  split; [|split].
  - split; [done|]. split; [done|]. intros a Ha _. simpl in Ha. unfold obj. lia.
  - simpl. lia.
  - intros key v. simpl. by rewrite lookup_empty.
Qed.

Lemma root_safe_ext w w' :
  heap w' = heap w -> aliases w' = aliases w -> root_safe w -> root_safe w'.
Proof.
  intros Hh Ha. unfold root_safe, root_invariant, tm. by rewrite Hh, Ha.
Qed.

Lemma root_safe_shrinks w w' : shrinks w w' -> root_safe w -> root_safe w'.
Proof.
  intros (Hl & Ha & H) ((Hn & Hp & Hu) & Hlen & Hal).
  split; [|split; [lia|by rewrite Ha]].
  destruct (H obj) as (Hn' & _ & Hp'). split; [congruence|]. split.
  - rewrite Hp in Hp'. by apply sublist_nil_r in Hp'.
  - intros a Hlt Ha'. apply Hu; [lia|]. destruct (H a) as (<- & _). done.
Qed.

Lemma resolve_object w nm :
  root_safe w -> resolve (aliases w) nm = "object" -> nm = "object".
Proof.
  intros (_ & _ & Hal). unfold resolve.
  destruct (aliases w !! nm) as [v|] eqn:E; simpl; [|done].
  intros ->. by destruct (Hal nm "object" E).
Qed.

Lemma resolve_object_fix w : root_safe w -> resolve (aliases w) "object" = "object".
Proof.
  intros (_ & _ & Hal). unfold resolve.
  destruct (aliases w !! "object") as [v|] eqn:E; [|done].
  by destruct (Hal "object" v E).
Qed.

Lemma iter_resolve_object w n nm :
  root_safe w -> Nat.iter n (resolve (aliases w)) nm = "object" -> nm = "object".
Proof.
  intros Hs. induction n as [|n IH]; simpl; [done|].
  intros H. by apply IH, (resolve_object w).
Qed.

(** A name other than object never resolves to the root. *)
Lemma traverse_spares_root w fuel nm a :
  root_safe w -> nm ≠ "object" ->
  traverse fuel w obj nm = Ok (Some a) -> a ≠ obj.
Proof.
  intros Hs Hne Htr ->. apply traverse_sound in Htr as (_ & _ & k & _ & Hn).
  pose proof Hs as ((Hroot & _) & _). rewrite Hroot in Hn.
  apply Hne. eapply (iter_resolve_object w k); [done|]. by rewrite <- Hn.
Qed.

(** The name object is found at once, at the root. *)
Lemma traverse_object_None w fuel :
  root_safe w -> traverse fuel w obj "object" ≠ Ok None.
Proof.
  intros Hs. destruct fuel as [|f]; [done|]. simpl.
  rewrite (resolve_object_fix w Hs). destruct Hs as ((-> & _) & _).
  by rewrite decide_True.
Qed.

Lemma root_safe_alloc w nm :
  nm ≠ "object" -> root_safe w -> root_safe (alloc nm w).2.
Proof.
  intros Hne ((Hn & Hp & Hu) & Hlen & Hal).
  split; [|split; [rewrite length_alloc; lia|done]].
  unfold root_invariant. rewrite !(tm_alloc_old nm w obj) by done.
  split; [done|]. split; [done|].
  intros a _. rewrite tm_alloc. case_decide as E; [done|].
  intros Ha. destruct (decide (a < length (heap w))); [by apply Hu|].
  rewrite tm_out_of_range in Ha by lia. done.
Qed.

Lemma root_safe_set_children w a cs : root_safe w -> root_safe (set_children a cs w).
Proof.
  intros ((Hn & Hp & Hu) & Hlen & Hal).
  split; [|split; [by rewrite length_set_children|done]].
  unfold root_invariant.
  rewrite name_set_children, parents_set_children, length_set_children.
  split; [done|]. split; [done|]. intros b. rewrite name_set_children. apply Hu.
Qed.

Lemma root_safe_set_parents w a ps :
  a ≠ obj -> root_safe w -> root_safe (set_parents a ps w).
Proof.
  intros Hne ((Hn & Hp & Hu) & Hlen & Hal).
  split; [|split; [by rewrite length_set_parents|done]].
  unfold root_invariant.
  rewrite name_set_parents, parents_set_parents, length_set_parents.
  rewrite decide_False by tauto.
  split; [done|]. split; [done|]. intros b. rewrite name_set_parents. apply Hu.
Qed.

Lemma add_parent_root_safe fuel self parent w r :
  self ≠ obj -> root_safe w -> add_parent fuel self parent w = Ok r -> root_safe r.2.
Proof.
  intros Hne Hs. unfold add_parent. destruct (has_name w _ _).
  - by intros [= <-].
  - intros H. inv_bind H. inversion Hb; subst. simpl.
    eapply root_safe_shrinks; [by eapply prune_tree_shrinks|].
    by apply root_safe_set_parents.
Qed.

Lemma add_child_root_safe fuel self child w r :
  child ≠ obj -> root_safe w -> add_child fuel self child w = Ok r -> root_safe r.2.
Proof.
  intros Hne Hs. unfold add_child. destruct (has_name w _ _).
  - by intros [= <-].
  - apply add_parent_root_safe; [done|]. by apply root_safe_set_children.
Qed.

Lemma add_kind_of_root_safe fuel x y w w' :
  x ≠ "object" -> root_safe w -> add_kind_of fuel x y w = Ok w' -> root_safe w'.
Proof.
  revert x y w w'. induction fuel as [|f IH]; intros x y w w' Hx Hs; [done|].
  simpl. intros H. inv_bind H.
  set (nw := match r with Some a => (a, w) | None => alloc x w end) in *.
  assert (Hnw : nw.1 ≠ obj /\ root_safe nw.2).
  { unfold nw. destruct r as [a|]; simpl.
    - split; [|done]. by eapply traverse_spares_root.
    - split; [|by apply root_safe_alloc]. destruct Hs as (_ & ? & _). unfold obj. lia. }
  destruct nw as [newobj w1]. simpl in Hnw. destruct Hnw as [Hnew Hs1].
  inv_bind Hb. inv_bind Hbb. destruct r1 as [superobj w2].
  assert (Hs2 : root_safe w2).
  { destruct r0 as [s|].
    - by inversion Hbba; subst.
    - inv_bind Hbba. inv_bind Hbbab. inversion Hbbabb; subst.
      eapply IH; [| |exact Hbbaa].
      + intros ->. by eapply traverse_object_None.
      + eapply root_safe_ext; [| |exact Hs1]; reflexivity. }
  destruct superobj as [s|]; [|done].
  inv_bind Hbbb. inversion Hbbbb; subst.
  by eapply add_child_root_safe.
Qed.

Lemma update_names_renamed fuel self w w' :
  update_names fuel self w = Ok w' -> exists k, renamed w w' k.
Proof.
  revert self w w'. induction fuel as [|f IH]; intros self w w'; [done|].
  simpl. pose proof (rename_self w self) as Hself.
  set (w1 := match aliases w !! name (tm w self) with
             | Some true_name => set_name self true_name w
             | None => w
             end) in *.
  apply (for_each_inv (fun s => exists k, renamed w s k)); [|eauto].
  intros c s s' _ [k Hk] Hc. apply IH in Hc as [k' Hk'].
  eexists. by eapply renamed_trans.
Qed.

Lemma root_safe_renamed w w' k : renamed w w' k -> root_safe w -> root_safe w'.
Proof.
  intros [(Hl & Ha & Hlinks) Hn] Hs.
  pose proof Hs as ((Hroot & Hp & Hu) & Hlen & Hal).
  split; [|split; [lia|by rewrite Ha]]. split; [|split].
  - rewrite Hn, Hroot. clear -Hs. induction (k obj) as [|n IH]; simpl; [done|].
    rewrite IH. by apply resolve_object_fix.
  - destruct (Hlinks obj) as [_ ->]. done.
  - intros a Hlt Ha'. apply Hu; [lia|]. rewrite Hn in Ha'.
    by eapply iter_resolve_object.
Qed.

Lemma make_alias_root_safe fuel alias true_name w w' :
  alias ≠ "object" -> true_name ≠ "object" -> root_safe w ->
  make_alias fuel alias true_name w = Ok w' -> root_safe w'.
Proof.
  intros Hal Htn Hs. unfold make_alias. intros H. inv_bind H.
  destruct (aliases w !! alias) eqn:E; inversion Hb; subst; [done|].
  destruct Hs as (Hroot & Hlen & Halias). split; [done|]. split; [done|]. simpl.
  intros key v. rewrite lookup_insert. case_decide as Ek.
  - intros [= <-]. subst key. split; [done|]. destruct r as [i|]; [|done].
    apply traverse_sound in Ha as (_ & _ & k & _ & Hn). rewrite Hn.
    intros Hobj. apply Htn. eapply (iter_resolve_object w k); [|done].
    by split.
  - apply Halias.
Qed.

Lemma what_is_term_frame fuel item d w w' :
  what_is_term fuel item d w = Ok w' -> heap w' = heap w /\ aliases w' = aliases w.
Proof.
  revert item d w w'. induction fuel as [|f IH]; intros item d w w'; [done|].
  simpl.
  apply (for_each_inv (fun s => heap s = heap w /\ aliases s = aliases w)); [|done].
  intros p s s' _ [Hh Ha] Hs. apply IH in Hs as [-> ->]. done.
Qed.

(** Every operation that spares the root keeps the invariant. *)
Lemma exec_root_safe fuel o w w' :
  spares_root o -> root_safe w -> exec fuel o w = Ok w' -> root_safe w'.
Proof.
  intros Ho Hs. destruct o as [x y|self c|self p|alias tn| | |x y|item|]; simpl.
  - by apply add_kind_of_root_safe.
  - intros H. eapply root_safe_shrinks; [by eapply remove_child_shrinks|done].
  - intros H. eapply root_safe_shrinks; [by eapply remove_parent_shrinks|done].
  - unfold declare_alias. intros H. inv_bind H. destruct Ho as [Hal Htn].
    apply update_names_renamed in Hb as [k Hk].
    eapply root_safe_renamed; [exact Hk|].
    exact (make_alias_root_safe _ _ _ _ _ Hal Htn Hs Ha).
  - intros H. apply update_names_renamed in H as [k Hk]. by eapply root_safe_renamed.
  - intros H. eapply root_safe_shrinks; [by eapply prune_tree_shrinks|done].
  - unfold is_kind_of. intros H. inv_bind H. inv_bind Ha. destruct r0 as [p|].
    + inv_bind Hab. destruct r0; inversion Habb; subst; inversion Hb; subst; done.
    + inversion Hab; subst. inversion Hb; subst. done.
  - unfold what_is. intros H. inv_bind H. destruct r as [i|].
    + apply what_is_term_frame in Hb as [Hh Ha']. eapply root_safe_ext; [done..|].
      by case_decide.
    + inversion Hb; subst. done.
  - unfold get_terms, list_reduce_noarg. intros H. inv_bind H. inv_bind Ha.
    inv_bind Haa. inversion Haab; subst. inversion Hab; subst. inversion Hb; subst. done.
Qed.

Lemma reachable_root_safe w : reachable spares_root w -> root_safe w.
Proof.
  induction 1 as [|w w' o fuel _ IH Ho Hrun]; [apply root_safe_init|].
  by eapply exec_root_safe.
Qed.

Lemma session_reachable (allowed : op -> Prop) fuel ops w w' :
  Forall allowed ops -> reachable allowed w -> session fuel ops w = Ok w' ->
  reachable allowed w'.
Proof.
  unfold session. intros Hall. revert w. induction Hall as [|o ops Ho _ IH]; intros w Hr; simpl.
  - by intros [= <-].
  - intros H. inv_bind H. eapply IH; [|exact Hb]. by eapply reachable_step.
Qed.
End root_facts.

(** * Links stay well formed *)

Section well_linked_facts.
Implicit Types (w : KB).

Lemma well_linked_init : well_linked init.
Proof.
  split; [simpl; lia|]. intros [|a]; unfold tm; simpl;
    (split; [constructor|]); (split; [constructor|]); split; intros ? H;
    by apply elem_of_nil in H.
Qed.

Lemma well_linked_ext w w' : heap w' = heap w -> well_linked w -> well_linked w'.
Proof. intros Hh. unfold well_linked, tm. by rewrite Hh. Qed.

Lemma well_linked_shrinks w w' : shrinks w w' -> well_linked w -> well_linked w'.
Proof.
  intros (Hl & _ & H) [Hlen Hw]. split; [lia|]. intros a.
  destruct (H a) as (_ & Hc & Hp), (Hw a) as (Hndc & Hndp & Hrc & Hrp).
  split; [eapply sublist_NoDup; [exact Hndc|exact Hc]|].
  split; [eapply sublist_NoDup; [exact Hndp|exact Hp]|].
  rewrite Hl. split; intros b Hb.
  - apply Hrc. by eapply elem_of_sublist.
  - apply Hrp. by eapply elem_of_sublist.
Qed.

Lemma well_linked_renamed w w' k : renamed w w' k -> well_linked w -> well_linked w'.
Proof.
  intros [(Hl & _ & H) _] [Hlen Hw]. split; [lia|]. intros a.
  destruct (H a) as [-> ->]. rewrite Hl. apply Hw.
Qed.

Lemma well_linked_alloc w nm : well_linked w -> well_linked (alloc nm w).2.
Proof.
  intros [Hlen Hw]. split; [rewrite length_alloc; lia|]. intros a.
  rewrite tm_alloc, length_alloc. case_decide.
  - simpl. (split; [constructor|]); (split; [constructor|]); split; intros ? H';
      by apply elem_of_nil in H'.
  - destruct (Hw a) as (? & ? & Hrc & Hrp). split; [done|]. split; [done|].
    split; intros b Hb; [specialize (Hrc b Hb)|specialize (Hrp b Hb)]; lia.
Qed.

Lemma reach_in_range w a b :
  well_linked w -> a < length (heap w) -> reach w a b -> b < length (heap w).
Proof.
  intros [_ Hw] Ha Hr. induction Hr as [|a c b Hc _ IH]; [done|].
  apply IH. destruct (Hw a) as (_ & _ & Hrc & _). by apply Hrc.
Qed.

Lemma has_name_false_not_in w (c : addr) (l : list addr) :
  has_name w (name (tm w c)) l = false -> c ∉ l.
Proof.
  unfold has_name. intros H Hin.
  assert (existsb (fun ex => bool_decide (name (tm w ex) = name (tm w c))) l = true);
    [|congruence].
  apply existsb_exists. exists c. split; [by apply list_elem_of_In|].
  by apply bool_decide_eq_true.
Qed.

Lemma well_linked_set_children w a c :
  c < length (heap w) -> c ∉ children (tm w a) -> well_linked w ->
  well_linked (set_children a (children (tm w a) ++ [c]) w).
Proof.
  intros Hc Hnin [Hlen Hw]. split; [by rewrite length_set_children|]. intros b.
  rewrite children_set_children, parents_set_children, length_set_children.
  destruct (Hw b) as (Hndc & Hndp & Hrc & Hrp).
  case_decide as E; [|done]. destruct E as [-> _].
  split; [|split; [done|split; [|done]]].
  - apply NoDup_app. split; [done|]. split; [|apply NoDup_singleton].
    intros x Hx Hx'. apply list_elem_of_singleton in Hx'. by subst.
  - intros x Hx. apply elem_of_app in Hx as [Hx|Hx]; [by apply Hrc|].
    apply list_elem_of_singleton in Hx. by subst.
Qed.

Lemma well_linked_set_parents w a p :
  p < length (heap w) -> p ∉ parents (tm w a) -> well_linked w ->
  well_linked (set_parents a (parents (tm w a) ++ [p]) w).
Proof.
  intros Hp Hnin [Hlen Hw]. split; [by rewrite length_set_parents|]. intros b.
  rewrite children_set_parents, parents_set_parents, length_set_parents.
  destruct (Hw b) as (Hndc & Hndp & Hrc & Hrp).
  case_decide as E; [|done]. destruct E as [-> _].
  split; [done|]. split; [|split; [done|]].
  - apply NoDup_app. split; [done|]. split; [|apply NoDup_singleton].
    intros x Hx Hx'. apply list_elem_of_singleton in Hx'. by subst.
  - intros x Hx. apply elem_of_app in Hx as [Hx|Hx]; [by apply Hrp|].
    apply list_elem_of_singleton in Hx. by subst.
Qed.

Lemma add_child_well_linked fuel self child w r :
  self < length (heap w) -> child < length (heap w) -> well_linked w ->
  add_child fuel self child w = Ok r -> well_linked r.2.
Proof.
  intros Hself Hchild Hw. unfold add_child.
  destruct (has_name w (name (tm w child)) (children (tm w self))) eqn:E1.
  { by intros [= <-]. }
  apply has_name_false_not_in in E1.
  pose proof (well_linked_set_children w self child Hchild E1 Hw) as Hw1.
  set (w1 := set_children self (children (tm w self) ++ [child]) w) in *.
  unfold add_parent.
  match goal with
  | |- context [has_name ?a ?b ?c] => destruct (has_name a b c) eqn:E2
  end.
  { by intros [= <-]. }
  apply has_name_false_not_in in E2.
  intros H. inv_bind H. inversion Hb; subst. simpl.
  eapply well_linked_shrinks; [by eapply prune_tree_shrinks|].
  apply well_linked_set_parents; [|done|done].
  unfold w1. by rewrite length_set_children.
Qed.

Lemma add_child_length fuel self child w r :
  add_child fuel self child w = Ok r -> length (heap r.2) = length (heap w).
Proof.
  unfold add_child, add_parent.
  destruct (has_name w _ _); [by intros [= <-]|].
  match goal with
  | |- context [has_name ?a ?b ?c] => destruct (has_name a b c)
  end.
  - intros [= <-]. simpl. apply length_set_children.
  - intros H. inv_bind H. inversion Hb; subst. simpl.
    apply prune_tree_shrinks in Ha as (-> & _).
    by rewrite length_set_parents, length_set_children.
Qed.

Lemma add_kind_of_well_linked fuel x y w w' :
  well_linked w -> add_kind_of fuel x y w = Ok w' ->
  well_linked w' /\ length (heap w) <= length (heap w').
Proof.
  revert x y w w'. induction fuel as [|f IH]; intros x y w w' Hw; [done|].
  rewrite add_kind_of_step. intros H. inv_bind H.
  set (nw := match r with Some a => (a, w) | None => alloc x w end) in *.
  assert (Hnw : nw.1 < length (heap nw.2) /\ well_linked nw.2 /\
                length (heap w) <= length (heap nw.2)).
  { unfold nw. destruct r as [a|]; simpl.
    - split; [|done]. apply traverse_sound in Ha as (Hr & _).
      eapply reach_in_range; [done| |exact Hr]. apply Hw.
    - split; [|split; [by apply well_linked_alloc|]];
        unfold alloc; simpl; rewrite length_app; simpl; lia. }
  destruct nw as [newobj w1]. simpl in Hnw. destruct Hnw as (Hnew & Hw1 & Hlen1).
  inv_bind Hb. inv_bind Hbb. destruct r1 as [superobj w2].
  assert (Hw2 : well_linked w2 /\ length (heap w1) <= length (heap w2) /\
                forall s, superobj = Some s -> s < length (heap w2)).
  { destruct r0 as [s|].
    - inversion Hbba; subst. split; [done|]. split; [done|]. intros s' [= <-].
      apply traverse_sound in Hba as (Hr & _).
      eapply reach_in_range; [done| |exact Hr]. apply Hw1.
    - inv_bind Hbba. inv_bind Hbbab. inversion Hbbabb; subst.
      apply IH in Hbbaa as [Hw2 Hlen2];
        [|eapply well_linked_ext; [|exact Hw1]; reflexivity].
      split; [done|]. split; [exact Hlen2|].
      intros s [= ->]. apply traverse_sound in Hbbaba as (Hr & _).
      eapply reach_in_range; [done| |exact Hr]. apply Hw2. }
  destruct Hw2 as (Hw2 & Hmono & Hsup).
  destruct superobj as [s|]; [|done].
  inv_bind Hbbb. inversion Hbbbb; subst. split.
  - eapply add_child_well_linked; [| |exact Hw2|exact Hbbba]; [by apply Hsup|lia].
  - apply add_child_length in Hbbba. lia.
Qed.

(** Every operation keeps the links well formed. *)
Lemma exec_well_linked fuel o w w' :
  well_linked w -> exec fuel o w = Ok w' -> well_linked w'.
Proof.
  intros Hw. destruct o as [x y|self c|self p|alias tn| | |x y|item|]; simpl.
  - intros H. by apply add_kind_of_well_linked in H as [? _].
  - intros H. eapply well_linked_shrinks; [by eapply remove_child_shrinks|done].
  - intros H. eapply well_linked_shrinks; [by eapply remove_parent_shrinks|done].
  - unfold declare_alias. intros H. inv_bind H.
    apply update_names_renamed in Hb as [k Hk].
    eapply well_linked_renamed; [exact Hk|].
    unfold make_alias in Ha. inv_bind Ha.
    destruct (aliases w !! alias); inversion Hab; subst; done.
  - intros H. apply update_names_renamed in H as [k Hk]. by eapply well_linked_renamed.
  - intros H. eapply well_linked_shrinks; [by eapply prune_tree_shrinks|done].
  - unfold is_kind_of. intros H. inv_bind H. inv_bind Ha. destruct r0 as [p|].
    + inv_bind Hab. destruct r0; inversion Habb; subst; inversion Hb; subst; done.
    + inversion Hab; subst. inversion Hb; subst. done.
  - unfold what_is. intros H. inv_bind H. destruct r as [i|].
    + apply what_is_term_frame in Hb as [Hh _]. eapply well_linked_ext; [exact Hh|].
      by case_decide.
    + inversion Hb; subst. done.
  - unfold get_terms, list_reduce_noarg. intros H. inv_bind H. inv_bind Ha.
    inv_bind Haa. inversion Haab; subst. inversion Hab; subst. inversion Hb; subst. done.
Qed.

Lemma reachable_well_linked (allowed : op -> Prop) w :
  reachable allowed w -> well_linked w.
Proof.
  induction 1 as [|w w' o fuel _ IH _ Hrun]; [apply well_linked_init|].
  by eapply exec_well_linked.
Qed.
End well_linked_facts.

(** * Unlinking an edge, in the states the operations reach *)

(** C9 (amended): in every state the public operations reach, on an
    existing edge between P and C, remove_parent called on C takes C
    out of P's children and P out of C's parents; remove_child called on
    P takes C out of P's children only, and P is still listed among C's
    parents afterwards. *)
Theorem remove_parent_unlinks_remove_child_half_unlinks
  (w : KB) (P C : addr) (fuel : nat) (argP argC : string + addr) :
  reachable any_op w ->
  has_edge w P C ->
  denotes fuel w argP P -> denotes fuel w argC C ->
  (exists w', remove_parent fuel C argP w = Ok w' /\
     (C ∉ children (tm w' P)) /\ (P ∉ parents (tm w' C))) /\
  (exists w', remove_child fuel P argC w = Ok w' /\
     (C ∉ children (tm w' P)) /\ (P ∈ parents (tm w' C))).
Proof.
  intros Hreach [Hc Hp] HdP HdC.
  destruct (reachable_well_linked _ _ Hreach) as [_ Hw].
  destruct (Hw P) as (HndP & _ & HrP & _), (Hw C) as (_ & HndC & _ & HrC).
  specialize (HrP C Hc). specialize (HrC P Hp). split.
  - eexists. split; [by apply remove_parent_denotes|].
    rewrite children_unlink_parent, parents_unlink_parent.
    rewrite !decide_True by done.
    split; by apply list_remove_first_NoDup.
  - eexists. split; [by apply remove_child_denotes|].
    rewrite children_unlink_child, parents_unlink_child.
    rewrite decide_True by done.
    split; [by apply list_remove_first_NoDup|done].
Qed.

(** C9, counterexample: with the single term a under the root,
    remove_child on the root with the name a empties the root's children
    but a still lists the root as its parent. *)
Lemma remove_child_keeps_parent_link :
  exists w w', kb_one_child 10 = Ok w /\ has_edge w 0 1 /\
    remove_child 10 0 (inl "a") w = Ok w' /\
    children (tm w' 0) = [] /\ parents (tm w' 1) = [0].
Proof.
  eexists. eexists. split; [vm_compute; reflexivity|].
  split; [split; vm_compute; set_solver|].
  split; [vm_compute; reflexivity|]. done.
Qed.

Lemma remove_parent_unlinks_remove_child_half_unlinks_witness :
  exists w, kb_one_child 10 = Ok w /\
  (exists w', remove_parent 10 1 (inl "object") w = Ok w' /\
     (1 ∉ children (tm w' 0)) /\ (0 ∉ parents (tm w' 1))) /\
  (exists w', remove_child 10 0 (inr 1) w = Ok w' /\
     (1 ∉ children (tm w' 0)) /\ (0 ∈ parents (tm w' 1))).
Proof.
  eexists. split; [vm_compute; reflexivity|].
  apply remove_parent_unlinks_remove_child_half_unlinks.
  - eapply (session_reachable any_op 10 [OpAddRelationship "a" "object"]);
      [by repeat constructor|apply reachable_init|vm_compute; reflexivity].
  - split; vm_compute; set_solver.
  - vm_compute. reflexivity.
  - reflexivity.
Defined.

(** * The root invariant *)

(** C8 (amended): in every state reached from the initial knowledge base
    by the public operations, as long as object is never given as the
    child of add_relationship nor as the alias or the target of an alias
    declaration, the root term is named object, it has no parents, and
    it is the only term of that name. *)
Theorem root_invariant_when_root_spared (w : KB) :
  reachable spares_root w -> root_invariant w.
Proof. intros H. by apply reachable_root_safe. Qed.

Lemma root_invariant_when_root_spared_witness :
  reachable spares_root kb_diamond /\ root_invariant kb_diamond.
Proof.
  assert (H : reachable spares_root kb_diamond).
  { eapply session_reachable; [|apply reachable_init|apply (diamond_runs 0)].
    repeat constructor; simpl; discriminate. }
  split; [exact H|]. apply (root_invariant_when_root_spared kb_diamond H).
Defined.

(** C8, counterexample: (1) declaring object an alias for thing renames
    the root, after which no term is named object; (2) declaring thing,
    a term under the root, an alias for object leaves two terms named
    object, the second with a parent. *)
Lemma root_renamed_or_duplicated_by_alias :
  (exists w, reachable any_op w /\
     forall a, name (tm w a) ≠ "object") /\
  (exists w, reachable any_op w /\
     name (tm w 0) = "object" /\ name (tm w 1) = "object" /\ parents (tm w 1) = [0]).
Proof.
  split.
  - exists (mkKB [mkTerm "thing" [] []] {["object" := "thing"]} [] []). split.
    + eapply (session_reachable any_op 5 [OpDeclareAlias "object" "thing"]);
        [by repeat constructor|apply reachable_init|].
      vm_compute. reflexivity.
    + intros [|a]; vm_compute; discriminate.
  - eexists. split.
    + eapply (session_reachable any_op 10
               [OpAddRelationship "thing" "object"; OpDeclareAlias "thing" "object"]);
        [by repeat constructor|apply reachable_init|].
      vm_compute. reflexivity.
    + done.
Qed.

(** * Sessions on which the code departs from its purpose *)

(** C4: with the aliases a -> b -> c -> d and the term c under the root,
    a first "a is a kind of y" finds c through the name a (one level
    down, after two alias steps) and moves it under the new term y; the
    same call repeated no longer finds c (two levels down, the third
    alias step turns the name into d), creates a new term a and links it
    under y: the second call changes the graph. *)
Theorem add_kind_of_twice_differs (f : nat) :
  exists w1 w2,
    chained_alias_session (20 + f) = Ok w1 /\
    add_kind_of (20 + f) "a" "y" w1 = Ok w2 /\
    heap w1 = [mkTerm "object" [2] [];
               mkTerm "c" [] [2];
               mkTerm "y" [1] [0]] /\
    heap w2 = [mkTerm "object" [2] [];
               mkTerm "c" [] [2];
               mkTerm "y" [1; 3] [0];
               mkTerm "a" [] [2]].
Proof.
  eexists. eexists. split; [vm_compute; reflexivity|].
  split; [vm_compute; reflexivity|]. done.
Qed.

(** C5: with y declared an alias for the unknown name t, no term answers
    to the name y; "a is a kind of y" prints the warning, creates the
    term y under the root, looks y up again (as t), finds nothing and
    raises AttributeError on [superobj.add_child]. *)
Theorem add_kind_of_unknown_alias_parent_raises (f : nat) :
  exists w,
    dangling_alias_session (20 + f) = Ok w /\
    heap w = [mkTerm "object" [] []] /\
    traverse (20 + f) w obj "y" = Ok None /\
    add_kind_of (20 + f) "a" "y" w = Raise AttributeError.
Proof.
  eexists. split; [vm_compute; reflexivity|].
  split; [done|]. split; vm_compute; reflexivity.
Qed.


(** C10: d is under m, m under x, and the term x bears an alias key as
    its name.  "d is a kind of n" (n resolves to x) inserts the parent
    link d-x and runs the pruning pass from the root; the pass sees that
    the link is redundant, asks to remove the parent named x, the lookup
    of x fails (it searches for t), "FATAL: Item does not exist." is
    printed and the link stays: d keeps the parents m and x, and the
    chain x, object of the second is a strict suffix of the chain m, x,
    object of the first. *)
Theorem prune_leaves_redundant_edge (f : nat) :
  exists w1 w2,
    alias_key_term_session (20 + f) = Ok w1 /\
    parents (tm w1 3) = [2] /\
    add_kind_of (20 + f) "d" "n" w1 = Ok w2 /\
    heap w2 = [mkTerm "object" [1] [];
               mkTerm "x" [2; 3] [0];
               mkTerm "m" [3] [1];
               mkTerm "d" [] [2; 1]] /\
    stdout w2 = ["FATAL: Item does not exist."; "FATAL: Item does not exist."] /\
    reach w2 obj 3 /\
    ~ minimal_at (20 + f) w2 3.
Proof.
  eexists. eexists. split; [vm_compute; reflexivity|].
  split; [done|]. split; [vm_compute; reflexivity|].
  split; [done|]. split; [done|]. split.
  - apply (rtc_l _ _ 1); [vm_compute; set_solver|].
    apply (rtc_l _ _ 3); [vm_compute; set_solver|apply rtc_refl].
  - intros Hmin.
    apply (Hmin [["m"; "x"; "object"]; ["x"; "object"]] (ltac:(vm_compute; reflexivity))
                ["x"; "object"] ["m"; "x"; "object"]); [set_solver|set_solver|].
    exists ["m"]. done.
Qed.

(** * Two facts around the failing sessions *)

(** Re-adding an edge that is present is a no-op: when x and y resolve
    to terms and the term of y already has a child with the name of the
    term of x, nothing changes and nothing is printed. *)
Lemma add_kind_of_present_edge_noop (f : nat) (w : KB) (x y : string) (a s : addr) :
  traverse f w obj x = Ok (Some a) ->
  traverse f w obj y = Ok (Some s) ->
  has_name w (name (tm w a)) (children (tm w s)) = true ->
  add_kind_of (S f) x y w = Ok w.
Proof.
  intros Hx Hy Hedge. simpl. rewrite Hx. simpl. rewrite Hy. simpl.
  unfold add_child. by rewrite Hedge.
Qed.

(** With the root linked under its own child, the ancestry of either
    term is never computed. *)
Lemma get_ancestry_cycle (f : nat) (a : addr) :
  a < 2 -> get_ancestry f kb_root_under_child a = OutOfFuel.
Proof.
  revert a. induction f as [|f IH]; intros a Ha; [done|].
  destruct a as [|[|a]]; [| |lia].
  - change (get_ancestry (S f) kb_root_under_child 0)
      with (alist ← (subs ← get_ancestry f kb_root_under_child 1;
                     Ok ([] ++ [ANode "y" subs]));
            Ok alist).
    by rewrite IH by lia.
  - change (get_ancestry (S f) kb_root_under_child 1)
      with (alist ← (subs ← get_ancestry f kb_root_under_child 0;
                     Ok ([] ++ [ANode "object" subs]));
            Ok alist).
    by rewrite IH by lia.
Qed.

Lemma prune_tree_cycle (f : nat) : prune_tree f obj kb_root_under_child = OutOfFuel.
Proof.
  destruct f as [|f]; [done|].
  change (prune_tree (S f) obj kb_root_under_child)
    with (w1 ← (l1 ← get_ancestry f kb_root_under_child obj;
                prune_outer f obj l1 kb_root_under_child);
          prune_children f obj 0 w1).
  by rewrite get_ancestry_cycle by (unfold obj; lia).
Qed.

(** "object is a kind of y", for an unknown y, from the initial
    knowledge base: the call creates y under the root, links the root
    under y and never returns from the pruning pass, whatever the
    recursion budget. *)
Lemma add_kind_of_root_as_child_diverges (fuel : nat) :
  add_kind_of fuel "object" "y" init = OutOfFuel.
Proof.
  do 8 (destruct fuel as [|fuel]; [vm_compute; reflexivity|]).
  rewrite add_kind_of_step.
  assert (H1 : forall f, traverse (S f) init obj "object" = Ok (Some 0)) by done.
  assert (H2 : forall f, traverse (S f) init obj "y" = Ok None) by done.
  rewrite H1. cbn [mbind result_bind]. rewrite H2. cbn [mbind result_bind].
  match goal with
  | |- context [add_kind_of ?f "y" "object" ?w] =>
    assert (H3 : add_kind_of f "y" "object" w =
                 Ok (mkKB [mkTerm "object" [1] []; mkTerm "y" [] [0]] ∅ [] (stdout kb_root_under_child)))
      by (vm_compute; reflexivity);
    rewrite H3
  end.
  cbn [mbind result_bind].
  match goal with
  | |- context [traverse ?f ?w obj "y"] =>
    assert (H4 : traverse f w obj "y" = Ok (Some 1)) by (vm_compute; reflexivity);
    rewrite H4
  end.
  cbn [mbind result_bind].
  match goal with
  | |- context [add_child ?f 1 0 ?w] =>
    assert (H5 : add_child f 1 0 w =
                 (w2 ← prune_tree f obj kb_root_under_child; Ok (true, w2)))
      by reflexivity;
    rewrite H5
  end.
  by rewrite prune_tree_cycle.
Qed.

(** * Further properties of the lookup by name *)

Lemma iter_resolve_fix (al : gmap string string) (nm : string) (k : nat) :
  al !! nm = None -> Nat.iter k (resolve al) nm = nm.
Proof.
  intros H. induction k as [|k IH]; [done|].
  simpl. rewrite IH. unfold resolve. by rewrite H.
Qed.

Lemma resolve_fix (al : gmap string string) (nm : string) :
  al !! nm = None -> resolve al nm = nm.
Proof. intros H. unfold resolve. by rewrite H. Qed.

(** For a name that is no alias, the lookup below [a] can find exactly
    the terms of that name reachable from [a]. *)
Lemma findable_plain (w : KB) (a b : addr) (nm : string) :
  aliases w !! nm = None ->
  findable w a nm b <-> reach w a b /\ name (tm w b) = nm.
Proof.
  intros Hnm. pose proof (resolve_fix _ _ Hnm) as Hfix. split.
  - induction 1 as [a nm Hn|a nm c b Hc Hf IH].
    + split; [apply rtc_refl|]. by rewrite Hn.
    + rewrite Hfix in IH. destruct (IH Hnm Hfix) as [Hr Hn].
      split; [|done]. eapply rtc_l; [exact Hc|done].
  - intros [Hr Hn]. induction Hr as [a|a c b Hc Hr IH].
    + apply findable_here. by rewrite Hfix.
    + eapply findable_below; [exact Hc|]. rewrite Hfix. by apply IH.
Qed.

(** X1: whatever term a lookup returns is reachable from the term the
    lookup started at through child links, and it bears the name looked
    up, taken at least once through the alias table; for a name that is
    no alias it bears that very name. *)
Theorem traverse_returns_a_reachable_term_of_that_name
  (w : KB) (fuel : nat) (a : addr) (nm : string) (b : addr) :
  traverse fuel w a nm = Ok (Some b) ->
  reach w a b /\
  (exists k, 1 <= k /\ name (tm w b) = Nat.iter k (resolve (aliases w)) nm) /\
  (aliases w !! nm = None -> name (tm w b) = nm).
Proof.
  intros H. apply traverse_sound in H as (Hr & Hf & k & Hk & Hn).
  split; [done|]. split; [by exists k|].
  intros Hnm. by rewrite Hn, iter_resolve_fix.
Qed.

Lemma traverse_returns_a_reachable_term_of_that_name_witness :
  traverse 5 kb_diamond obj "t" = Ok (Some 4) /\
  reach kb_diamond obj 4 /\
  (exists k, 1 <= k /\
     name (tm kb_diamond 4) = Nat.iter k (resolve (aliases kb_diamond)) "t") /\
  (aliases kb_diamond !! "t" = None -> name (tm kb_diamond 4) = "t").
Proof.
  split; [reflexivity|].
  apply (traverse_returns_a_reachable_term_of_that_name kb_diamond 5 obj "t" 4).
  reflexivity.
Defined.

(** X2: on a graph without cycles, the lookup of a name that is no alias
    returns, and it returns None exactly when no term reachable from the
    starting term bears that name. *)
Theorem traverse_none_iff_no_reachable_term_of_that_name
  (w : KB) (ht : addr -> nat) (fuel : nat) (a : addr) (nm : string) :
  acyclic_down w ht -> ht a < fuel -> aliases w !! nm = None ->
  exists r, traverse fuel w a nm = Ok r /\
    (r = None <-> forall b, reach w a b -> name (tm w b) ≠ nm).
Proof.
  intros Hacyc Hfuel Hnm.
  destruct (traverse_total w ht Hacyc fuel a nm Hfuel) as [r Hr].
  exists r. split; [done|]. destruct r as [b|].
  - split; [done|]. intros Hno. exfalso.
    apply traverse_sound in Hr as (Hreach & Hf & _).
    apply findable_plain in Hf as [_ Hn]; [|done]. by apply (Hno b).
  - split; [|done]. intros _ b Hreach Hn.
    destruct (traverse_found w ht Hacyc fuel a nm b Hfuel) as [b' Hb'].
    + apply findable_plain; done.
    + congruence.
Qed.

Lemma traverse_none_iff_no_reachable_term_of_that_name_witness :
  exists r, traverse 5 kb_diamond obj "plant" = Ok r /\
    (r = None <-> forall b, reach kb_diamond obj b -> name (tm kb_diamond b) ≠ "plant").
Proof.
  apply (traverse_none_iff_no_reachable_term_of_that_name
           kb_diamond (fun a => 4 - a) 5 obj "plant").
  - apply kb_diamond_acyclic_down.
  - vm_compute. lia.
  - reflexivity.
Defined.

(** * Further properties of list_reduce and get_terms *)

Lemma list_reduce_extends (fuel : nat) (w : KB) (self : addr) (acc acc' : list addr) :
  list_reduce fuel w self acc = Ok acc' -> acc `prefix_of` acc'.
Proof.
  revert self acc acc'. induction fuel as [|f IH]; intros self acc acc'; [done|].
  simpl.
  apply (for_each_inv (fun s => acc `prefix_of` s)).
  - intros c s s' _ Hs Hc. etrans; [exact Hs|]. by eapply IH.
  - destruct (memb self acc); [done|]. by apply prefix_app_r.
Qed.

(** X3: on a graph without cycles, list_reduce called on an accumulator
    without repetitions returns that accumulator followed by the terms
    reachable from the starting term that it did not hold yet, each of
    them once. *)
Theorem list_reduce_appends_the_unseen_reachable_terms
  (w : KB) (ht : addr -> nat) (fuel : nat) (self : addr) (acc : list addr) :
  acyclic_down w ht -> ht self < fuel -> NoDup acc ->
  exists new, list_reduce fuel w self acc = Ok (acc ++ new) /\
    NoDup new /\
    forall b, b ∈ new <-> reach w self b /\ b ∉ acc.
Proof.
  intros Hacyc Hfuel Hnd.
  destruct (list_reduce_spec w ht Hacyc fuel self acc Hfuel Hnd)
    as (acc' & Hrun & Hnd' & Hmem).
  destruct (list_reduce_extends _ _ _ _ _ Hrun) as [new ->].
  exists new. split; [done|].
  apply NoDup_app in Hnd' as (_ & Hdisj & Hnew). split; [done|].
  intros b. split.
  - intros Hb. assert (Hnot : b ∉ acc) by (intros Hacc; by apply (Hdisj b)).
    split; [|done].
    destruct (proj1 (Hmem b)) as [?|?]; [set_solver|done|done].
  - intros [Hr Hnot].
    assert (Hb : b ∈ acc ++ new) by (apply Hmem; by right).
    apply elem_of_app in Hb as [?|?]; done.
Qed.

Lemma list_reduce_appends_the_unseen_reachable_terms_witness :
  exists new, list_reduce 5 kb_diamond obj [3] = Ok ([3] ++ new) /\
    NoDup new /\
    forall b, b ∈ new <-> reach kb_diamond obj b /\ b ∉ [3].
Proof.
  apply (list_reduce_appends_the_unseen_reachable_terms
           kb_diamond (fun a => 4 - a) 5 obj [3]).
  - apply kb_diamond_acyclic_down.
  - vm_compute. lia.
  - apply NoDup_singleton.
Defined.

Lemma append_missing_extends (keys terms : list string) :
  terms `prefix_of`
    foldl (fun terms alias =>
             if bool_decide (alias ∈ terms) then terms else terms ++ [alias])
          terms keys.
Proof.
  revert terms. induction keys as [|k keys IH]; intros terms; simpl; [done|].
  case_bool_decide; [apply IH|].
  etrans; [|apply IH]. by apply prefix_app_r.
Qed.

(** X4: the list get_terms walks into outlives the call.  A term that
    is in it is named by every later call, reachable or not, and stays in
    it; the list only ever grows at its end. *)
Theorem get_terms_names_every_term_listed_before
  (w : KB) (fuel : nat) (ts : list string) (w' : KB) (t : addr) :
  get_terms fuel w = Ok (ts, w') ->
  t ∈ list_reduce_default w ->
  name (tm w t) ∈ ts /\
  list_reduce_default w `prefix_of` list_reduce_default w'.
Proof.
  unfold get_terms, list_reduce_noarg. intros H Ht.
  inv_bind H. inv_bind Ha. inversion Hab; subst; clear Hab.
  inversion Hb; subst; clear Hb. simpl.
  pose proof (list_reduce_extends _ _ _ _ _ Haa) as Hpre.
  split; [|done].
  eapply elem_of_prefix; [|apply append_missing_extends].
  apply list_elem_of_fmap. exists t. split; [done|].
  by eapply elem_of_prefix.
Qed.

Lemma get_terms_names_every_term_listed_before_witness :
  get_terms 5 kb_after_removal = Ok (["object"; "a"], kb_after_removal) /\
  ~ reach kb_after_removal obj 1 /\
  name (tm kb_after_removal 1) ∈ ["object"; "a"] /\
  list_reduce_default kb_after_removal `prefix_of` list_reduce_default kb_after_removal.
Proof.
  split; [reflexivity|]. split.
  - intros H. by apply reach_no_children in H.
  - apply (get_terms_names_every_term_listed_before
             kb_after_removal 5 ["object"; "a"] kb_after_removal 1); [reflexivity|].
    vm_compute. apply list_elem_of_further, list_elem_of_here.
Defined.

(** * Further properties of the pruning pass *)

(** X5: all the pruning pass does is remove links.  It creates no term,
    renames none, leaves the alias table alone, and every list of
    children or parents it leaves is what remains of the list before;
    hence whatever is reachable afterwards was reachable before. *)
Theorem prune_tree_only_removes_links (fuel : nat) (self : addr) (w w' : KB) :
  prune_tree fuel self w = Ok w' ->
  shrinks w w' /\ forall a b, reach w' a b -> reach w a b.
Proof.
  intros H. apply prune_tree_shrinks in H. split; [done|].
  intros a b. apply rtc_subrel. intros x y Hxy.
  destruct H as (_ & _ & Hl). destruct (Hl x) as (_ & Hc & _).
  unfold child_of in *. by eapply elem_of_sublist.
Qed.

Lemma prune_tree_only_removes_links_witness :
  exists w', prune_tree 20 obj kb_shortcut = Ok w' /\
    parents (tm w' 4) = [3] /\
    shrinks kb_shortcut w' /\ forall a b, reach w' a b -> reach kb_shortcut a b.
Proof.
  destruct (prune_tree 20 obj kb_shortcut) as [w'| |] eqn:E;
    [|vm_compute in E; discriminate..].
  exists w'. split; [done|]. split.
  - vm_compute in E. by inversion E.
  - exact (prune_tree_only_removes_links 20 obj kb_shortcut w' E).
Defined.

(** X6: on a graph without a cycle, neither through the children nor
    through the parents, the pruning pass started at the root returns. *)
Theorem prune_tree_returns_on_a_graph_without_cycles
  (w : KB) (ht dp : addr -> nat) (D K fuel : nat) :
  acyclic_down w ht -> acyclic_up w dp ->
  (forall a, dp a <= D) -> (forall a, length (children (tm w a)) <= K) ->
  prune_budget ht D K (ht obj) <= fuel ->
  exists w', prune_tree fuel obj w = Ok w'.
Proof.
  intros Hdown Hup HD HK Hfuel.
  destruct (prune_tree_total w ht dp D K Hdown Hup HD HK fuel obj Hfuel) as (w' & H & _).
  by exists w'.
Qed.

Lemma kb_shortcut_acyclic_down : acyclic_down kb_shortcut (fun a => 4 - a).
Proof. solve_links. Qed.

Lemma kb_shortcut_acyclic_up : acyclic_up kb_shortcut (fun a => a `min` 4).
Proof. solve_links. Qed.

Lemma prune_tree_returns_on_a_graph_without_cycles_witness :
  exists w', prune_tree 24 obj kb_shortcut = Ok w'.
Proof.
  apply (prune_tree_returns_on_a_graph_without_cycles
           kb_shortcut (fun a => 4 - a) (fun a => a `min` 4) 4 2 24).
  - apply kb_shortcut_acyclic_down.
  - apply kb_shortcut_acyclic_up.
  - intros a. lia.
  - intros a. do 5 (destruct a as [|a]; [vm_compute; lia|]). vm_compute. lia.
  - vm_compute. lia.
Defined.

(** * A term that is its own ancestor *)

Lemma for_each_no_raise {A S : Type} (body : A -> S -> result S) (l : list A) :
  (forall x s e, body x s ≠ Raise e) -> forall s e, for_each body l s ≠ Raise e.
Proof.
  intros Hbody. induction l as [|x l IH]; intros s e; simpl; [done|].
  destruct (body x s) as [s'|e'|] eqn:E; simpl; [apply IH| |done].
  by apply Hbody in E.
Qed.

Lemma get_ancestry_no_raise (fuel : nat) (w : KB) (a : addr) (e : exn) :
  get_ancestry fuel w a ≠ Raise e.
Proof.
  revert a e. induction fuel as [|f IH]; intros a e; [done|].
  simpl. apply for_each_no_raise. intros p s e'.
  destruct (get_ancestry f w p) as [subs|e''|] eqn:E; simpl; [done| |done].
  by apply IH in E.
Qed.

Lemma get_ancestry_of_ancestor (w : KB) (a b : addr) :
  tc (parent_of w) a b ->
  forall fuel l, get_ancestry fuel w a = Ok l ->
  exists fuel' l', fuel' < fuel /\ get_ancestry fuel' w b = Ok l'.
Proof.
  assert (Hstep : forall a p fuel l, parent_of w a p -> get_ancestry fuel w a = Ok l ->
            exists fuel' l', fuel' < fuel /\ get_ancestry fuel' w p = Ok l').
  { intros x p [|f] l Hp Hl; [done|].
    apply get_ancestry_unfold in Hl.
    apply list_elem_of_lookup in Hp as [i Hi].
    destruct (Forall2_lookup_l _ _ _ _ _ Hl Hi) as (an & _ & subs & Hsubs & _).
    exists f, subs. split; [lia|done]. }
  induction 1 as [a b Hab|a p b Hap _ IH]; intros fuel l Hl.
  - by eapply Hstep.
  - destruct (Hstep _ _ _ _ Hap Hl) as (f1 & l1 & Hlt & Hl1).
    destruct (IH _ _ Hl1) as (f2 & l2 & Hlt2 & Hl2).
    exists f2, l2. split; [lia|done].
Qed.

(** X7: for a term that is its own ancestor through the parent lists,
    get_ancestry does not return, whatever the recursion depth it is
    given, and so neither does the pruning pass started at that term. *)
Theorem get_ancestry_never_returns_on_a_cycle (w : KB) (a : addr) (fuel : nat) :
  tc (parent_of w) a a ->
  get_ancestry fuel w a = OutOfFuel /\ prune_tree fuel a w = OutOfFuel.
Proof.
  intros Hcyc.
  assert (Hno : forall fuel l, get_ancestry fuel w a ≠ Ok l).
  { clear fuel. intros fuel. induction (lt_wf fuel) as [fuel _ IH]. intros l Hl.
    destruct (get_ancestry_of_ancestor w a a Hcyc fuel l Hl) as (f' & l' & Hlt & Hl').
    by apply (IH f' Hlt l'). }
  assert (Hout : forall fuel, get_ancestry fuel w a = OutOfFuel).
  { intros f. destruct (get_ancestry f w a) as [l|e|] eqn:E; [|  |done].
    - by apply Hno in E.
    - by apply get_ancestry_no_raise in E. }
  split; [apply Hout|].
  destruct fuel as [|f]; [done|].
  simpl. unfold prune_own. by rewrite Hout.
Qed.

Lemma get_ancestry_never_returns_on_a_cycle_witness :
  tc (parent_of kb_root_under_child) obj obj /\
  get_ancestry 100 kb_root_under_child obj = OutOfFuel /\
  prune_tree 100 obj kb_root_under_child = OutOfFuel.
Proof.
  assert (H : tc (parent_of kb_root_under_child) obj obj).
  { eapply tc_l; [|apply tc_once]; vm_compute; apply list_elem_of_here. }
  split; [exact H|].
  exact (get_ancestry_never_returns_on_a_cycle kb_root_under_child obj 100 H).
Defined.

(** * Further properties of is_kind_of *)

Lemma iter_resolve_idem (al : gmap string string) (nm : string) (k : nat) :
  resolve al (resolve al nm) = resolve al nm -> 1 <= k ->
  Nat.iter k (resolve al) nm = resolve al nm.
Proof.
  intros Hidem Hk. destruct k as [|k]; [lia|]. clear Hk.
  induction k as [|k IH]; [done|].
  change (Nat.iter (S (S k)) (resolve al) nm)
    with (resolve al (Nat.iter (S k) (resolve al) nm)).
  by rewrite IH.
Qed.

(** X8: is_kind_of is reflexive on the names the lookup finds, as long
    as the name does not lead through two aliases in a row: if y is
    found, is_kind_of (y, y) is True, and the knowledge base is as it
    was. *)
Theorem is_kind_of_is_reflexive (w : KB) (fuel : nat) (y : string) (p : addr) :
  traverse fuel w obj y = Ok (Some p) ->
  resolve (aliases w) (resolve (aliases w) y) = resolve (aliases w) y ->
  is_kind_of fuel y y w = Ok (Some true, w).
Proof.
  intros Hy Hidem. unfold is_kind_of. rewrite Hy. simpl.
  pose proof Hy as Hs. apply traverse_sound in Hs as (_ & _ & k & Hk & Hn).
  rewrite iter_resolve_idem in Hn by done.
  destruct fuel as [|f]; [done|]. simpl.
  by rewrite decide_True.
Qed.

Lemma is_kind_of_is_reflexive_witness :
  traverse 5 kb_diamond obj "p" = Ok (Some 3) /\
  is_kind_of 5 "p" "p" kb_diamond = Ok (Some true, kb_diamond).
Proof.
  split; [reflexivity|].
  apply (is_kind_of_is_reflexive kb_diamond 5 "p" 3); reflexivity.
Defined.

Lemma acyclic_down_reach (w : KB) (ht : addr -> nat) (a b : addr) :
  acyclic_down w ht -> reach w a b -> ht b <= ht a.
Proof.
  intros Hacyc. induction 1 as [a|a c b Hc _ IH]; [done|].
  apply Hacyc in Hc. lia.
Qed.

(** X9: on a graph without cycles, when the parent name y is found and
    x is no alias, is_kind_of (x, y) returns without changing anything,
    and it is True exactly when some term named x is reachable, through
    child links, from the term found for y. *)
Theorem is_kind_of_decides_reachability_below_the_parent
  (w : KB) (ht : addr -> nat) (fuel : nat) (x y : string) (p : addr) :
  acyclic_down w ht -> ht obj < fuel -> aliases w !! x = None ->
  traverse fuel w obj y = Ok (Some p) ->
  exists b, is_kind_of fuel x y w = Ok (Some b, w) /\
    (b = true <-> exists t, reach w p t /\ name (tm w t) = x).
Proof.
  intros Hacyc Hfuel Hx Hy. unfold is_kind_of. rewrite Hy. simpl.
  pose proof Hy as Hs. apply traverse_sound in Hs as (Hreach & _).
  assert (Hp : ht p < fuel).
  { pose proof (acyclic_down_reach w ht obj p Hacyc Hreach). lia. }
  destruct (traverse_total w ht Hacyc fuel p x Hp) as [r Hr]. rewrite Hr. simpl.
  destruct r as [t|].
  - exists true. split; [done|]. split; [|done]. intros _.
    apply traverse_sound in Hr as (Hrt & Hf & _).
    apply findable_plain in Hf as [_ Hn]; [|done]. by exists t.
  - exists false. split; [done|]. split; [done|]. intros (t & Hrt & Hn). exfalso.
    destruct (traverse_found w ht Hacyc fuel p x t Hp) as [b' Hb'].
    + by apply findable_plain.
    + congruence.
Qed.

Lemma is_kind_of_decides_reachability_below_the_parent_witness :
  exists b, is_kind_of 5 "t" "g1" kb_diamond = Ok (Some b, kb_diamond) /\
    (b = true <-> exists t, reach kb_diamond 1 t /\ name (tm kb_diamond t) = "t").
Proof.
  apply (is_kind_of_decides_reachability_below_the_parent
           kb_diamond (fun a => 4 - a) 5 "t" "g1" 1).
  - apply kb_diamond_acyclic_down.
  - vm_compute. lia.
  - reflexivity.
  - reflexivity.
Defined.

(** * Further properties of what_is *)

Lemma only_prints_refl (w : KB) : only_prints w w.
Proof. by repeat split. Qed.

Lemma only_prints_trans (w1 w2 w3 : KB) :
  only_prints w1 w2 -> only_prints w2 w3 -> only_prints w1 w3.
Proof.
  intros (Hh & Ha & Hd & Hs) (Hh' & Ha' & Hd' & Hs').
  repeat split; [congruence..|by etrans].
Qed.

Lemma only_prints_print (line : string) (w : KB) : only_prints w (print line w).
Proof. repeat split. simpl. by apply prefix_app_r. Qed.

Lemma tm_only_prints (w w' : KB) (a : addr) : only_prints w w' -> tm w' a = tm w a.
Proof. intros (Hh & _). unfold tm. by rewrite Hh. Qed.

Lemma acyclic_up_only_prints (w w' : KB) (dp : addr -> nat) :
  only_prints w w' -> acyclic_up w dp -> acyclic_up w' dp.
Proof.
  intros Hop Hup a p. rewrite (tm_only_prints w w' a Hop). apply Hup.
Qed.

Lemma what_is_term_returns (w0 : KB) (dp : addr -> nat) (fuel : nat) :
  acyclic_up w0 dp ->
  forall item d w, dp item < fuel -> only_prints w0 w ->
  exists w', what_is_term fuel item d w = Ok w' /\ only_prints w w'.
Proof.
  intros Hup. induction fuel as [|f IH]; intros item d w Hlt Hw; [lia|].
  simpl.
  destruct (for_each_total (fun s => only_prints w s)
              (fun parent w1 =>
                 what_is_term f parent (S d)
                   (print (spaces d +:+ name (tm w1 item) +:+ " is a kind of "
                           +:+ name (tm w1 parent) +:+ ";") w1))
              (parents (tm w item))) with w as (w' & Hrun & Hop).
  - intros q s Hq Hs.
    assert (Hdq : dp q < f).
    { rewrite (tm_only_prints w0 w item Hw) in Hq. apply Hup in Hq. lia. }
    destruct (IH q (S d)
                (print (spaces d +:+ name (tm s item) +:+ " is a kind of "
                        +:+ name (tm s q) +:+ ";") s) Hdq) as (s' & Hs' & Hop').
    + eapply only_prints_trans; [exact Hw|].
      eapply only_prints_trans; [exact Hs|]. apply only_prints_print.
    + exists s'. split; [done|].
      eapply only_prints_trans; [exact Hs|].
      eapply only_prints_trans; [apply only_prints_print|done].
  - apply only_prints_refl.
  - by exists w'.
Qed.

(** X10: on a graph without cycles, a what_is query returns, and all it
    does is print: the terms, their links, the alias table and the list
    kept by list_reduce are untouched, and the lines already on the
    console stay in front of the new ones. *)
Theorem what_is_returns_and_only_prints
  (w : KB) (ht dp : addr -> nat) (fuel : nat) (item : string) :
  acyclic_down w ht -> acyclic_up w dp ->
  ht obj < fuel -> (forall a, dp a < fuel) ->
  exists w', what_is fuel item w = Ok w' /\ only_prints w w'.
Proof.
  intros Hdown Hup Hfuel Hdp. unfold what_is.
  destruct (traverse_total w ht Hdown fuel obj item Hfuel) as [r Hr]. rewrite Hr. simpl.
  destruct r as [i|].
  - set (w1 := if decide (name (tm w i) = item) then w
               else print (item +:+ " is an alias for " +:+ name (tm w i)) w).
    assert (Hw1 : only_prints w w1).
    { unfold w1. case_decide; [apply only_prints_refl|apply only_prints_print]. }
    destruct (what_is_term_returns w dp fuel Hup i 0 w1 (Hdp i) Hw1) as (w' & Hrun & Hop).
    exists w'. split; [done|]. by eapply only_prints_trans.
  - eexists. split; [done|]. apply only_prints_print.
Qed.

Lemma kb_diamond_acyclic_up_bounded : acyclic_up kb_diamond (fun a => a `min` 4).
Proof. solve_links. Qed.

Lemma what_is_returns_and_only_prints_witness :
  exists w', what_is 5 "t" kb_diamond = Ok w' /\ only_prints kb_diamond w'.
Proof.
  apply (what_is_returns_and_only_prints
           kb_diamond (fun a => 4 - a) (fun a => a `min` 4) 5 "t").
  - apply kb_diamond_acyclic_down.
  - apply kb_diamond_acyclic_up_bounded.
  - vm_compute. lia.
  - intros a. lia.
Defined.

(** * What the operations leave alone *)

Lemma keeps_names_refl (w : KB) : keeps_names w w.
Proof. by repeat split. Qed.

Lemma keeps_names_trans (w1 w2 w3 : KB) :
  keeps_names w1 w2 -> keeps_names w2 w3 -> keeps_names w1 w3.
Proof.
  intros (Ha & Hl & Hn) (Ha' & Hl' & Hn'). split; [congruence|]. split; [lia|].
  intros a Hlt. rewrite Hn' by lia. by apply Hn.
Qed.

Lemma keeps_names_shrinks (w w' : KB) : shrinks w w' -> keeps_names w w'.
Proof.
  intros (Hl & Ha & Hn). split; [done|]. split; [lia|].
  intros a _. by destruct (Hn a).
Qed.

Lemma keeps_names_only_prints (w w' : KB) : only_prints w w' -> keeps_names w w'.
Proof.
  intros Hop. pose proof Hop as (Hh & Ha & _). split; [done|]. split; [by rewrite Hh|].
  intros a _. by rewrite (tm_only_prints w w' a Hop).
Qed.

Lemma keeps_names_alloc (nm : string) (w : KB) : keeps_names w (alloc nm w).2.
Proof.
  split; [done|]. split; [rewrite length_alloc; lia|].
  intros a Hlt. by rewrite tm_alloc_old.
Qed.

Lemma keeps_names_set_children (a : addr) (cs : list addr) (w : KB) :
  keeps_names w (set_children a cs w).
Proof.
  split; [done|]. split; [by rewrite length_set_children|].
  intros b _. apply name_set_children.
Qed.

Lemma keeps_names_set_parents (a : addr) (ps : list addr) (w : KB) :
  keeps_names w (set_parents a ps w).
Proof.
  split; [done|]. split; [by rewrite length_set_parents|].
  intros b _. apply name_set_parents.
Qed.

Lemma add_parent_keeps_names fuel self parent w r :
  add_parent fuel self parent w = Ok r -> keeps_names w r.2.
Proof.
  unfold add_parent. destruct (has_name w _ _).
  - intros [= <-]. apply keeps_names_refl.
  - intros H. inv_bind H. inversion Hb; subst. simpl.
    eapply keeps_names_trans; [apply keeps_names_set_parents|].
    apply keeps_names_shrinks. by eapply prune_tree_shrinks.
Qed.

Lemma add_child_keeps_names fuel self child w r :
  add_child fuel self child w = Ok r -> keeps_names w r.2.
Proof.
  unfold add_child. destruct (has_name w _ _).
  - intros [= <-]. apply keeps_names_refl.
  - intros H. apply add_parent_keeps_names in H.
    eapply keeps_names_trans; [apply keeps_names_set_children|done].
Qed.

Lemma add_kind_of_keeps_names fuel x y w w' :
  add_kind_of fuel x y w = Ok w' -> keeps_names w w'.
Proof.
  revert x y w w'. induction fuel as [|f IH]; intros x y w w'; [done|].
  rewrite add_kind_of_step. intros H. inv_bind H.
  set (nw := match r with Some a => (a, w) | None => alloc x w end) in *.
  assert (Hnw : keeps_names w nw.2).
  { unfold nw. destruct r; [apply keeps_names_refl|apply keeps_names_alloc]. }
  destruct nw as [newobj w1]. simpl in Hnw.
  inv_bind Hb. inv_bind Hbb. destruct r1 as [superobj w2].
  assert (Hw2 : keeps_names w1 w2).
  { destruct r0 as [s|].
    - inversion Hbba; subst. apply keeps_names_refl.
    - inv_bind Hbba. inv_bind Hbbab. inversion Hbbabb; subst.
      apply IH in Hbbaa.
      eapply keeps_names_trans; [|exact Hbbaa].
      apply keeps_names_only_prints.
      eapply only_prints_trans; apply only_prints_print. }
  destruct superobj as [s|]; [|done].
  inv_bind Hbbb. inversion Hbbbb; subst.
  apply add_child_keeps_names in Hbbba.
  eapply keeps_names_trans; [exact Hnw|]. by eapply keeps_names_trans.
Qed.

Lemma is_kind_of_only_prints fuel x y w r :
  is_kind_of fuel x y w = Ok r -> only_prints w r.2.
Proof.
  unfold is_kind_of. intros H. inv_bind H. destruct r0 as [p|].
  - inv_bind Hb. destruct r0; inversion Hbb; subst; apply only_prints_refl.
  - inversion Hb; subst. apply only_prints_print.
Qed.

Lemma what_is_term_only_prints fuel item d w w' :
  what_is_term fuel item d w = Ok w' -> only_prints w w'.
Proof.
  revert item d w w'. induction fuel as [|f IH]; intros item d w w'; [done|].
  simpl. apply (for_each_inv (fun s => only_prints w s)); [|apply only_prints_refl].
  intros p s s' _ Hs Hp. apply IH in Hp.
  eapply only_prints_trans; [exact Hs|].
  eapply only_prints_trans; [apply only_prints_print|done].
Qed.

Lemma what_is_only_prints fuel item w w' :
  what_is fuel item w = Ok w' -> only_prints w w'.
Proof.
  unfold what_is. intros H. inv_bind H. destruct r as [i|].
  - apply what_is_term_only_prints in Hb.
    eapply only_prints_trans; [|exact Hb].
    case_decide; [apply only_prints_refl|apply only_prints_print].
  - inversion Hb; subst. apply only_prints_print.
Qed.

Lemma get_terms_frame fuel w r :
  get_terms fuel w = Ok r ->
  heap r.2 = heap w /\ aliases r.2 = aliases w /\ stdout r.2 = stdout w.
Proof.
  unfold get_terms, list_reduce_noarg. intros H. inv_bind H. inv_bind Ha.
  inversion Hab; subst. inversion Hb; subst. done.
Qed.

Lemma make_alias_frame fuel alias true_name w w' :
  make_alias fuel alias true_name w = Ok w' ->
  heap w' = heap w /\ list_reduce_default w' = list_reduce_default w /\
  stdout w' = stdout w /\
  (aliases w' = aliases w \/
   aliases w !! alias = None /\ exists v, aliases w' = <[alias := v]> (aliases w)).
Proof.
  unfold make_alias. intros H. inv_bind H.
  destruct (aliases w !! alias) eqn:E; inversion Hb; subst; simpl.
  - repeat split; by left.
  - repeat split. right. split; [done|]. by eexists.
Qed.

(** The operations of a session that do not declare an alias or run the
    rename pass. *)
Lemma exec_keeps_names fuel o w w' :
  (forall alias true_name, o ≠ OpDeclareAlias alias true_name) -> o ≠ OpRename ->
  exec fuel o w = Ok w' -> keeps_names w w'.
Proof.
  intros Hd Hr. destruct o as [x y|self c|self p|alias tn| | |x y|item|]; simpl.
  - apply add_kind_of_keeps_names.
  - intros H. apply keeps_names_shrinks. by eapply remove_child_shrinks.
  - intros H. apply keeps_names_shrinks. by eapply remove_parent_shrinks.
  - by destruct (Hd alias tn).
  - done.
  - intros H. apply keeps_names_shrinks. by eapply prune_tree_shrinks.
  - intros H. inv_bind H. inversion Hb; subst.
    apply keeps_names_only_prints. by eapply is_kind_of_only_prints.
  - intros H. apply keeps_names_only_prints. by eapply what_is_only_prints.
  - intros H. inv_bind H. inversion Hb; subst.
    apply get_terms_frame in Ha as (Hh & Ha & _).
    split; [done|]. split; [by rewrite Hh|]. intros a _. unfold tm. by rewrite Hh.
Qed.

Lemma exec_aliases fuel o w w' key v :
  exec fuel o w = Ok w' -> aliases w !! key = Some v -> aliases w' !! key = Some v.
Proof.
  intros H Hk.
  assert (Hren : forall w1 w2, update_names fuel obj w1 = Ok w2 -> aliases w2 = aliases w1).
  { intros w1 w2 Hu. apply update_names_renamed in Hu as [k ((_ & Ha & _) & _)]. done. }
  destruct o as [x y|self c|self p|alias tn| | |x y|item|].
  4:{ simpl in H. unfold declare_alias in H. inv_bind H.
      rewrite (Hren _ _ Hb).
      apply make_alias_frame in Ha as (_ & _ & _ & [->|[Hnone [v' ->]]]); [done|].
      rewrite lookup_insert_ne; [done|]. intros <-. congruence. }
  4:{ simpl in H. by rewrite (Hren _ _ H). }
  all: apply exec_keeps_names in H as [-> _]; done.
Qed.

(** X11: no operation removes an alias or changes what it stands for:
    an entry of the alias table is still there, with the same value,
    after any session. *)
Theorem no_session_changes_an_alias
  (fuel : nat) (ops : list op) (w w' : KB) (key v : string) :
  session fuel ops w = Ok w' ->
  aliases w !! key = Some v -> aliases w' !! key = Some v.
Proof.
  unfold session. intros H Hk.
  eapply (for_each_inv (fun s => aliases s !! key = Some v)); [|exact Hk|exact H].
  intros o s s' _ Hs Ho. by eapply exec_aliases.
Qed.

Lemma no_session_changes_an_alias_witness :
  exists w',
    session 40 [OpDeclareAlias "canine" "dog"; OpAddRelationship "dog" "t"; OpRename]
            kb_diamond_alias = Ok w' /\
    aliases kb_diamond_alias !! "p" = Some "pp" /\
    aliases w' !! "p" = Some "pp".
Proof.
  destruct (session 40 [OpDeclareAlias "canine" "dog"; OpAddRelationship "dog" "t"; OpRename]
              kb_diamond_alias) as [w'| |] eqn:E; [|vm_compute in E; discriminate..].
  exists w'. split; [done|]. split; [reflexivity|].
  exact (no_session_changes_an_alias 40 _ kb_diamond_alias w' "p" "pp" E eq_refl).
Defined.

(** X12: a term, once created, is never deleted, and only the rename
    pass ever changes a name: across a session that neither declares an
    alias nor runs the rename pass, every term is still there under the
    name it had, and the alias table is the same. *)
Theorem only_the_rename_pass_changes_a_name
  (fuel : nat) (ops : list op) (w w' : KB) :
  Forall (fun o => (forall alias true_name, o ≠ OpDeclareAlias alias true_name) /\
                   o ≠ OpRename) ops ->
  session fuel ops w = Ok w' ->
  aliases w' = aliases w /\ length (heap w) <= length (heap w') /\
  forall a, a < length (heap w) -> name (tm w' a) = name (tm w a).
Proof.
  unfold session. intros Hall H.
  eapply (for_each_inv (fun s => keeps_names w s)); [|apply keeps_names_refl|exact H].
  intros o s s' Ho Hs Hrun.
  rewrite Forall_forall in Hall. destruct (Hall o Ho) as [Hd Hr].
  eapply keeps_names_trans; [exact Hs|]. by eapply exec_keeps_names.
Qed.

Lemma only_the_rename_pass_changes_a_name_witness :
  exists w',
    session 30 [OpAddRelationship "u" "v"; OpRemoveChild obj (inl "g1"); OpPrune;
                OpWhatIs "t"; OpListTerms] kb_diamond = Ok w' /\
    aliases w' = aliases kb_diamond /\ length (heap kb_diamond) <= length (heap w') /\
    forall a, a < length (heap kb_diamond) -> name (tm w' a) = name (tm kb_diamond a).
Proof.
  destruct (session 30 [OpAddRelationship "u" "v"; OpRemoveChild obj (inl "g1"); OpPrune;
                        OpWhatIs "t"; OpListTerms] kb_diamond) as [w'| |] eqn:E;
    [|vm_compute in E; discriminate..].
  exists w'. split; [done|].
  refine (only_the_rename_pass_changes_a_name 30 _ kb_diamond w' _ E).
  repeat (apply Forall_cons; split; [split; [intros ??|]; discriminate|]).
  apply Forall_nil_2.
Defined.

(** * The rename pass, run twice *)

Lemma heap_ext (w1 w2 : KB) :
  length (heap w1) = length (heap w2) -> (forall a, tm w1 a = tm w2 a) ->
  heap w1 = heap w2.
Proof.
  intros Hlen Htm. apply list_eq. intros i.
  destruct (decide (i < length (heap w1))) as [Hlt|Hge].
  - destruct (lookup_lt_is_Some_2 (heap w1) i Hlt) as [t1 H1].
    destruct (lookup_lt_is_Some_2 (heap w2) i) as [t2 H2]; [lia|].
    specialize (Htm i). unfold tm, addr in Htm. rewrite H1, H2 in Htm. simpl in Htm.
    by rewrite H1, H2, Htm.
  - rewrite !lookup_ge_None_2; [done|lia..].
Qed.

Lemma update_names_frame fuel self w w' :
  update_names fuel self w = Ok w' ->
  list_reduce_default w' = list_reduce_default w /\ stdout w' = stdout w.
Proof.
  revert self w w'. induction fuel as [|f IH]; intros self w w'; [done|].
  simpl.
  apply (for_each_inv (fun s => list_reduce_default s = list_reduce_default w /\
                                stdout s = stdout w)).
  - intros c s s' _ [Hd Hs] Hc. apply IH in Hc as [-> ->]. done.
  - by destruct (aliases w !! name (tm w self)).
Qed.

Lemma resolve_flat (w : KB) (nm : string) :
  flat_aliases w ->
  resolve (aliases w) (resolve (aliases w) nm) = resolve (aliases w) nm.
Proof.
  intros Hflat. unfold resolve at 2 3.
  destruct (aliases w !! nm) as [v|] eqn:E; simpl.
  - apply resolve_fix. by eapply Hflat.
  - by apply resolve_fix.
Qed.

Lemma iter_fixpoint (al : gmap string string) (nm : string) (k : nat) :
  resolve al nm = nm -> Nat.iter k (resolve al) nm = nm.
Proof. intros H. induction k as [|k IH]; [done|]. simpl. by rewrite IH. Qed.

(** X13: when no alias stands for another alias, the rename pass is
    idempotent on a graph without cycles: run again on its own result,
    it returns that result unchanged. *)
Theorem update_names_twice_is_update_names_once
  (w : KB) (ht : addr -> nat) (fuel : nat) (w' : KB) :
  acyclic_down w ht -> ht obj < fuel -> flat_aliases w ->
  update_names fuel obj w = Ok w' ->
  update_names fuel obj w' = Ok w'.
Proof.
  intros Hacyc Hfuel Hflat H.
  destruct (update_names_renames w ht fuel Hacyc Hfuel)
    as (w1 & k & Hrun & Hlen & Hal & Hlinks & Hk1 & Hk0).
  rewrite Hrun in H. inversion H; subst w1; clear H.
  assert (Hacyc' : acyclic_down w' ht).
  { intros a c Hc. destruct (Hlinks a) as (Hch & _). rewrite Hch in Hc. by apply Hacyc. }
  destruct (update_names_renames w' ht fuel Hacyc' Hfuel)
    as (w2 & k2 & Hrun2 & Hlen2 & Hal2 & Hlinks2 & Hk1' & Hk0').
  rewrite Hrun2. f_equal.
  apply update_names_frame in Hrun2 as [Hd2 Hs2].
  assert (Htm : forall a, tm w2 a = tm w' a).
  { intros a. destruct (decide (a < length (heap w'))) as [Hlt|Hge].
    - destruct (Hlinks2 a) as (Hc & Hp & Hn).
      assert (Hname : name (tm w2 a) = name (tm w' a)).
      { destruct (decide (name (tm w2 a) = name (tm w' a))) as [|Hne]; [done|].
        exfalso.
        assert (Hnr : ~ ~ reach w' obj a).
        { intros Hnr. apply Hk0' in Hnr. rewrite Hn, Hnr in Hne. by apply Hne. }
        apply Hnr. intros Hr. apply Hne. rewrite Hn.
        apply iter_fixpoint.
        assert (Hr0 : reach w obj a).
        { eapply reach_same_children; [|exact Hr]. intros c. by destruct (Hlinks c) as (-> & _). }
        destruct (Hlinks a) as (_ & _ & Hn0). rewrite Hal, Hn0.
        rewrite iter_resolve_idem; [by apply resolve_flat|by apply resolve_flat|].
        apply Hk1; [done|lia]. }
      destruct (tm w2 a), (tm w' a); simpl in *; congruence.
    - rewrite !tm_out_of_range; [done|lia..]. }
  pose proof (heap_ext w2 w' Hlen2 Htm) as Hheap.
  destruct w2, w'; simpl in *; congruence.
Qed.

Lemma kb_diamond_alias_acyclic_down : acyclic_down kb_diamond_alias (fun a => 4 - a).
Proof. solve_links. Qed.

Lemma update_names_twice_is_update_names_once_witness :
  exists w', update_names 5 obj kb_diamond_alias = Ok w' /\
    name (tm w' 3) = "pp" /\
    update_names 5 obj w' = Ok w'.
Proof.
  destruct (update_names 5 obj kb_diamond_alias) as [w'| |] eqn:E;
    [|vm_compute in E; discriminate..].
  exists w'. split; [done|]. split.
  - vm_compute in E. by inversion E.
  - refine (update_names_twice_is_update_names_once
              kb_diamond_alias (fun a => 4 - a) 5 w' kb_diamond_alias_acyclic_down _ _ E).
    + vm_compute. lia.
    + intros key v Hk. change (aliases kb_diamond_alias) with ({["p" := "pp"]} : gmap string string) in *.
      apply lookup_singleton_Some in Hk as [<- <-]. reflexivity.
Defined.

(** * Term.print_tree *)

Lemma printed_nil (w : KB) : printed w [] = w.
Proof. destruct w. unfold printed. simpl. by rewrite app_nil_r. Qed.

Lemma printed_printed (w : KB) (l1 l2 : list string) :
  printed (printed w l1) l2 = printed w (l1 ++ l2).
Proof. unfold printed. simpl. by rewrite app_assoc. Qed.

Lemma print_printed (w : KB) (line : string) : print line w = printed w [line].
Proof. done. Qed.

Lemma tm_printed (w : KB) (lines : list string) (a : addr) : tm (printed w lines) a = tm w a.
Proof. done. Qed.

Lemma print_tree_spec (w0 : KB) (ht : addr -> nat) (fuel : nat) :
  acyclic_down w0 ht ->
  forall self d w, ht self < fuel -> heap w = heap w0 ->
  exists lines, print_tree fuel self d w = Ok (printed w lines) /\
    head lines = Some (tree_line (name (tm w0 self)) d) /\
    (forall b, reach w0 self b ->
       exists n, d <= n /\ tree_line (name (tm w0 b)) n ∈ lines) /\
    (forall l, l ∈ lines ->
       exists b n, reach w0 self b /\ d <= n /\ l = tree_line (name (tm w0 b)) n).
Proof.
  intros Hacyc. induction fuel as [|f IH]; intros self d w Hlt Hheap; [lia|].
  assert (Htm : forall w1 a, heap w1 = heap w0 -> tm w1 a = tm w0 a).
  { intros w1 a H1. unfold tm. by rewrite H1. }
  simpl. rewrite print_printed, tm_printed, !(Htm w) by done.
  assert (Hloop : forall cs w1,
    (forall c, c ∈ cs -> ht c < f) -> heap w1 = heap w0 ->
    exists lines, for_each (fun child => print_tree f child (S d)) cs w1
                  = Ok (printed w1 lines) /\
      (forall c b, c ∈ cs -> reach w0 c b ->
         exists n, S d <= n /\ tree_line (name (tm w0 b)) n ∈ lines) /\
      (forall l, l ∈ lines ->
         exists c b n, c ∈ cs /\ reach w0 c b /\ S d <= n /\
                       l = tree_line (name (tm w0 b)) n)).
  { induction cs as [|c cs IHcs]; intros w1 Hcs H1; simpl.
    - exists []. rewrite printed_nil. split; [done|]. split.
      + intros c b Hc. by apply elem_of_nil in Hc.
      + intros l Hl. by apply elem_of_nil in Hl.
    - destruct (IH c (S d) w1) as (l1 & -> & _ & Hall1 & Honly1);
        [apply Hcs; set_solver|done|].
      simpl.
      destruct (IHcs (printed w1 l1)) as (l2 & -> & Hall2 & Honly2);
        [intros; apply Hcs; set_solver|done|].
      exists (l1 ++ l2). rewrite printed_printed. split; [done|]. split.
      + intros c' b Hc' Hb. apply elem_of_cons in Hc' as [->|Hc'].
        * destruct (Hall1 b Hb) as (n & Hn & Hin). exists n. split; [done|]. set_solver.
        * destruct (Hall2 c' b Hc' Hb) as (n & Hn & Hin). exists n. split; [done|].
          set_solver.
      + intros l Hl. apply elem_of_app in Hl as [Hl|Hl].
        * destruct (Honly1 l Hl) as (b & n & Hb & Hn & ->).
          exists c, b, n. split; [set_solver|done].
        * destruct (Honly2 l Hl) as (c' & b & n & Hc' & Hb & Hn & ->).
          exists c', b, n. split; [set_solver|done]. }
  destruct (Hloop (children (tm w0 self)) (printed w [tree_line (name (tm w0 self)) d]))
    as (lines & -> & Hall & Honly); [|done|].
  { intros c Hc. specialize (Hacyc self c Hc). lia. }
  exists (tree_line (name (tm w0 self)) d :: lines).
  rewrite printed_printed. split; [done|]. split; [done|]. split.
  - intros b Hb. apply reach_unfold in Hb as [->|(c & Hc & Hb)].
    + exists d. split; [done|]. apply list_elem_of_here.
    + destruct (Hall c b Hc Hb) as (n & Hn & Hin). exists n. split; [lia|].
      by apply list_elem_of_further.
  - intros l Hl. apply elem_of_cons in Hl as [->|Hl].
    + exists self, d. split; [apply rtc_refl|done].
    + destruct (Honly l Hl) as (c & b & n & Hc & Hb & Hn & ->).
      exists b, n. split; [|split; [lia|done]].
      eapply rtc_l; [exact Hc|done].
Qed.

(** X14: on a graph without cycles print_tree returns, and all it does
    is print.  The first line is the line of the term it starts at, every
    term reachable from there has a line, and every line is the line of
    a reachable term. *)
Theorem print_tree_prints_the_reachable_terms
  (w : KB) (ht : addr -> nat) (fuel : nat) (self : addr) (d : nat) :
  acyclic_down w ht -> ht self < fuel ->
  exists lines, print_tree fuel self d w = Ok (printed w lines) /\
    head lines = Some (tree_line (name (tm w self)) d) /\
    (forall b, reach w self b ->
       exists n, d <= n /\ tree_line (name (tm w b)) n ∈ lines) /\
    (forall l, l ∈ lines ->
       exists b n, reach w self b /\ d <= n /\ l = tree_line (name (tm w b)) n).
Proof. intros Hacyc Hlt. by apply (print_tree_spec w ht fuel Hacyc). Qed.

Lemma print_tree_prints_the_reachable_terms_witness :
  exists lines, print_tree 5 obj 0 kb_diamond = Ok (printed kb_diamond lines) /\
    head lines = Some (tree_line (name (tm kb_diamond obj)) 0) /\
    (forall b, reach kb_diamond obj b ->
       exists n, 0 <= n /\ tree_line (name (tm kb_diamond b)) n ∈ lines) /\
    (forall l, l ∈ lines ->
       exists b n, reach kb_diamond obj b /\ 0 <= n /\
                   l = tree_line (name (tm kb_diamond b)) n).
Proof.
  apply (print_tree_prints_the_reachable_terms kb_diamond (fun a => 4 - a) 5 obj 0).
  - apply kb_diamond_acyclic_down.
  - vm_compute. lia.
Defined.

(** * Term.save_tree and the command save *)

Lemma write_links_app (w : KB) (file : string) (l1 l2 : list (addr * addr)) :
  write_links w file (l1 ++ l2) = write_links w (write_links w file l1) l2.
Proof. unfold write_links. by rewrite foldl_app. Qed.

(** The first loop of save_tree: the links of [self] not yet in the
    list, each once. *)
Lemma save_links_spec (w : KB) (self : addr) (file : string) (in_list : list (addr * addr)) :
  exists new,
    save_links w self (file, in_list) = (write_links w file new, in_list ++ new) /\
    NoDup new /\
    forall a p, (a, p) ∈ new <->
      a = self /\ p ∈ parents (tm w self) /\ (a, p) ∉ in_list.
Proof.
  unfold save_links.
  generalize (parents (tm w self)) as ps. intros ps. revert file in_list.
  induction ps as [|q ps IH]; intros file in_list; simpl.
  - exists []. rewrite app_nil_r. split; [done|]. split; [apply NoDup_nil_2|].
    intros a p. split; [by intros ?%elem_of_nil|]. by intros (_ & ?%elem_of_nil & _).
  - case_bool_decide as Hq.
    + destruct (IH file in_list) as (new & -> & Hnd & Hin).
      exists new. split; [done|]. split; [done|].
      intros a p. rewrite Hin. split; [set_solver|].
      intros (-> & Hp & Hnot). split; [done|]. split; [|done].
      apply elem_of_cons in Hp as [->|Hp]; [done|done].
    + destruct (IH (write_line file (link_line w self q)) (in_list ++ [(self, q)]))
        as (new & -> & Hnd & Hin).
      exists ((self, q) :: new). split.
      { f_equal. by rewrite <- app_assoc. }
      split.
      { apply NoDup_cons. split; [|done]. rewrite Hin. set_solver. }
      intros a p. rewrite elem_of_cons, Hin. split.
      * intros [[= -> ->]|(-> & Hp & Hnot)]; [set_solver|]. set_solver.
      * intros (-> & Hp & Hnot).
        destruct (decide (p = q)) as [->|Hne]; [by left|].
        right. split; [done|]. split; [set_solver|]. set_solver.
Qed.

Lemma save_tree_spec (w : KB) (ht : addr -> nat) (fuel : nat) :
  acyclic_down w ht ->
  forall self file in_list, ht self < fuel ->
  exists new,
    save_tree fuel w self (file, in_list) = Ok (write_links w file new, in_list ++ new) /\
    NoDup new /\
    forall a p, (a, p) ∈ new <->
      reach w self a /\ p ∈ parents (tm w a) /\ (a, p) ∉ in_list.
Proof.
  intros Hacyc. induction fuel as [|f IH]; intros self file in_list Hlt; [lia|].
  simpl.
  destruct (save_links_spec w self file in_list) as (new1 & -> & Hnd1 & Hin1).
  assert (Hloop : forall cs file0 in0,
    (forall c, c ∈ cs -> ht c < f) ->
    exists new,
      for_each (save_tree f w) cs (file0, in0)
      = Ok (write_links w file0 new, in0 ++ new) /\
      NoDup new /\
      forall a p, (a, p) ∈ new <->
        (exists c, c ∈ cs /\ reach w c a) /\ p ∈ parents (tm w a) /\ (a, p) ∉ in0).
  { induction cs as [|c cs IHcs]; intros file0 in0 Hcs; simpl.
    - exists []. rewrite app_nil_r. split; [done|]. split; [apply NoDup_nil_2|].
      intros a p. split; [by intros ?%elem_of_nil|].
      intros ((c & ?%elem_of_nil & _) & _). done.
    - destruct (IH c file0 in0) as (n1 & -> & Hn1 & Hi1); [apply Hcs; set_solver|].
      simpl.
      destruct (IHcs (write_links w file0 n1) (in0 ++ n1)) as (n2 & -> & Hn2 & Hi2);
        [intros; apply Hcs; set_solver|].
      exists (n1 ++ n2). rewrite write_links_app, app_assoc.
      split; [done|]. split.
      { apply NoDup_app. split; [done|]. split; [|done].
        intros [a p] H1 H2. apply Hi2 in H2 as (_ & _ & Hnot). set_solver. }
      intros a p. rewrite elem_of_app, Hi1, Hi2. split.
      + intros [(Hr & Hp & Hnot)|((c' & Hc' & Hr) & Hp & Hnot)].
        * split; [exists c; set_solver|done].
        * split; [exists c'; set_solver|]. split; [done|set_solver].
      + intros ((c' & Hc' & Hr) & Hp & Hnot).
        destruct (decide ((a, p) ∈ n1)) as [Hin|Hnin].
        * left. by apply Hi1.
        * apply elem_of_cons in Hc' as [->|Hc']; [left; done|].
          right. split; [by exists c'|]. split; [done|set_solver]. }
  destruct (Hloop (children (tm w self)) (write_links w file new1) (in_list ++ new1))
    as (new2 & -> & Hnd2 & Hin2).
  { intros c Hc. specialize (Hacyc self c Hc). lia. }
  exists (new1 ++ new2). rewrite write_links_app, app_assoc. split; [done|]. split.
  { apply NoDup_app. split; [done|]. split; [|done].
    intros [a p] H1 H2. apply Hin2 in H2 as (_ & _ & Hnot). set_solver. }
  intros a p. rewrite elem_of_app, Hin1, Hin2, (reach_unfold w self a). split.
  - intros [(-> & Hp & Hnot)|((c & Hc & Hr) & Hp & Hnot)].
    + split; [by left|done].
    + split; [right; by exists c|]. split; [done|set_solver].
  - intros ([->|(c & Hc & Hr)] & Hp & Hnot).
    + left. done.
    + destruct (decide ((a, p) ∈ new1)) as [Hin|Hnin].
      * left. by apply Hin1.
      * right. split; [by exists c|]. split; [done|set_solver].
Qed.

(** X15: on a graph without cycles, save_tree started at the root
    writes one line "child is a kind of parent" for every parent link of
    every term reachable from the root that the list it was handed does
    not hold yet, each once, and returns the list with exactly those
    links added. *)
Theorem save_tree_writes_every_new_link_once
  (w : KB) (ht : addr -> nat) (fuel : nat) (file : string) (in_list : list (addr * addr)) :
  acyclic_down w ht -> ht obj < fuel ->
  exists new,
    save_tree fuel w obj (file, in_list) = Ok (write_links w file new, in_list ++ new) /\
    NoDup new /\
    forall a p, (a, p) ∈ new <->
      reach w obj a /\ p ∈ parents (tm w a) /\ (a, p) ∉ in_list.
Proof. intros Hacyc Hlt. by apply (save_tree_spec w ht fuel Hacyc). Qed.

Lemma save_tree_writes_every_new_link_once_witness :
  exists new,
    save_tree 5 kb_diamond obj ("", [(3, 1)])
    = Ok (write_links kb_diamond "" new, [(3, 1)] ++ new) /\
    NoDup new /\
    forall a p, (a, p) ∈ new <->
      reach kb_diamond obj a /\ p ∈ parents (tm kb_diamond a) /\ (a, p) ∉ [(3, 1)].
Proof.
  apply (save_tree_writes_every_new_link_once kb_diamond (fun a => 4 - a) 5 "" [(3, 1)]).
  - apply kb_diamond_acyclic_down.
  - vm_compute. lia.
Defined.

(** X16: the list of links already written belongs to save_tree and
    outlives the command.  On a graph without cycles, a save that
    follows a save, the knowledge base being the same, writes no
    relationship at all: the file it leaves holds the alias lines only. *)
Theorem a_second_save_writes_no_relationship
  (W : World) (ht : addr -> nat) (fuel : nat) (W1 : World) :
  acyclic_down (kb W) ht -> ht obj < fuel ->
  save fuel W = Ran W1 ->
  kb W1 = kb W /\
  save fuel W1 = Ran (mkWorld (kb W) (save_tree_default W1)
                              (Some (save_aliases (kb W) ""))).
Proof.
  intros Hacyc Hlt. unfold save.
  destruct (save_tree_spec (kb W) ht fuel Hacyc obj "" (save_tree_default W) Hlt)
    as (new & -> & Hnd & Hin).
  simpl. intros [= <-]. simpl. split; [done|].
  destruct (save_tree_spec (kb W) ht fuel Hacyc obj "" (save_tree_default W ++ new) Hlt)
    as (new2 & -> & Hnd2 & Hin2).
  simpl.
  assert (new2 = []) as ->.
  { destruct new2 as [|[a p] new2]; [done|]. exfalso.
    destruct (proj1 (Hin2 a p)) as (Hr & Hp & Hnot); [apply list_elem_of_here|].
    apply Hnot. apply elem_of_app.
    destruct (decide ((a, p) ∈ save_tree_default W)) as [?|Hn]; [by left|].
    right. by apply Hin. }
  by rewrite app_nil_r.
Qed.

Lemma a_second_save_writes_no_relationship_witness :
  exists W1,
    save 5 (mkWorld kb_diamond [] None) = Ran W1 /\
    kb W1 = kb_diamond /\
    save 5 W1 = Ran (mkWorld kb_diamond (save_tree_default W1)
                             (Some (save_aliases kb_diamond ""))).
Proof.
  destruct (save 5 (mkWorld kb_diamond [] None)) as [W1| |] eqn:E;
    [|vm_compute in E; discriminate..].
  exists W1. split; [done|].
  apply (a_second_save_writes_no_relationship
           (mkWorld kb_diamond [] None) (fun a => 4 - a) 5 W1).
  - apply kb_diamond_acyclic_down.
  - vm_compute. lia.
  - exact E.
Defined.

(** * Strings *)

#[local] Arguments String.append !_ _ /.

Lemma string_app_nil_r (s : string) : s +:+ "" = s.
Proof. induction s as [|c s IH]; [done|]. cbn. by rewrite IH. Qed.

Lemma string_app_assoc (s1 s2 s3 : string) : (s1 +:+ s2) +:+ s3 = s1 +:+ s2 +:+ s3.
Proof. induction s1 as [|c s1 IH]; [done|]. cbn. by rewrite IH. Qed.

Lemma string_app_cons (c : Ascii.ascii) (s t : string) :
  String c s +:+ t = String c (s +:+ t).
Proof. done. Qed.

Lemma string_length_app (s t : string) :
  String.length (s +:+ t) = String.length s + String.length t.
Proof. induction s as [|c s IH]; [done|]. cbn. by rewrite IH. Qed.

Lemma string_app_eq_nil (s t : string) : s +:+ t = "" -> s = "" /\ t = "".
Proof. destruct s; [done|]. cbn. done. Qed.

Lemma string_app_eq_app (a b c d : string) :
  a +:+ b = c +:+ d ->
  exists e, (a = c +:+ e /\ d = e +:+ b) \/ (c = a +:+ e /\ b = e +:+ d).
Proof.
  revert c. induction a as [|x a IH]; intros c H.
  - exists c. right. done.
  - destruct c as [|y c].
    + exists (String x a). left. done.
    + cbn in H. injection H as -> H. destruct (IH c H) as (e & [[-> ->]|[-> ->]]).
      * exists e. by left.
      * exists e. by right.
Qed.

Lemma string_app_inv_length (a b c d : string) :
  a +:+ b = c +:+ d -> String.length a = String.length c -> a = c /\ b = d.
Proof.
  revert c. induction a as [|x a IH]; intros [|y c] H Hl; try done.
  cbn in H. injection H as -> H. cbn in Hl.
  destruct (IH c H) as [-> ->]; [lia|done].
Qed.

Lemma no_newline_app (s t : string) :
  no_newline (s +:+ t) = no_newline s && no_newline t.
Proof.
  induction s as [|c s IH]; [done|]. cbn. rewrite IH. by rewrite andb_assoc.
Qed.

Lemma strip_prefix_spec (t s r : string) : strip_prefix t s = Some r <-> s = t +:+ r.
Proof.
  revert s. induction t as [|a t IH]; intros s; simpl.
  - split; [by intros [= ->]|by intros ->].
  - destruct s as [|b s]; [done|]. case_decide as E.
    + subst b. rewrite IH. cbn. split; [by intros ->|by intros [= ->]].
    + split; [done|]. cbn. intros [= ? _]. done.
Qed.

Lemma strip_prefix_app (t r : string) : strip_prefix t (t +:+ r) = Some r.
Proof. by apply strip_prefix_spec. Qed.

(** * The group [.+] *)

Section dot_plus_facts.
Context {R : Type}.
Variable k : string -> string -> option R.

Lemma dot_plus_unfold (taken : string) (c : Ascii.ascii) (s : string) :
  dot_plus k taken (String c s) =
  let stop := if decide (taken = "") then None else k taken (String c s) in
  if decide (c = newline) then stop
  else match dot_plus k (taken +:+ String c "") s with
       | Some r => Some r
       | None => stop
       end.
Proof. done. Qed.

Lemma dot_plus_nil (taken : string) :
  dot_plus k taken "" = if decide (taken = "") then None else k taken "".
Proof. done. Qed.

Lemma app_one_ne (taken : string) (c : Ascii.ascii) (p : string) :
  taken +:+ String c p ≠ "".
Proof. destruct taken; done. Qed.

Lemma app_one_assoc (taken : string) (c : Ascii.ascii) (p : string) :
  (taken +:+ String c "") +:+ p = taken +:+ String c p.
Proof. by rewrite string_app_assoc. Qed.

Lemma dot_plus_None (taken s : string) :
  dot_plus k taken s = None ->
  forall p r, s = p +:+ r -> no_newline p = true -> taken +:+ p ≠ "" ->
  k (taken +:+ p) r = None.
Proof.
  revert taken. induction s as [|c s IH]; intros taken H p r Hs Hp Hne.
  - symmetry in Hs. apply string_app_eq_nil in Hs as [-> ->].
    rewrite string_app_nil_r in *. rewrite dot_plus_nil in H.
    by rewrite decide_False in H.
  - rewrite dot_plus_unfold in H. cbv zeta in H. destruct p as [|c' p].
    + simpl in Hs. subst r. rewrite string_app_nil_r in *.
      rewrite (decide_False (P := taken = "")) in H by done.
      destruct (decide (c = newline)); [done|].
      by destruct (dot_plus k _ s).
    + simpl in Hs. injection Hs as <- ->. simpl in Hp.
      apply andb_true_iff in Hp as [Hc Hp].
      apply negb_true_iff, bool_decide_eq_false in Hc.
      rewrite (decide_False (P := c = newline)) in H by done.
      destruct (dot_plus k (taken +:+ String c "") (p +:+ r)) eqn:E; [done|].
      specialize (IH _ E p r eq_refl Hp).
      rewrite app_one_assoc in IH. apply IH. apply app_one_ne.
Qed.

Lemma dot_plus_Some (taken s : string) (res : R) :
  dot_plus k taken s = Some res ->
  exists p r, s = p +:+ r /\ no_newline p = true /\ taken +:+ p ≠ "" /\
    k (taken +:+ p) r = Some res /\
    forall p' r', s = p' +:+ r' -> no_newline p' = true ->
      String.length p < String.length p' -> k (taken +:+ p') r' = None.
Proof.
  revert taken. induction s as [|c s IH]; intros taken H.
  - rewrite dot_plus_nil in H. destruct (decide (taken = "")) as [|Ht]; [done|].
    exists "", "". rewrite !string_app_nil_r. repeat split; try done.
    intros p' r' Hs _ Hl. symmetry in Hs. apply string_app_eq_nil in Hs as [-> _].
    simpl in Hl. lia.
  - rewrite dot_plus_unfold in H. cbv zeta in H.
    assert (Hstop : (if decide (taken = "") then None else k taken (String c s)) = Some res ->
              (forall p' r', String c s = p' +:+ r' -> no_newline p' = true ->
                 0 < String.length p' -> k (taken +:+ p') r' = None) ->
              exists p r, String c s = p +:+ r /\ no_newline p = true /\ taken +:+ p ≠ "" /\
                k (taken +:+ p) r = Some res /\
                forall p' r', String c s = p' +:+ r' -> no_newline p' = true ->
                  String.length p < String.length p' -> k (taken +:+ p') r' = None).
    { intros Hk Hlonger. destruct (decide (taken = "")) as [|Ht]; [done|].
      exists "", (String c s). rewrite !string_app_nil_r. repeat split; done. }
    destruct (decide (c = newline)) as [Hc|Hc].
    + apply Hstop; [done|]. intros p' r' Hs Hp Hl.
      destruct p' as [|c' p']; [simpl in Hl; lia|].
      simpl in Hs. injection Hs as <- _. simpl in Hp. subst c.
      by rewrite bool_decide_eq_true_2 in Hp.
    + destruct (dot_plus k (taken +:+ String c "") s) as [res'|] eqn:E.
      * injection H as ->.
        destruct (IH _ E) as (p & r & -> & Hp & Hne & Hk & Hmax).
        exists (String c p), r. rewrite app_one_assoc in Hk.
        split; [done|]. split.
        { simpl. rewrite Hp. by rewrite bool_decide_eq_false_2. }
        split; [apply app_one_ne|]. split; [done|].
        intros p' r' Hs Hp' Hl. destruct p' as [|c' p']; [simpl in Hl; lia|].
        simpl in Hs. injection Hs as <- Hs. simpl in Hp'.
        apply andb_true_iff in Hp' as [_ Hp']. simpl in Hl.
        specialize (Hmax p' r' Hs Hp'). rewrite app_one_assoc in Hmax.
        apply Hmax. lia.
      * apply Hstop; [done|]. intros p' r' Hs Hp' Hl.
        destruct p' as [|c' p']; [simpl in Hl; lia|].
        simpl in Hs. injection Hs as <- Hs. simpl in Hp'.
        apply andb_true_iff in Hp' as [_ Hp'].
        pose proof (dot_plus_None _ _ E p' r' Hs Hp') as Hn.
        rewrite app_one_assoc in Hn. apply Hn. apply app_one_ne.
Qed.

Lemma dot_plus_intro (taken s p r : string) (res : R) :
  s = p +:+ r -> no_newline p = true -> taken +:+ p ≠ "" ->
  k (taken +:+ p) r = Some res ->
  (forall p' r', s = p' +:+ r' -> no_newline p' = true ->
     String.length p < String.length p' -> k (taken +:+ p') r' = None) ->
  dot_plus k taken s = Some res.
Proof.
  intros Hs Hp Hne Hk Hmax.
  destruct (dot_plus k taken s) as [res'|] eqn:E.
  - apply dot_plus_Some in E as (p0 & r0 & Hs0 & Hp0 & Hne0 & Hk0 & Hmax0).
    destruct (lt_eq_lt_dec (String.length p) (String.length p0)) as [[Hlt|Heq]|Hgt].
    + rewrite (Hmax p0 r0 Hs0 Hp0 Hlt) in Hk0. done.
    + rewrite Hs in Hs0. apply string_app_inv_length in Hs0 as [<- <-]; [|done].
      congruence.
    + rewrite (Hmax0 p r Hs Hp Hgt) in Hk. done.
  - rewrite (dot_plus_None _ _ E p r Hs Hp Hne) in Hk. done.
Qed.

End dot_plus_facts.

(** * Patterns of two groups around a literal *)

Lemma line_end_false (t : string) :
  line_end t = false -> exists c t', t = String c t' /\ c ≠ newline.
Proof.
  destruct t as [|c t']; [done|]. simpl. intros H%bool_decide_eq_false. by exists c, t'.
Qed.

Lemma line_end_app (y rest : string) :
  y ≠ "" -> no_newline y = true -> line_end (y +:+ rest) = false.
Proof.
  destruct y as [|c y]; [done|]. simpl. intros _ H.
  apply andb_true_iff in H as [H _]. by apply negb_true_iff in H.
Qed.

(** A text that runs to the end of its line is the whole line. *)
Lemma first_line_unique (a r1 b r2 : string) :
  a +:+ r1 = b +:+ r2 -> no_newline a = true -> no_newline b = true ->
  line_end r1 = true -> line_end r2 = true -> a = b /\ r1 = r2.
Proof.
  intros H Ha Hb H1 H2.
  destruct (string_app_eq_app _ _ _ _ H) as (e & [[-> ->]|[-> ->]]).
  - destruct e as [|c e]; [by rewrite string_app_nil_r|]. exfalso.
    rewrite no_newline_app in Ha. apply andb_true_iff in Ha as [_ Ha].
    simpl in Ha, H2. rewrite H2 in Ha. done.
  - destruct e as [|c e]; [by rewrite string_app_nil_r|]. exfalso.
    rewrite no_newline_app in Hb. apply andb_true_iff in Hb as [_ Hb].
    simpl in Hb, H1. rewrite H1 in Hb. done.
Qed.

Section split_pattern.
Variables g1 sep g2 : string.

(** The last group takes the rest of the line, which must not be
    empty. *)
Lemma last_group (groups : list (string * string)) (s : string)
  (m : list (string * string)) :
  dot_plus (fun taken _ => Some ((g2, taken) :: groups)) "" s = Some m <->
  exists y rest, s = y +:+ rest /\ plain y /\ line_end rest = true /\
                 m = (g2, y) :: groups.
Proof.
  split.
  - intros H. apply dot_plus_Some in H as (y & rest & -> & Hy & Hne & [= <-] & Hmax).
    exists y, rest. simpl in Hne. split; [done|]. split; [done|]. split; [|done].
    destruct (line_end rest) eqn:E; [done|]. exfalso.
    apply line_end_false in E as (c & t' & -> & Hc).
    specialize (Hmax (y +:+ String c "") t'). rewrite string_app_assoc in Hmax.
    discriminate Hmax; [done| |].
    + rewrite no_newline_app, Hy. simpl. by rewrite bool_decide_eq_false_2.
    + rewrite string_length_app. simpl. lia.
  - intros (y & rest & -> & [Hne Hy] & Hrest & ->).
    apply (dot_plus_intro _ "" _ y rest); try done.
    intros p' r' Hs Hp' Hl. exfalso.
    destruct (first_line_unique y rest p' r') as [-> _]; try done; [|lia].
    (* r' ends the line as well: otherwise p' would not be the longer *)
    destruct (string_app_eq_app _ _ _ _ Hs) as (e & [[-> ->]|[-> ->]]).
    + rewrite string_length_app in Hl. lia.
    + destruct e as [|c e]; [rewrite string_app_nil_r in Hl; lia|].
      rewrite no_newline_app in Hp'. apply andb_true_iff in Hp' as [_ Hp'].
      simpl in Hp', Hrest. rewrite Hrest in Hp'. done.
Qed.

Lemma split_match_unfold (s : string) :
  re_match [Group g1; Lit sep; Group g2] s =
  dot_plus (fun taken s' =>
              match strip_prefix sep s' with
              | Some s'' => dot_plus (fun taken' _ => Some [(g2, taken'); (g1, taken)]) "" s''
              | None => None
              end) "" s.
Proof. done. Qed.

(** The pattern matches when the first line of the text has the
    literal with something on either side of it, and it splits the line
    at the last such place. *)
Lemma split_match (s : string) (m : list (string * string)) :
  re_match [Group g1; Lit sep; Group g2] s = Some m <->
  exists x y rest,
    m = [(g2, y); (g1, x)] /\ s = x +:+ sep +:+ y +:+ rest /\
    plain x /\ plain y /\ line_end rest = true /\
    forall x' t, s = x' +:+ sep +:+ t -> no_newline x' = true -> line_end t = false ->
      String.length x' <= String.length x.
Proof.
  rewrite split_match_unfold. split.
  - intros H. apply dot_plus_Some in H as (x & r & -> & Hx & Hne & Hk & Hmax).
    simpl in Hne, Hk.
    destruct (strip_prefix sep r) as [s''|] eqn:E; [|done].
    apply strip_prefix_spec in E as ->.
    apply last_group in Hk as (y & rest & -> & Hy & Hrest & ->).
    exists x, y, rest. do 5 (split; [done|]).
    intros x' t Hs Hx' Ht.
    destruct (le_lt_dec (String.length x') (String.length x)) as [|Hlt]; [done|]. exfalso.
    specialize (Hmax x' (sep +:+ t) Hs Hx' Hlt). simpl in Hmax.
    rewrite strip_prefix_app in Hmax.
    apply line_end_false in Ht as (c & t' & -> & Hc).
    pose proof (dot_plus_None _ _ _ Hmax (String c "") t' eq_refl) as Hn.
    simpl in Hn. rewrite bool_decide_eq_false_2 in Hn by done.
    discriminate Hn; done.
  - intros (x & y & rest & -> & -> & [Hnx Hx] & Hy & Hrest & Hlast).
    apply (dot_plus_intro _ "" _ x (sep +:+ y +:+ rest)); try done.
    + simpl. rewrite strip_prefix_app. apply last_group. by exists y, rest.
    + intros p' r' Hs Hp' Hl. simpl.
      destruct (strip_prefix sep r') as [s''|] eqn:E; [|done].
      apply strip_prefix_spec in E as ->.
      destruct (dot_plus _ "" s'') as [m'|] eqn:E2; [|done]. exfalso.
      apply last_group in E2 as (y' & rest' & -> & [Hny' Hy'] & _).
      specialize (Hlast p' (y' +:+ rest') Hs Hp' (line_end_app _ _ Hny' Hy')). lia.
Qed.

(** On a single line: the match exists as soon as the line can be
    split. *)
Lemma split_match_line_None (line rest : string) :
  no_newline line = true -> no_newline sep = true -> line_end rest = true ->
  (forall x y, line = x +:+ sep +:+ y -> x ≠ "" -> y ≠ "" -> False) ->
  re_match [Group g1; Lit sep; Group g2] (line +:+ rest) = None.
Proof.
  intros Hline Hsep Hrest Hno.
  destruct (re_match _ _) as [m|] eqn:E; [|done]. exfalso.
  apply split_match in E as (x & y & rest' & _ & Hs & [Hnx Hx] & [Hny Hy] & Hrest' & _).
  destruct (first_line_unique line rest (x +:+ sep +:+ y) rest') as [-> _]; try done.
  - by rewrite !string_app_assoc.
  - by rewrite !no_newline_app, Hx, Hsep, Hy.
  - by eapply Hno.
Qed.

Lemma split_match_line_Some (x y rest : string) :
  plain x -> plain y -> no_newline sep = true -> line_end rest = true ->
  (forall e y', sep +:+ y = e +:+ sep +:+ y' -> e ≠ "" -> y' ≠ "" -> False) ->
  re_match [Group g1; Lit sep; Group g2] (x +:+ sep +:+ y +:+ rest)
  = Some [(g2, y); (g1, x)].
Proof.
  intros Hx Hy Hsep Hrest Hlast. apply split_match.
  exists x, y, rest. do 5 (split; [done|]).
  intros x' t Hs Hx' Ht. destruct Hx as [Hnx Hx].
  destruct (le_lt_dec (String.length x') (String.length x)) as [|Hlt]; [done|]. exfalso.
  destruct (string_app_eq_app _ _ _ _ Hs) as (e & [[-> He]|[-> He]]).
  - rewrite string_length_app in Hlt. lia.
  - destruct e as [|c e]; [rewrite string_app_nil_r in Hlt; lia|].
    (* the later split lies on the same line *)
    apply line_end_false in Ht as (c' & t' & -> & Hc').
    rewrite no_newline_app in Hx'. apply andb_true_iff in Hx' as [_ He'].
    assert (Hpre : exists y2, sep +:+ y = (String c e +:+ sep +:+ String c' "") +:+ y2).
    { assert (H1 : (sep +:+ y) +:+ rest
                   = (String c e +:+ sep +:+ String c' "") +:+ t').
      { by rewrite !string_app_assoc, He. }
      destruct (string_app_eq_app _ _ _ _ H1) as (e2 & [[H2 H3]|[H2 H3]]).
      - by exists e2.
      - destruct e2 as [|c2 e2].
        + exists "". rewrite string_app_nil_r in *. by rewrite H2.
        + exfalso.
          assert (Hn : no_newline ((sep +:+ y) +:+ String c2 e2) = true).
          { rewrite <- H2, !no_newline_app, He', Hsep. simpl.
            by rewrite bool_decide_eq_false_2. }
          rewrite no_newline_app in Hn. apply andb_true_iff in Hn as [_ Hn].
          subst rest. simpl in Hn, Hrest. rewrite Hrest in Hn. done. }
    destruct Hpre as (y2 & Hy2).
    apply (Hlast (String c e) (String c' y2)); [|done|done].
    by rewrite Hy2, !string_app_assoc.
Qed.

End split_pattern.

(** * The two patterns on the lines of the database file *)

Lemma is_prefix_app (sub v : string) : is_prefix sub (sub +:+ v) = true.
Proof.
  induction sub as [|c sub IH]; [done|]. simpl. rewrite IH.
  by rewrite bool_decide_eq_true_2.
Qed.

Lemma contains_intro (sub u v : string) : contains sub (u +:+ sub +:+ v) = true.
Proof.
  induction u as [|c u IH]; simpl.
  - destruct (sub +:+ v) eqn:E; simpl.
    + apply string_app_eq_nil in E as [-> _]. done.
    + rewrite <- E, is_prefix_app. done.
  - rewrite IH. apply orb_true_r.
Qed.

(** Takes the characters of a literal off the front of [e] in an
    equation [literal +:+ b = e +:+ rest], one case for each length
    [e] can have. *)
Ltac peel H e :=
  repeat (destruct e as [|? e]; simpl in H; [|injection H as ? H; subst]).

Lemma contains_further (sub s : string) (c : Ascii.ascii) :
  contains sub s = true -> contains sub (String c s) = true.
Proof. intros H. simpl. rewrite H. apply orb_true_r. Qed.

Lemma contains_app_r (sub a b : string) :
  contains sub b = true -> contains sub (a +:+ b) = true.
Proof. intros H. induction a as [|c a IH]; [done|]. simpl. rewrite IH. apply orb_true_r. Qed.

Lemma is_prefix_app_l (sub a b : string) :
  is_prefix sub a = true -> is_prefix sub (a +:+ b) = true.
Proof.
  revert a. induction sub as [|c sub IH]; intros a; [done|].
  destruct a as [|c' a]; [done|]. simpl.
  intros [-> H]%andb_true_iff. by rewrite (IH _ H).
Qed.

Lemma contains_app_l (sub a b : string) :
  contains sub a = true -> contains sub (a +:+ b) = true.
Proof.
  induction a as [|c a IH].
  - simpl. rewrite orb_false_r. destruct sub; [|done]. intros _.
    destruct b; done.
  - simpl. intros [H|H]%orb_true_iff.
    + pose proof (is_prefix_app_l _ (String c a) b H) as H'. simpl in H'.
      by rewrite H'.
    + rewrite (IH H). apply orb_true_r.
Qed.

Ltac found H :=
  first
    [ congruence
    | exfalso; vm_compute in H; discriminate
    | exfalso; rewrite contains_app_r in H; [discriminate|vm_compute; reflexivity]
    | exfalso; rewrite contains_app_l in H;
        [discriminate|rewrite contains_app_r; [done|vm_compute; reflexivity]] ].

Lemma kore_relationship_line (x y rest : string) :
  plain x -> plain y -> contains "is a kind of" y = false -> line_end rest = true ->
  re_match kore (x +:+ " is a kind of " +:+ y +:+ rest) = Some [("y", y); ("x", x)].
Proof.
  intros Hx Hy Hc Hrest. apply split_match_line_Some; try done.
  intros e y' H He Hy'. peel H e; try congruence.
  all: try (injection H as ->); found Hc.
Qed.

Lemma aare_alias_line (k v rest : string) :
  plain k -> plain v -> contains "is an alias for" v = false -> line_end rest = true ->
  re_match aare (k +:+ " is an alias for " +:+ v +:+ rest)
  = Some [("true_name", v); ("alias", k)].
Proof.
  intros Hk Hv Hc Hrest. apply split_match_line_Some; try done.
  intros e y' H He Hy'. peel H e; try congruence.
  all: try (injection H as ->); found Hc.
Qed.

Lemma kore_alias_line (k v rest : string) :
  no_newline k = true -> no_newline v = true ->
  contains "is a kind of" k = false -> contains "is a kind of" v = false ->
  line_end rest = true ->
  re_match kore (k +:+ " is an alias for " +:+ v +:+ rest) = None.
Proof.
  intros Hnk Hnv Hk Hv Hrest.
  replace (k +:+ " is an alias for " +:+ v +:+ rest)
    with ((k +:+ " is an alias for " +:+ v) +:+ rest) by (by rewrite !string_app_assoc).
  apply split_match_line_None; try done.
  { by rewrite !no_newline_app, Hnk, Hnv. }
  intros x y H _ _.
  destruct (string_app_eq_app _ _ _ _ H) as (e & [[-> He]|[-> He]]).
  - peel He e; try congruence; try found Hk.
  - peel He e; try congruence; try found Hv.
    all: try (injection He as ->); found Hv.
Qed.

Lemma aare_relationship_line (x y rest : string) :
  no_newline x = true -> no_newline y = true ->
  contains "is an alias for" x = false -> contains "is an alias for" y = false ->
  line_end rest = true ->
  re_match aare (x +:+ " is a kind of " +:+ y +:+ rest) = None.
Proof.
  intros Hnx Hny Hx Hy Hrest.
  replace (x +:+ " is a kind of " +:+ y +:+ rest)
    with ((x +:+ " is a kind of " +:+ y) +:+ rest) by (by rewrite !string_app_assoc).
  apply split_match_line_None; try done.
  { by rewrite !no_newline_app, Hnx, Hny. }
  intros k v H _ _.
  destruct (string_app_eq_app _ _ _ _ H) as (e & [[-> He]|[-> He]]).
  - peel He e; try congruence; try found Hx.
  - peel He e; try congruence; try found Hy.
    all: try (injection He as ->); found Hy.
Qed.

(** * Reading back what was written *)

Lemma write_lines_unlines (file : string) (lines : list string) :
  foldl write_line file lines = file +:+ unlines lines.
Proof.
  revert file. induction lines as [|l ls IH]; intros file; simpl.
  - by rewrite string_app_nil_r.
  - rewrite IH. unfold write_line. by rewrite !string_app_assoc.
Qed.

Lemma write_links_lines (w : KB) (file : string) (links : list (addr * addr)) :
  write_links w file links
  = foldl write_line file ((fun l => link_line w l.1 l.2) <$> links).
Proof.
  unfold write_links. revert file.
  induction links as [|[a p] links IH]; intros file; simpl; [done|]. apply IH.
Qed.

Lemma save_aliases_lines (w : KB) (file : string) :
  save_aliases w file
  = foldl write_line file ((fun e => alias_line e.1 e.2) <$> map_to_list (aliases w)).
Proof.
  unfold save_aliases. generalize (map_to_list (aliases w)) as l. intros l. revert file.
  induction l as [|[k v] l IH]; intros file; simpl; [done|]. apply IH.
Qed.

Lemma readlines_from_line (cur l rest : string) :
  no_newline l = true ->
  readlines_from cur (l +:+ String newline rest)
  = (cur +:+ l +:+ String newline "") :: readlines_from "" rest.
Proof.
  revert cur. induction l as [|c l IH]; intros cur Hl; simpl.
  - done.
  - simpl in Hl. apply andb_true_iff in Hl as [Hc Hl].
    apply negb_true_iff, bool_decide_eq_false in Hc.
    rewrite decide_False by done. rewrite IH by done.
    by rewrite !string_app_assoc.
Qed.

Lemma readlines_unlines (lines : list string) :
  Forall (fun l => no_newline l = true) lines ->
  readlines (unlines lines) = (fun l => l +:+ String newline "") <$> lines.
Proof.
  unfold readlines. induction 1 as [|l ls Hl _ IH]; simpl; [done|].
  rewrite readlines_from_line by done. by rewrite IH.
Qed.

Lemma for_each_fmap {A B S : Type} (f : A -> B) (body : B -> S -> result S)
  (l : list A) (s : S) :
  for_each body (f <$> l) s = for_each (fun x => body (f x)) l s.
Proof.
  revert s. induction l as [|x l IH]; intros s; simpl; [done|].
  destruct (body (f x) s); simpl; [apply IH|done..].
Qed.

Lemma for_each_ext {A S : Type} (body body' : A -> S -> result S) (l : list A) (s : S) :
  (forall x s, x ∈ l -> body x s = body' x s) ->
  for_each body l s = for_each body' l s.
Proof.
  revert s. induction l as [|x l IH]; intros s H; simpl; [done|].
  rewrite (H x s) by apply list_elem_of_here.
  destruct (body' x s); simpl; [|done..].
  apply IH. intros y s' Hy. apply H. by apply list_elem_of_further.
Qed.

Lemma for_each_app_run {A S : Type} (body : A -> S -> result S) (l1 l2 : list A) (s : S) :
  for_each body (l1 ++ l2) s = s' ← for_each body l1 s; for_each body l2 s'.
Proof.
  revert s. induction l1 as [|x l1 IH]; intros s; simpl; [done|].
  destruct (body x s); simpl; [apply IH|done..].
Qed.

Lemma for_each_skip {A S : Type} (body : A -> S -> result S) (l : list A) (s : S) :
  (forall x s, x ∈ l -> body x s = Ok s) -> for_each body l s = Ok s.
Proof.
  induction l as [|x l IH]; intros H; simpl; [done|].
  rewrite (H x s) by apply list_elem_of_here. simpl.
  apply IH. intros y s' Hy. apply H. by apply list_elem_of_further.
Qed.

Lemma line_end_newline (rest : string) : line_end (String newline rest) = true.
Proof. done. Qed.

Lemma load_of_saved_lines (w : KB) (links : list (addr * addr)) (fuel : nat) (w0 : KB) :
  (forall a p, (a, p) ∈ links -> simple (name (tm w a)) /\ simple (name (tm w p))) ->
  (forall k v, aliases w !! k = Some v -> simple k /\ simple v) ->
  load_relationships fuel (readlines (save_aliases w (write_links w "" links))) w0
  = for_each (fun l => add_kind_of fuel (name (tm w l.1)) (name (tm w l.2))) links w0 /\
  load_aliases fuel (save_aliases w (write_links w "" links)) w0
  = for_each (fun e => declare_alias fuel e.1 e.2) (map_to_list (aliases w)) w0.
Proof.
  intros Hlinks Haliases.
  assert (Hal : forall e, e ∈ map_to_list (aliases w) -> simple e.1 /\ simple e.2).
  { intros [k v] He. apply Haliases. by apply elem_of_map_to_list. }
  assert (Hfile : readlines (save_aliases w (write_links w "" links))
            = (fun l => l +:+ String newline "") <$>
                (((fun l => link_line w l.1 l.2) <$> links) ++
                 ((fun e => alias_line e.1 e.2) <$> map_to_list (aliases w)))).
  { rewrite save_aliases_lines, write_links_lines, <- foldl_app, write_lines_unlines.
    simpl. apply readlines_unlines. apply Forall_app. split.
    - apply Forall_fmap, Forall_forall. intros [a p] Hap. simpl.
      destruct (Hlinks a p Hap) as [((_ & Ha) & _) ((_ & Hp) & _)].
      unfold link_line. by rewrite !no_newline_app, Ha, Hp.
    - apply Forall_fmap, Forall_forall. intros [k v] Hkv. simpl.
      destruct (Hal _ Hkv) as [((_ & Hk) & _) ((_ & Hv) & _)]. simpl in *.
      unfold alias_line. by rewrite !no_newline_app, Hk, Hv. }
  unfold load_relationships, load_aliases. rewrite Hfile. clear Hfile.
  rewrite !fmap_app, !for_each_app_run, <- !list_fmap_compose, !for_each_fmap.
  split.
  - rewrite (for_each_ext _ (fun l => add_kind_of fuel (name (tm w l.1)) (name (tm w l.2)))).
    2:{ intros [a p] s Hap. simpl.
        destruct (Hlinks a p Hap) as [(Ha & _) (Hp & Hpk & _)].
        unfold link_line. rewrite !string_app_assoc.
        rewrite kore_relationship_line; done. }
    destruct (for_each _ links w0) as [w1|e|]; simpl; [|done..].
    rewrite for_each_fmap.
    apply for_each_skip. intros [k v] s Hkv. simpl.
    destruct (Hal _ Hkv) as [((_ & Hk) & Hkk & _) ((_ & Hv) & Hvk & _)]. simpl in *.
    unfold alias_line. rewrite !string_app_assoc.
    by rewrite kore_alias_line.
  - rewrite (for_each_skip _ links).
    2:{ intros [a p] s Hap. simpl.
        destruct (Hlinks a p Hap) as [((_ & Ha) & _ & Haa) ((_ & Hp) & _ & Hpa)].
        unfold link_line. rewrite !string_app_assoc.
        by rewrite aare_relationship_line. }
    simpl. rewrite for_each_fmap. apply for_each_ext. intros [k v] s Hkv. simpl.
    destruct (Hal _ Hkv) as [(Hk & _) (Hv & _ & Hva)]. simpl in *.
    unfold alias_line. rewrite !string_app_assoc.
    rewrite aare_alias_line; done.
Qed.

(** X17: the pattern of the relationship command matches a text
    exactly when its first line reads x, the words " is a kind of ", y,
    with x and y not empty; y runs to the end of the line, and of all the
    places where the line can be split in this way the pattern takes the
    last.  The pattern of the alias command does the same around the words
    " is an alias for ". *)
Theorem the_patterns_split_a_line_at_the_last_place (s : string) (m : list (string * string)) :
  (re_match kore s = Some m <->
   exists x y rest,
     m = [("y", y); ("x", x)] /\ s = x +:+ " is a kind of " +:+ y +:+ rest /\
     plain x /\ plain y /\ line_end rest = true /\
     forall x' t, s = x' +:+ " is a kind of " +:+ t -> no_newline x' = true ->
       line_end t = false -> String.length x' <= String.length x) /\
  (re_match aare s = Some m <->
   exists x y rest,
     m = [("true_name", y); ("alias", x)] /\ s = x +:+ " is an alias for " +:+ y +:+ rest /\
     plain x /\ plain y /\ line_end rest = true /\
     forall x' t, s = x' +:+ " is an alias for " +:+ t -> no_newline x' = true ->
       line_end t = false -> String.length x' <= String.length x).
Proof. split; apply split_match. Qed.

(** X18: what save writes, load replays.  On a graph without cycles
    whose reachable terms and aliases have simple names, the file left by
    save is read back by load as one add_kind_of (child, parent) for
    every link save wrote, in the order of the file, and then one
    make_alias followed by update_names for every alias. *)
Theorem load_replays_what_save_wrote
  (W : World) (ht : addr -> nat) (fuel : nat) (W1 : World) :
  acyclic_down (kb W) ht -> ht obj < fuel ->
  (forall a p, reach (kb W) obj a -> p ∈ parents (tm (kb W) a) ->
     simple (name (tm (kb W) a)) /\ simple (name (tm (kb W) p))) ->
  (forall k v, aliases (kb W) !! k = Some v -> simple k /\ simple v) ->
  save fuel W = Ran W1 ->
  exists links file,
    knowledge_db W1 = Some file /\
    save_tree_default W1 = save_tree_default W ++ links /\
    (forall a p, (a, p) ∈ links <->
       reach (kb W) obj a /\ p ∈ parents (tm (kb W) a) /\ (a, p) ∉ save_tree_default W) /\
    forall fuel' w0,
      load_relationships fuel' (readlines file) w0
      = for_each (fun l => add_kind_of fuel' (name (tm (kb W) l.1)) (name (tm (kb W) l.2)))
                 links w0 /\
      load_aliases fuel' file w0
      = for_each (fun e => declare_alias fuel' e.1 e.2) (map_to_list (aliases (kb W))) w0.
Proof.
  intros Hacyc Hlt Hnames Haliases. unfold save.
  destruct (save_tree_spec (kb W) ht fuel Hacyc obj "" (save_tree_default W) Hlt)
    as (links & -> & Hnd & Hin).
  simpl. intros [= <-]. simpl.
  exists links, (save_aliases (kb W) (write_links (kb W) "" links)).
  split; [done|]. split; [done|]. split; [done|].
  intros fuel' w0. apply load_of_saved_lines; [|done].
  intros a p Hap. apply Hin in Hap as (Hr & Hp & _). by apply Hnames.
Qed.

Lemma simple_names_kb_diamond_alias (a p : addr) :
  p ∈ parents (tm kb_diamond_alias a) ->
  simple (name (tm kb_diamond_alias a)) /\ simple (name (tm kb_diamond_alias p)).
Proof.
  intros Hp. do 5 (try destruct a as [|a]); vm_compute in Hp.
  all: repeat (apply elem_of_cons in Hp as [->|Hp];
               [by (split; (split; [split; [done|reflexivity]|split; reflexivity]))|]).
  all: by apply elem_of_nil in Hp.
Qed.

Lemma load_replays_what_save_wrote_witness :
  exists W1 links file,
    save 5 (mkWorld kb_diamond_alias [] None) = Ran W1 /\
    knowledge_db W1 = Some file /\
    save_tree_default W1 = [] ++ links /\
    (forall a p, (a, p) ∈ links <->
       reach kb_diamond_alias obj a /\ p ∈ parents (tm kb_diamond_alias a) /\
       (a, p) ∉ []) /\
    forall fuel' w0,
      load_relationships fuel' (readlines file) w0
      = for_each (fun l => add_kind_of fuel' (name (tm kb_diamond_alias l.1))
                                       (name (tm kb_diamond_alias l.2)))
                 links w0 /\
      load_aliases fuel' file w0
      = for_each (fun e => declare_alias fuel' e.1 e.2)
                 (map_to_list (aliases kb_diamond_alias)) w0.
Proof.
  destruct (save 5 (mkWorld kb_diamond_alias [] None)) as [W1| |] eqn:E;
    [|vm_compute in E; discriminate..].
  exists W1.
  destruct (load_replays_what_save_wrote
              (mkWorld kb_diamond_alias [] None) (fun a => 4 - a) 5 W1)
    as (links & file & H); try done.
  - apply kb_diamond_alias_acyclic_down.
  - vm_compute. lia.
  - intros a p _. apply simple_names_kb_diamond_alias.
  - intros k v Hk.
    change (aliases (kb (mkWorld kb_diamond_alias [] None)))
      with ({["p" := "pp"]} : gmap string string) in Hk.
    apply lookup_singleton_Some in Hk as [<- <-].
    by (split; (split; [split; [done|reflexivity]|split; reflexivity])).
  - exists links, file. done.
Defined.

(** * The command loop *)

Lemma wire_query (x : string) :
  plain x -> re_match wire ("what is " +:+ x +:+ "?") = Some [("item", x)].
Proof.
  intros [Hne Hx]. unfold re_match, wire. cbn [match_items].
  rewrite strip_prefix_app.
  apply (dot_plus_intro _ "" _ x "?"); try done.
  intros p' r' Hs Hp' Hl.
  destruct (string_app_eq_app _ _ _ _ Hs) as (e & [[-> He]|[-> He]]).
  - rewrite string_length_app in Hl. lia.
  - destruct e as [|c e]; [rewrite string_app_nil_r in Hl; lia|].
    simpl in He. injection He as <- He. symmetry in He.
    apply string_app_eq_nil in He as [_ ->]. done.
Qed.

Lemma kore_query (x : string) :
  no_newline x = true -> contains "a kind of" x = false ->
  re_match kore ("what is " +:+ x +:+ "?") = None.
Proof.
  intros Hx Hc.
  rewrite <- (string_app_nil_r ("what is " +:+ x +:+ "?")).
  apply split_match_line_None; try done.
  { by rewrite !no_newline_app, Hx. }
  intros a b H Ha Hb. peel H a; try congruence.
  - symmetry in H. peel H x; try congruence; found Hc.
  - symmetry in H. peel H x; try congruence; found Hc.
  - destruct (string_app_eq_app _ _ _ _ H) as (e & [[-> He]|[-> He]]).
    + peel He e; try congruence. found Hc.
    + peel He e; try congruence. destruct e; simpl in He; congruence.
Qed.

Lemma aare_query (x : string) :
  no_newline x = true -> contains "an alias for" x = false ->
  re_match aare ("what is " +:+ x +:+ "?") = None.
Proof.
  intros Hx Hc.
  rewrite <- (string_app_nil_r ("what is " +:+ x +:+ "?")).
  apply split_match_line_None; try done.
  { by rewrite !no_newline_app, Hx. }
  intros a b H Ha Hb. peel H a; try congruence.
  - symmetry in H. peel H x; try congruence; found Hc.
  - symmetry in H. peel H x; try congruence; found Hc.
  - destruct (string_app_eq_app _ _ _ _ H) as (e & [[-> He]|[-> He]]).
    + peel He e; try congruence. found Hc.
    + peel He e; try congruence. destruct e; simpl in He; congruence.
Qed.

Lemma set_kb_same (W : World) : set_kb (kb W) W = W.
Proof. by destruct W. Qed.

(** X19: a question "what is X?" is a query and nothing else, as long
    as X is on one line and holds neither "a kind of" nor "an alias
    for": the command runs what_is on X, the loop goes on, and the list
    kept by save_tree and the database file are as they were. *)
Theorem a_plain_question_only_queries
  (dict_repr : gmap string string -> string) (fuel : nat) (x : string) (W : World) :
  plain x -> contains "a kind of" x = false -> contains "an alias for" x = false ->
  command_step dict_repr fuel ("what is " +:+ x +:+ "?") W
  = w ← lift (what_is fuel x (kb W)); Ran (true, set_kb w W).
Proof.
  intros [Hne Hx] Hk Ha. unfold command_step.
  rewrite kore_query, aare_query, wire_query by done. simpl.
  destruct (what_is fuel x (kb W)) as [w| |]; simpl; done.
Qed.

Lemma a_plain_question_only_queries_witness :
  plain "t" /\
  command_step (fun _ => "") 5 ("what is " +:+ "t" +:+ "?") (mkWorld kb_diamond [] None)
  = w ← lift (what_is 5 "t" kb_diamond); Ran (true, set_kb w (mkWorld kb_diamond [] None)).
Proof.
  assert (H : plain "t") by (split; [done|reflexivity]).
  split; [exact H|].
  apply (a_plain_question_only_queries (fun _ => "") 5 "t" (mkWorld kb_diamond [] None) H);
    reflexivity.
Defined.

Lemma is_prefix_spec (p s : string) : is_prefix p s = true -> exists v, s = p +:+ v.
Proof.
  revert s. induction p as [|c p IH]; intros s; [by exists s|].
  destruct s as [|c' s]; [done|]. simpl.
  intros [Hc H]%andb_true_iff. apply bool_decide_eq_true in Hc as ->.
  destruct (IH _ H) as [v ->]. by exists v.
Qed.

Lemma contains_elim (sub s : string) :
  contains sub s = true -> exists u v, s = u +:+ sub +:+ v.
Proof.
  induction s as [|c s IH]; simpl.
  - rewrite orb_false_r. intros H. apply is_prefix_spec in H as [v ->]. by exists "", v.
  - intros [H|H]%orb_true_iff.
    + apply is_prefix_spec in H as [v ->]. by exists "", v.
    + destruct (IH H) as (u & v & ->). by exists (String c u), v.
Qed.

Lemma kore_kind_question (y : string) :
  plain y -> contains "is a kind of" y = false ->
  re_match kore ("what is a kind of " +:+ y +:+ "?") = Some [("y", y +:+ "?"); ("x", "what")].
Proof.
  intros [Hne Hy] Hc.
  assert (H : re_match kore ("what" +:+ " is a kind of " +:+ (y +:+ "?") +:+ "")
              = Some [("y", y +:+ "?"); ("x", "what")]);
    [|by rewrite string_app_nil_r in H].
  apply kore_relationship_line; try done.
  - split; [by destruct y|]. by rewrite no_newline_app, Hy.
  - destruct (contains "is a kind of" (y +:+ "?")) eqn:E; [|done]. exfalso.
    apply contains_elim in E as (u & v & H).
    destruct (string_app_eq_app _ _ _ _ H) as (e & [[-> He]|[-> He]]).
    + symmetry in He. peel He e; try congruence. found Hc.
    + peel He e; try congruence. destruct e; simpl in He; congruence.
Qed.

Lemma aare_kind_question (y : string) :
  no_newline y = true -> contains "an alias for" y = false ->
  re_match aare ("what is a kind of " +:+ y +:+ "?") = None.
Proof.
  intros Hy Hc.
  rewrite <- (string_app_nil_r ("what is a kind of " +:+ y +:+ "?")).
  apply split_match_line_None; try done.
  { by rewrite !no_newline_app, Hy. }
  intros a b H Ha Hb. peel H a; try congruence.
  - symmetry in H. peel H y; try congruence; found Hc.
  - destruct (string_app_eq_app _ _ _ _ H) as (e & [[-> He]|[-> He]]).
    + peel He e; try congruence. found Hc.
    + peel He e; try congruence. destruct e; simpl in He; congruence.
Qed.

(** X20: the patterns are tried one after the other, each on its own,
    so that one line can be two commands.  The question "what is a
    kind of Y?" is first taken as a relationship, between the names
    what and Y?, with the tree printed after it, and then as the query
    of "a kind of Y". *)
Theorem a_question_can_be_a_relationship_too
  (dict_repr : gmap string string -> string) (fuel : nat) (y : string) (W : World) :
  plain y -> contains "is a kind of" y = false -> contains "an alias for" y = false ->
  command_step dict_repr fuel ("what is a kind of " +:+ y +:+ "?") W
  = w1 ← lift (w ← add_kind_of fuel "what" (y +:+ "?") (kb W); print_tree fuel obj 0 w);
    w2 ← lift (what_is fuel ("a kind of " +:+ y) w1);
    Ran (true, set_kb w2 W).
Proof.
  intros Hy Hk Ha. pose proof Hy as [Hne Hny]. unfold command_step.
  rewrite kore_kind_question, aare_kind_question by done.
  change ("what is a kind of " +:+ y +:+ "?")
    with ("what is " +:+ ("a kind of " +:+ y) +:+ "?").
  rewrite wire_query by (split; [done|by rewrite no_newline_app, Hny]).
  simpl.
  destruct (add_kind_of fuel "what" (y +:+ "?") (kb W)) as [w| |]; simpl; [|done..].
  destruct (print_tree fuel obj 0 w) as [w1| |]; simpl; [|done..].
  destruct (what_is fuel _ w1) as [w2| |]; simpl; done.
Qed.

Lemma a_question_can_be_a_relationship_too_witness :
  plain "mammal" /\
  command_step (fun _ => "") 30 ("what is a kind of " +:+ "mammal" +:+ "?") (start None)
  = w1 ← lift (w ← add_kind_of 30 "what" ("mammal" +:+ "?") (kb (start None));
               print_tree 30 obj 0 w);
    w2 ← lift (what_is 30 ("a kind of " +:+ "mammal") w1);
    Ran (true, set_kb w2 (start None)).
Proof.
  assert (H : plain "mammal") by (split; [done|reflexivity]).
  split; [exact H|].
  apply (a_question_can_be_a_relationship_too (fun _ => "") 30 "mammal" (start None) H);
    reflexivity.
Defined.

Lemma wire_no_prefix (s : string) :
  is_prefix "what is " s = false -> re_match wire s = None.
Proof.
  intros H. unfold re_match, wire. cbn [match_items].
  destruct (strip_prefix "what is " s) as [r|] eqn:E; [|done].
  apply strip_prefix_spec in E as ->. by rewrite is_prefix_app in H.
Qed.

Lemma long_command (a sep b : string) (word : string) :
  String.length word < String.length sep -> a +:+ sep +:+ b ≠ word.
Proof.
  intros Hl H. apply (f_equal String.length) in H.
  rewrite !string_length_app in H. lia.
Qed.

(** X24: a line "X is a kind of Y" whose names are simple, and that
    does not begin with "what is ", is the relationship command and
    nothing else: it runs add_kind_of (X, Y), prints the tree, and the
    loop goes on. *)
Theorem a_relationship_line_adds_and_prints
  (dict_repr : gmap string string -> string) (fuel : nat) (x y : string) (W : World) :
  simple x -> simple y ->
  is_prefix "what is " (x +:+ " is a kind of " +:+ y) = false ->
  command_step dict_repr fuel (x +:+ " is a kind of " +:+ y) W
  = w ← lift (w1 ← add_kind_of fuel x y (kb W); print_tree fuel obj 0 w1);
    Ran (true, set_kb w W).
Proof.
  intros ([Hnx Hx] & _ & Hxa) ([Hny Hy] & Hyk & Hya) Hw. unfold command_step.
  assert (Hk : re_match kore (x +:+ " is a kind of " +:+ y) = Some [("y", y); ("x", x)]).
  { pose proof (kore_relationship_line x y "") as H.
    rewrite string_app_nil_r in H. by apply H. }
  assert (Ha : re_match aare (x +:+ " is a kind of " +:+ y) = None).
  { pose proof (aare_relationship_line x y "") as H.
    rewrite string_app_nil_r in H. by apply H. }
  rewrite Hk, Ha, wire_no_prefix by done. simpl.
  destruct (add_kind_of fuel x y (kb W)) as [w1| |]; simpl; [|done..].
  destruct (print_tree fuel obj 0 w1) as [w| |]; simpl; [|done..].
  by rewrite !decide_False by (apply (long_command x " is a kind of " y); simpl; lia).
Qed.

Lemma a_relationship_line_adds_and_prints_witness :
  command_step (fun _ => "") 30 ("dog" +:+ " is a kind of " +:+ "mammal") (start None)
  = w ← lift (w1 ← add_kind_of 30 "dog" "mammal" (kb (start None)); print_tree 30 obj 0 w1);
    Ran (true, set_kb w (start None)).
Proof.
  apply (a_relationship_line_adds_and_prints (fun _ => "") 30 "dog" "mammal" (start None));
    first [reflexivity | by (split; [split; [done|reflexivity]|split; reflexivity])].
Defined.

(** X25: a line "X is an alias for Y" whose names are simple, and that
    does not begin with "what is ", is the alias command and nothing
    else: it runs make_alias (X, Y) and the rename pass, prints the tree,
    and the loop goes on. *)
Theorem an_alias_line_declares_and_prints
  (dict_repr : gmap string string -> string) (fuel : nat) (x y : string) (W : World) :
  simple x -> simple y ->
  is_prefix "what is " (x +:+ " is an alias for " +:+ y) = false ->
  command_step dict_repr fuel (x +:+ " is an alias for " +:+ y) W
  = w ← lift (w1 ← declare_alias fuel x y (kb W); print_tree fuel obj 0 w1);
    Ran (true, set_kb w W).
Proof.
  intros ([Hnx Hx] & Hxk & _) ([Hny Hy] & Hyk & Hya) Hw. unfold command_step.
  assert (Hk : re_match kore (x +:+ " is an alias for " +:+ y) = None).
  { pose proof (kore_alias_line x y "") as H.
    rewrite string_app_nil_r in H. by apply H. }
  assert (Ha : re_match aare (x +:+ " is an alias for " +:+ y)
               = Some [("true_name", y); ("alias", x)]).
  { pose proof (aare_alias_line x y "") as H.
    rewrite string_app_nil_r in H. by apply H. }
  rewrite Hk, Ha, wire_no_prefix by done. simpl.
  destruct (declare_alias fuel x y (kb W)) as [w1| |]; simpl; [|done..].
  destruct (print_tree fuel obj 0 w1) as [w| |]; simpl; [|done..].
  by rewrite !decide_False by (apply (long_command x " is an alias for " y); simpl; lia).
Qed.

Lemma an_alias_line_declares_and_prints_witness :
  command_step (fun _ => "") 30 ("canine" +:+ " is an alias for " +:+ "dog") (start None)
  = w ← lift (w1 ← declare_alias 30 "canine" "dog" (kb (start None));
              print_tree 30 obj 0 w1);
    Ran (true, set_kb w (start None)).
Proof.
  apply (an_alias_line_declares_and_prints (fun _ => "") 30 "canine" "dog" (start None));
    first [reflexivity | by (split; [split; [done|reflexivity]|split; reflexivity])].
Defined.

Lemma split_match_contains (g1 sep g2 s : string) :
  contains sep s = false -> re_match [Group g1; Lit sep; Group g2] s = None.
Proof.
  intros Hc. destruct (re_match _ s) as [m|] eqn:E; [|done]. exfalso.
  apply split_match in E as (x & y & rest & _ & -> & _).
  by rewrite contains_intro in Hc.
Qed.

Lemma strip_prefix_None (t s : string) :
  is_prefix t s = false -> strip_prefix t s = None.
Proof.
  intros H. destruct (strip_prefix t s) as [r|] eqn:E; [|done].
  apply strip_prefix_spec in E as ->. by rewrite is_prefix_app in H.
Qed.

(** X21: a line that holds neither " is a kind of " nor " is an alias
    for ", that does not begin with "what is ", and that is none of
    quit, save and load, does nothing: the program goes on as it was. *)
Theorem any_other_line_does_nothing
  (dict_repr : gmap string string -> string) (fuel : nat) (command : string) (W : World) :
  contains " is a kind of " command = false ->
  contains " is an alias for " command = false ->
  is_prefix "what is " command = false ->
  command ≠ "quit" -> command ≠ "save" -> command ≠ "load" ->
  command_step dict_repr fuel command W = Ran (true, W).
Proof.
  intros Hk Ha Hw Hq Hs Hl. unfold command_step.
  unfold kore, aare. rewrite !split_match_contains by done.
  unfold re_match, wire. cbn [match_items]. rewrite strip_prefix_None by done.
  simpl. rewrite !decide_False by done. by rewrite set_kb_same.
Qed.

Lemma any_other_line_does_nothing_witness :
  command_step (fun _ => "") 5 "help" (start None) = Ran (true, start None).
Proof.
  apply (any_other_line_does_nothing (fun _ => "") 5 "help" (start None)); done.
Defined.

Lemma run_bind_Ran {A B : Type} (m : run A) (f : A -> run B) (b : B) :
  m ≫= f = Ran b -> exists a, m = Ran a /\ f a = Ran b.
Proof. destruct m as [a| |]; simpl; [|done..]. intros H. by exists a. Qed.

Lemma command_step_stops (dict_repr : gmap string string -> string)
  (fuel : nat) (command : string) (W W1 : World) :
  command_step dict_repr fuel command W = Ran (false, W1) -> command = "quit".
Proof.
  unfold command_step. intros H.
  apply run_bind_Ran in H as (w1 & _ & H).
  apply run_bind_Ran in H as (w2 & _ & H).
  apply run_bind_Ran in H as (w3 & _ & H).
  destruct (decide (command = "quit")); [done|].
  destruct (decide (command = "save")).
  { apply run_bind_Ran in H as (W4 & _ & H). done. }
  destruct (decide (command = "load")); [|done].
  apply run_bind_Ran in H as (W4 & _ & H). done.
Qed.

Lemma run_bind_Ran_l {A B : Type} (a : A) (f : A -> run B) : Ran a ≫= f = f a.
Proof. done. Qed.

Lemma main_loop_cons (dict_repr : gmap string string -> string) (fuel : nat)
  (command : string) (input : list string) (W : World) :
  main_loop dict_repr fuel (command :: input) W
  = w ← lift (banner fuel (kb W));
    '(running, W1) ← command_step dict_repr fuel command (set_kb w W);
    if running : bool then main_loop dict_repr fuel input W1 else Ran W1.
Proof. done. Qed.

(** X22: the loop returns only on quit.  If the program ends without an
    uncaught exception, quit is among the lines typed, and the lines
    after the first quit are never read: the run is the run on the
    lines up to it. *)
Theorem the_loop_returns_only_on_quit
  (dict_repr : gmap string string -> string) (fuel : nat) (input : list string)
  (W W' : World) :
  main_loop dict_repr fuel input W = Ran W' ->
  exists before after,
    input = before ++ "quit" :: after /\ ("quit" ∉ before) /\
    main_loop dict_repr fuel (before ++ ["quit"]) W = Ran W'.
Proof.
  revert W. induction input as [|command input IH]; intros W H.
  - simpl in H. apply run_bind_Ran in H as (w & _ & H). done.
  - simpl in H. apply run_bind_Ran in H as (w & Hb & H).
    apply run_bind_Ran in H as ([running W1] & Hc & H).
    destruct running.
    + destruct (IH W1 H) as (before & after & -> & Hnot & Hrun).
      assert (Hne : command ≠ "quit").
      { intros ->. unfold command_step in Hc.
        apply run_bind_Ran in Hc as (w1 & _ & Hc).
        apply run_bind_Ran in Hc as (w2 & _ & Hc).
        apply run_bind_Ran in Hc as (w3 & _ & Hc). done. }
      exists (command :: before), after. split; [done|]. split.
      * intros [?|?]%elem_of_cons; done.
      * change ((command :: before) ++ ["quit"]) with (command :: (before ++ ["quit"])).
        by rewrite main_loop_cons, Hb, run_bind_Ran_l, Hc, run_bind_Ran_l.
    + injection H as <-. pose proof (command_step_stops _ _ _ _ _ Hc) as Hq.
      subst command.
      exists [], input. split; [done|]. split; [apply not_elem_of_nil|].
      change ([] ++ ["quit"]) with ["quit"].
      by rewrite main_loop_cons, Hb, run_bind_Ran_l, Hc, run_bind_Ran_l.
Qed.

Lemma the_loop_returns_only_on_quit_witness :
  exists W' before after,
    main_loop (fun _ => "") 30 ["dog is a kind of mammal"; "quit"; "save"] (start None)
    = Ran W' /\
    ["dog is a kind of mammal"; "quit"; "save"] = before ++ "quit" :: after /\
    ("quit" ∉ before) /\
    main_loop (fun _ => "") 30 (before ++ ["quit"]) (start None) = Ran W'.
Proof.
  destruct (main_loop (fun _ => "") 30 ["dog is a kind of mammal"; "quit"; "save"]
              (start None)) as [W'| |] eqn:E; [|vm_compute in E; discriminate..].
  exists W'.
  destruct (the_loop_returns_only_on_quit (fun _ => "") 30 _ (start None) W' E)
    as (before & after & H1 & H2 & H3).
  exists before, after.
  split; [reflexivity|]. split; [exact H1|]. split; [exact H2|exact H3].
Defined.

(** * Names that are unknown *)



(** * Pruning a forest *)

Lemma anode_full_ind (P : anode -> Prop) :
  (forall nm subs, Forall P subs -> P (ANode nm subs)) -> forall a, P a.
Proof.
  intros H. fix IH 1. intros [nm subs]. apply H.
  induction subs as [|x subs IHs]; constructor; [apply IH|exact IHs].
Qed.

Lemma anode_eqb_size (a b : anode) :
  anode_eqb a b = true -> anode_size a = anode_size b.
Proof.
  revert b. induction a as [nm subs IH] using anode_full_ind. intros [nm' subs'].
  simpl. intros [_ H]%andb_true_iff. f_equal.
  revert subs' H. induction IH as [|x subs Hx _ IHs]; intros [|y subs'] H; try done.
  apply andb_true_iff in H as [Hxy H].
  rewrite (Hx y Hxy). f_equal. by apply IHs.
Qed.

Lemma anode_size_sub (nm : string) (subs : list anode) (x : anode) :
  x ∈ subs -> anode_size x < anode_size (ANode nm subs).
Proof.
  simpl. induction subs as [|y subs IH]; intros Hx; [by apply elem_of_nil in Hx|].
  apply elem_of_cons in Hx as [->|Hx]; [lia|]. specialize (IH Hx). lia.
Qed.

Lemma anode_in_size (parent1 parent2 : anode) :
  anode_in parent1 parent2 = true -> anode_size parent1 < anode_size parent2.
Proof.
  unfold anode_in. destruct parent2 as [nm subs]. simpl anode_subs.
  intros H. apply existsb_exists in H as (x & Hx & Heq).
  apply anode_eqb_size in Heq. rewrite Heq.
  apply anode_size_sub. by apply list_elem_of_In.
Qed.

(** A list is never found inside itself, nor further down inside. *)
Lemma prune_while_noop fuel self parent1 parent2 w :
  anode_size parent2 <= anode_size parent1 ->
  prune_while fuel self parent1 parent2 w = Ok w.
Proof.
  induction parent2 as [nm|nm next rest IH] using anode_spine_ind; intros Hs; [done|].
  rewrite prune_while_step.
  destruct (anode_in parent1 (ANode nm (next :: rest))) eqn:E.
  - apply anode_in_size in E. lia.
  - simpl. apply IH.
    pose proof (anode_size_sub nm (next :: rest) next (list_elem_of_here _ _)). lia.
Qed.

Lemma prune_own_one_parent fuel self w w' :
  length (parents (tm w self)) <= 1 -> prune_own fuel self w = Ok w' -> w' = w.
Proof.
  intros Hlen. unfold prune_own. intros H. inv_bind H.
  destruct fuel as [|f]; [done|].
  pose proof Ha as Hl. apply get_ancestry_unfold in Hl.
  apply Forall2_length in Hl. rewrite Hl in Hlen.
  destruct r as [|A [|B r]]; simpl in Hlen; [|clear Hlen|lia].
  - by inversion Hb.
  - cbn [prune_outer] in Hb. rewrite Ha in Hb. simpl in Hb.
    rewrite prune_while_noop in Hb by done. by inversion Hb.
Qed.

Lemma prune_forest fuel :
  (forall self w w', forest w -> prune_tree fuel self w = Ok w' -> w' = w) /\
  (forall self i w w', forest w -> prune_children fuel self i w = Ok w' -> w' = w).
Proof.
  induction fuel as [|f [IHt IHc]]; [done|]. split.
  - intros self w w' Hf H. simpl in H. inv_bind H.
    apply prune_own_one_parent in Ha as ->; [|apply Hf]. by eapply IHc.
  - intros self i w w' Hf H. simpl in H.
    destruct (children (tm w self) !! i) as [child|].
    + inv_bind H. apply IHt in Ha as ->; [|done]. by eapply IHc.
    + by inversion H.
Qed.

Lemma prune_tree_forest (w : KB) (ht dp : addr -> nat) (D K fuel : nat) :
  acyclic_down w ht -> acyclic_up w dp ->
  (forall a, dp a <= D) -> (forall a, length (children (tm w a)) <= K) ->
  prune_budget ht D K (ht obj) <= fuel ->
  forest w ->
  prune_tree fuel obj w = Ok w.
Proof.
  intros Hdown Hup HD HK Hfuel Hforest.
  destruct (prune_tree_total w ht dp D K Hdown Hup HD HK fuel obj Hfuel) as (w' & H & _).
  rewrite H. f_equal. by eapply (proj1 (prune_forest fuel)).
Qed.

(** X26: the pruning pass leaves a forest alone.  On a graph without
    cycles in which every term has at most one parent, prune_tree
    started at the root returns the knowledge base exactly as it was. *)
Theorem prune_tree_leaves_a_forest_as_it_is
  (w : KB) (ht dp : addr -> nat) (D K fuel : nat) :
  acyclic_down w ht -> acyclic_up w dp ->
  (forall a, dp a <= D) -> (forall a, length (children (tm w a)) <= K) ->
  prune_budget ht D K (ht obj) <= fuel ->
  forest w ->
  prune_tree fuel obj w = Ok w.
Proof. apply prune_tree_forest. Qed.

Lemma kb_chain_acyclic_down :
  acyclic_down kb_chain (fun a => match a with 0 => 3 | 1 => 0 | 2 => 1 | 3 => 2 | _ => 0 end).
Proof. solve_links. Qed.

Lemma kb_chain_acyclic_up :
  acyclic_up kb_chain (fun a => match a with 0 => 0 | 1 => 3 | 2 => 2 | 3 => 1 | _ => 0 end).
Proof. solve_links. Qed.

Lemma kb_chain_forest : forest kb_chain.
Proof. intros a. do 4 (destruct a as [|a]; [vm_compute; lia|]). vm_compute. lia. Qed.

Lemma kb_chain_bounds :
  (forall a : addr, match a with 0 => 0 | 1 => 3 | 2 => 2 | 3 => 1 | _ => 0 end <= 3) /\
  (forall a, length (children (tm kb_chain a)) <= 1).
Proof.
  split; intros a; do 4 (destruct a as [|a]; [vm_compute; lia|]); vm_compute; lia.
Qed.

Lemma prune_tree_leaves_a_forest_as_it_is_witness :
  prune_tree 15 obj kb_chain = Ok kb_chain.
Proof.
  apply (prune_tree_leaves_a_forest_as_it_is kb_chain
           (fun a => match a with 0 => 3 | 1 => 0 | 2 => 1 | 3 => 2 | _ => 0 end)
           (fun a => match a with 0 => 0 | 1 => 3 | 2 => 2 | 3 => 1 | _ => 0 end) 3 1 15).
  - apply kb_chain_acyclic_down.
  - apply kb_chain_acyclic_up.
  - apply kb_chain_bounds.
  - apply kb_chain_bounds.
  - vm_compute. lia.
  - apply kb_chain_forest.
Defined.

(** * A new leaf *)

Lemma first_found_ext {A B : Type} (search search' : A -> result (option B)) (l : list A) :
  (forall x, x ∈ l -> search x = search' x) ->
  first_found search l = first_found search' l.
Proof.
  induction l as [|x l IH]; intros H; simpl; [done|].
  rewrite (H x) by apply list_elem_of_here.
  destruct (search' x) as [[b|]| |]; try done.
  apply IH. intros y Hy. apply H. by apply list_elem_of_further.
Qed.

Lemma traverse_unfold (f : nat) (w : KB) (a : addr) (nm : string) :
  traverse (S f) w a nm =
  if decide (name (tm w a) = resolve (aliases w) nm) then Ok (Some a)
  else first_found (fun child => traverse f w child (resolve (aliases w) nm))
                   (children (tm w a)).
Proof. done. Qed.

(** A term that nothing links to does not change what a search finds. *)
Lemma traverse_alloc (x : string) (w : KB) (fuel : nat) (a : addr) (nm : string) :
  well_linked w -> a < length (heap w) ->
  traverse fuel (alloc x w).2 a nm = traverse fuel w a nm.
Proof.
  intros Hwl. revert a nm. induction fuel as [|f IH]; intros a nm Ha; [done|].
  rewrite !traverse_unfold. rewrite tm_alloc_old by done.
  change (aliases (alloc x w).2) with (aliases w).
  destruct (decide (name (tm w a) = resolve (aliases w) nm)); [done|].
  apply first_found_ext. intros c Hc. apply IH.
  destruct Hwl as [_ Hwl]. destruct (Hwl a) as (_ & _ & Hr & _). by apply Hr.
Qed.

Lemma has_name_false (w : KB) (nm : string) (l : list addr) :
  (forall c, c ∈ l -> name (tm w c) ≠ nm) -> has_name w nm l = false.
Proof.
  intros H. unfold has_name. induction l as [|c l IH]; [done|]. simpl.
  rewrite bool_decide_eq_false_2 by (apply H, list_elem_of_here). simpl.
  apply IH. intros c' Hc'. apply H. by apply list_elem_of_further.
Qed.

Section new_leaf.
Variables (w : KB) (x : string) (s : addr).
Hypothesis Hwl : well_linked w.
Hypothesis Hs : s < length (heap w).

Lemma children_with_new_leaf (a : addr) :
  children (tm (with_new_leaf x s w) a) =
  if decide (a = s) then children (tm w s) ++ [length (heap w)]
  else if decide (a = length (heap w)) then [] else children (tm w a).
Proof.
  unfold with_new_leaf. rewrite children_set_parents, children_set_children.
  rewrite length_alloc, tm_alloc.
  destruct (decide (a = s)) as [->|Hne].
  - rewrite decide_True by (split; [done|lia]). done.
  - rewrite decide_False by (intros [? _]; congruence).
    destruct (decide (a = length (heap w))); done.
Qed.

Lemma parents_with_new_leaf (a : addr) :
  parents (tm (with_new_leaf x s w) a) =
  if decide (a = length (heap w)) then [s] else parents (tm w a).
Proof.
  unfold with_new_leaf. rewrite parents_set_parents, parents_set_children.
  rewrite length_set_children, length_alloc, tm_alloc.
  destruct (decide (a = length (heap w))) as [->|Hne].
  - rewrite decide_True by (split; [done|lia]). done.
  - rewrite decide_False by (intros [? _]; congruence). done.
Qed.

End new_leaf.

(** X27: the plain case of a new relationship.  In a knowledge base
    whose links are well formed, without cycles, where every term has at
    most one parent, "x is a kind of y" with x no alias and the name of
    no reachable term, and y found as the term s, creates one term named
    x, appends it to the children of s, gives it s for its only parent,
    and changes nothing else: the pruning pass that follows removes
    nothing. *)
Theorem add_kind_of_links_a_new_leaf
  (w : KB) (ht dp : addr -> nat) (D K fuel : nat) (x y : string) (s : addr) :
  well_linked w -> forest w ->
  acyclic_down w ht -> acyclic_up w dp ->
  (forall a, dp a <= D) -> (forall a, length (children (tm w a)) <= K) ->
  aliases w !! x = None ->
  (forall b, reach w obj b -> name (tm w b) ≠ x) ->
  traverse fuel w obj y = Ok (Some s) ->
  prune_budget (fun a => S (ht a)) (S D) (S K) (S (ht obj)) + 2 <= fuel ->
  add_kind_of fuel x y w = Ok (with_new_leaf x s w).
Proof.
  intros Hwl Hforest Hdown Hup HD HK Hx Hnew Hy Hfuel.
  destruct fuel as [|f]; [lia|].
  assert (Hf : ht obj < f).
  { unfold prune_budget in Hfuel. lia. }
  pose proof Hwl as [Hpos Hlinks].
  set (n := length (heap w)).
  (* the lookups *)
  assert (Hx0 : traverse f w obj x = Ok None).
  { apply (traverse_not_found w ht Hdown); [done|].
    intros b Hb. apply findable_plain in Hb as [Hr Hn]; [|done]. by apply (Hnew b). }
  assert (Hy0 : traverse f w obj y = Ok (Some s)).
  { destruct (traverse_total w ht Hdown f obj y Hf) as [r Hr].
    rewrite (traverse_mono w f (S f) obj y r) in Hy by (done || lia). congruence. }
  assert (Hreach : reach w obj s) by (by apply traverse_sound in Hy0 as (? & _)).
  assert (Hs : s < n) by (by eapply reach_in_range).
  assert (Hchild : add_child f s n (alloc x w).2 = Ok (true, with_new_leaf x s w)).
  { (* the child link *)
    unfold add_child.
    replace (tm (alloc x w).2 n) with (new_Term x) by (symmetry; apply tm_alloc_new).
    simpl name. rewrite (tm_alloc_old x w s) by done.
    rewrite has_name_false.
    2:{ intros c Hc. destruct (Hlinks s) as (_ & _ & Hr & _).
        rewrite (tm_alloc_old x w c) by (by apply Hr).
        apply Hnew. eapply rtc_r; [exact Hreach|exact Hc]. }
    (* the parent link *)
    unfold add_parent.
    rewrite parents_set_children.
    replace (tm (alloc x w).2 n) with (new_Term x) by (symmetry; apply tm_alloc_new).
    simpl parents. change (has_name _ _ []) with false. cbv iota.
    (* the pruning pass *)
    change (set_parents n ([] ++ [s]) (set_children s (children (tm w s) ++ [n]) (alloc x w).2))
      with (with_new_leaf x s w).
    rewrite (prune_tree_forest (with_new_leaf x s w)
               (fun a => if decide (a = n) then 0 else S (ht a))
               (fun a => if decide (a = n) then S (dp s) else dp a) (S D) (S K)); [done|..].
    - intros a c. rewrite (children_with_new_leaf w x s Hs a). fold n.
      destruct (decide (a = s)) as [->|Has].
      + rewrite (decide_False (P := s = n)) by lia.
        intros [Hc| ->%list_elem_of_singleton]%elem_of_app.
        * destruct (Hlinks s) as (_ & _ & Hr & _).
          rewrite decide_False by (specialize (Hr c Hc); fold n in Hr; lia).
          specialize (Hdown s c Hc). lia.
        * rewrite decide_True by done. lia.
      + destruct (decide (a = n)) as [->|Han]; [by intros ?%elem_of_nil|].
        intros Hc. destruct (Hlinks a) as (_ & _ & Hr & _).
        rewrite decide_False by (specialize (Hr c Hc); fold n in Hr; lia).
        specialize (Hdown a c Hc). lia.
    - intros a p. rewrite (parents_with_new_leaf w x s Hs a). fold n.
      destruct (decide (a = n)) as [->|Han].
      + intros ->%list_elem_of_singleton. rewrite decide_False by lia. lia.
      + intros Hp. destruct (Hlinks a) as (_ & _ & _ & Hr).
        rewrite decide_False by (specialize (Hr p Hp); fold n in Hr; lia).
        by apply Hup.
    - intros a. case_decide; [specialize (HD s)|specialize (HD a)]; lia.
    - intros a. rewrite (children_with_new_leaf w x s Hs a).
      destruct (decide (a = s)) as [->|Has].
      + rewrite length_app. simpl. specialize (HK s). lia.
      + case_decide; [simpl; lia|]. specialize (HK a). lia.
    - rewrite decide_False by (unfold obj; lia).
      unfold prune_budget in *. rewrite decide_False by (unfold obj; lia). lia.
    - intros a. rewrite (parents_with_new_leaf w x s Hs a).
      case_decide; [simpl; lia|apply Hforest]. }
  rewrite add_kind_of_step, Hx0. simpl.
  change (set_heap (heap w ++ [new_Term x]) w) with ((alloc x w).2).
  rewrite traverse_alloc by (done || lia). rewrite Hy0. simpl.
  change (set_heap (heap w ++ [new_Term x]) w) with ((alloc x w).2).
  fold n. by rewrite Hchild.
Qed.

Lemma kb_chain_well_linked : well_linked kb_chain.
Proof.
  apply (reachable_well_linked any_op).
  apply (session_reachable any_op 40
           [OpAddRelationship "dog" "mammal"; OpAddRelationship "mammal" "animal";
            OpAddRelationship "dog" "animal"] init).
  - by repeat constructor.
  - apply reachable_init.
  - vm_compute. reflexivity.
Qed.

Lemma add_kind_of_links_a_new_leaf_witness :
  add_kind_of 26 "cat" "mammal" kb_chain = Ok (with_new_leaf "cat" 2 kb_chain).
Proof.
  apply (add_kind_of_links_a_new_leaf kb_chain
           (fun a => match a with 0 => 3 | 1 => 0 | 2 => 1 | 3 => 2 | _ => 0 end)
           (fun a => match a with 0 => 0 | 1 => 3 | 2 => 2 | 3 => 1 | _ => 0 end)
           3 1 26 "cat" "mammal" 2).
  - apply kb_chain_well_linked.
  - apply kb_chain_forest.
  - apply kb_chain_acyclic_down.
  - apply kb_chain_acyclic_up.
  - apply kb_chain_bounds.
  - apply kb_chain_bounds.
  - reflexivity.
  - intros b Hb.
    assert (Hlt : b < 4).
    { apply (reach_in_range kb_chain obj b kb_chain_well_linked); [vm_compute; lia|done]. }
    do 4 (destruct b as [|b]; [vm_compute; discriminate|]). lia.
  - vm_compute. reflexivity.
  - vm_compute. lia.
Defined.
